(** * johnny: multi-source version resolution

    A shallow embedding of [src/johnny/__init__.py] and the properties of its
    version parser, source adapters, merge policy and resolution orchestrator.

    Conventions.
    - Python [str] is [string]; scanning is done on [list ascii].  Characters
      are the 256 code points below U+0100.
    - A Python [dict] is an insertion-ordered association list with unique
      keys (module [Dict]).
    - Code that can raise returns in the monad [M], which also records what
      a computation does: the requests it sends and the lines it writes, and
      as ghost events the adapter invocations and the successive values of
      the resolved map.  The record survives an exception.
    - What the network answers, and the order in which a [set] is iterated,
      are parameters ([World]).
    - [packaging.version] is an external library; the part of it the program
      calls ([parse], [base_version], the comparison key) is modelled in
      module [PkgVersion] after packaging 20.x, the series that still has
      [LegacyVersion]. *)

From Stdlib Require Import List String Ascii NArith ZArith Bool Lia.
From Stdlib Require Import Permutation Sorted DecimalString DecimalN.
Import ListNotations.
Open Scope string_scope.
Open Scope list_scope.
Set Warnings "-register-all".

(* ------------------------------------------------------------------ *)
(** ** Python strings *)

Module PyStr.

Definition chars (s : string) : list ascii := list_ascii_of_string s.
Definition of_chars (l : list ascii) : string := string_of_list_ascii l.

Definition code (c : ascii) : N := N_of_ascii c.

Definition between (lo hi : N) (c : ascii) : bool :=
  ((lo <=? code c) && (code c <=? hi))%N.

Definition is_digit : ascii -> bool := between 48 57.
Definition is_upper : ascii -> bool := between 65 90.
Definition is_lower : ascii -> bool := between 97 122.
Definition is_alpha (c : ascii) : bool := is_upper c || is_lower c.
Definition is_alnum (c : ascii) : bool := is_alpha c || is_digit c.

(** [[0-9a-fA-F]] *)
Definition is_hex (c : ascii) : bool :=
  is_digit c || between 65 70 c || between 97 102 c.

(** [\s] of a [str] pattern, on code points below 256. *)
Definition is_space (c : ascii) : bool :=
  between 9 13 c || between 28 32 c || (code c =? 133)%N || (code c =? 160)%N.

(** [str.lower] on one character (ASCII letters). *)
Definition lower (c : ascii) : ascii :=
  if is_upper c then ascii_of_N (code c + 32) else c.

Definition eqb_ci (a b : ascii) : bool := Ascii.eqb (lower a) (lower b).

Fixpoint span {A} (p : A -> bool) (l : list A) : list A * list A :=
  match l with
  | x :: t => if p x then let (a, b) := span p t in (x :: a, b) else ([], l)
  | [] => ([], [])
  end.

Fixpoint drop_while {A} (p : A -> bool) (l : list A) : list A :=
  match l with
  | x :: t => if p x then drop_while p t else l
  | [] => []
  end.

(** [s.strip(cs)] for a one-character set. *)
Definition strip_char (c : ascii) (l : list ascii) : list ascii :=
  rev (drop_while (Ascii.eqb c) (rev (drop_while (Ascii.eqb c) l))).

(** The literal [kw] at the head of [l], compared case-insensitively
    ([re.IGNORECASE]); the remainder on success. *)
Fixpoint eat_ci (kw l : list ascii) : option (list ascii) :=
  match kw, l with
  | [], _ => Some l
  | k :: kw', c :: l' => if eqb_ci k c then eat_ci kw' l' else None
  | _ :: _, [] => None
  end.

(** The literal [kw] at the head of [l], compared exactly. *)
Fixpoint eat (kw l : list ascii) : option (list ascii) :=
  match kw, l with
  | [], _ => Some l
  | k :: kw', c :: l' => if Ascii.eqb k c then eat kw' l' else None
  | _ :: _, [] => None
  end.

(** [int(s)] for a run of ASCII digits; the empty run reads as [0]. *)
Definition int_of_digits (ds : list ascii) : N :=
  match NilEmpty.uint_of_string (of_chars ds) with
  | Some u => N.of_uint u
  | None => 0%N
  end.

(** [str(n)] for a non-negative integer. *)
Definition str_of_N (n : N) : list ascii :=
  chars (NilEmpty.string_of_uint (N.to_uint n)).

Fixpoint join (sep : list ascii) (parts : list (list ascii)) : list ascii :=
  match parts with
  | [] => []
  | [p] => p
  | p :: ps => p ++ sep ++ join sep ps
  end.

End PyStr.

(* ------------------------------------------------------------------ *)
(** ** packaging.version

    [Version(s)] matches [^\s*v?(epoch!)?release(pre)?(post)?(dev)?(+local)?\s*$]
    case-insensitively.  The groups are scanned left to right.  The regular
    expression backtracks, but no two ways of matching a group leave a
    remainder that a later group can accept, so the scanner takes the longest
    keyword and the longest run of digits. *)

Module PkgVersion.
Import PyStr.

Inductive pre_letter := PreA | PreB | PreRC.

(** One part of a local version label: [int(part)] or [part.lower()]. *)
Inductive local_part :=
| LInt (n : N)
| LStr (s : list ascii).

Record Version := mkVersion {
  epoch : N;
  release : list N;
  pre : option (pre_letter * N);
  post : option N;
  dev : option N;
  local : option (list local_part)
}.

Definition is_sep (c : ascii) : bool :=
  match c with
  | "-"%char | "_"%char | "."%char => true
  | _ => false
  end.

(** [[-_\.]?] *)
Definition opt_sep (l : list ascii) : list ascii :=
  match l with
  | c :: t => if is_sep c then t else l
  | [] => []
  end.

(** First keyword of [kws] found at the head of [l]. *)
Fixpoint first_kw {A} (kws : list (string * A)) (l : list ascii)
  : option (A * list ascii) :=
  match kws with
  | [] => None
  | (kw, a) :: rest =>
      match eat_ci (chars kw) l with
      | Some l' => Some (a, l')
      | None => first_kw rest l
      end
  end.

(** [[-_\.]?(?P<l>kw)[-_\.]?(?P<n>[0-9]+)?]; an absent number reads as 0
    ([_parse_letter_version]). *)
Definition letter_group {A} (kws : list (string * A)) (l : list ascii)
  : option (A * N) * list ascii :=
  match first_kw kws (opt_sep l) with
  | Some (a, l2) =>
      let (ds, l3) := span is_digit (opt_sep l2) in
      (Some (a, int_of_digits ds), l3)
  | None => (None, l)
  end.

Definition pre_kws : list (string * pre_letter) :=
  [("alpha", PreA); ("a", PreA); ("beta", PreB); ("b", PreB);
   ("preview", PreRC); ("pre", PreRC); ("rc", PreRC); ("c", PreRC)].

Definition post_kws : list (string * unit) :=
  [("post", tt); ("rev", tt); ("r", tt)].

Definition dev_kws : list (string * unit) := [("dev", tt)].

Definition parse_pre (l : list ascii) : option (pre_letter * N) * list ascii :=
  letter_group pre_kws l.

Definition number_of {A} (r : option (A * N)) : option N :=
  match r with Some (_, n) => Some n | None => None end.

(** [-(?P<post_n1>[0-9]+)] first, then the lettered form. *)
Definition parse_post (l : list ascii) : option N * list ascii :=
  let lettered :=
    let (r, l') := letter_group post_kws l in (number_of r, l') in
  match l with
  | "-"%char :: t =>
      match span is_digit t with
      | ((_ :: _) as ds, l') => (Some (int_of_digits ds), l')
      | ([], _) => lettered
      end
  | _ => lettered
  end.

Definition parse_dev (l : list ascii) : option N * list ascii :=
  let (r, l') := letter_group dev_kws l in (number_of r, l').

(** [[0-9]+(?:\.[0-9]+)*] with the first digit already seen: [cur] holds the
    digits of the segment being read (reversed), [acc] the finished segments
    (reversed).  A dot continues the release only when a digit follows. *)
Fixpoint release_from (cur : list ascii) (acc : list N) (l : list ascii)
  : list N * list ascii :=
  match l with
  | c :: t =>
      if is_digit c then release_from (c :: cur) acc t
      else if Ascii.eqb c "."%char then
        match t with
        | d :: _ =>
            if is_digit d
            then release_from [] (int_of_digits (rev cur) :: acc) t
            else (rev (int_of_digits (rev cur) :: acc), l)
        | [] => (rev (int_of_digits (rev cur) :: acc), l)
        end
      else (rev (int_of_digits (rev cur) :: acc), l)
  | [] => (rev (int_of_digits (rev cur) :: acc), l)
  end.

Definition parse_release (l : list ascii) : option (list N * list ascii) :=
  match l with
  | c :: t => if is_digit c then Some (release_from [c] [] t) else None
  | [] => None
  end.

(** [(?:(?P<epoch>[0-9]+)!)?] followed by the release. *)
Definition parse_epoch_release (l : list ascii)
  : option (N * list N * list ascii) :=
  let without :=
    match parse_release l with
    | Some (r, l') => Some (0%N, r, l')
    | None => None
    end in
  match span is_digit l with
  | ((_ :: _) as ds, "!"%char :: t) =>
      match parse_release t with
      | Some (r, l') => Some (int_of_digits ds, r, l')
      | None => without
      end
  | _ => without
  end.

Definition mk_local_part (p : list ascii) : local_part :=
  if forallb is_digit p then LInt (int_of_digits p) else LStr (map lower p).

(** [[a-z0-9]+(?:[-_\.][a-z0-9]+)*] with the first character already seen,
    split on the separators ([_parse_local_version]). *)
Fixpoint local_from (cur : list ascii) (acc : list local_part) (l : list ascii)
  : list local_part * list ascii :=
  match l with
  | c :: t =>
      if is_alnum c then local_from (c :: cur) acc t
      else if is_sep c then
        match t with
        | d :: _ =>
            if is_alnum d
            then local_from [] (mk_local_part (rev cur) :: acc) t
            else (rev (mk_local_part (rev cur) :: acc), l)
        | [] => (rev (mk_local_part (rev cur) :: acc), l)
        end
      else (rev (mk_local_part (rev cur) :: acc), l)
  | [] => (rev (mk_local_part (rev cur) :: acc), l)
  end.

(** [(?:\+(?P<local>...))?] *)
Definition parse_local (l : list ascii) : option (list local_part) * list ascii :=
  match l with
  | "+"%char :: c :: t =>
      if is_alnum c then
        let (ps, l') := local_from [c] [] t in (Some ps, l')
      else (None, l)
  | _ => (None, l)
  end.

(** [v?] *)
Definition opt_v (l : list ascii) : list ascii :=
  match l with
  | c :: t => if eqb_ci c "v"%char then t else l
  | [] => []
  end.

(** [Version(s)]; [None] is [InvalidVersion]. *)
Definition parse_chars (s : list ascii) : option Version :=
  match parse_epoch_release (opt_v (drop_while is_space s)) with
  | None => None
  | Some (e, r, l1) =>
      let (p, l2) := parse_pre l1 in
      let (po, l3) := parse_post l2 in
      let (d, l4) := parse_dev l3 in
      let (lo, l5) := parse_local l4 in
      if forallb is_space l5 then Some (mkVersion e r p po d lo) else None
  end.

(** [version.parse(s)]: the [Version], or [None] where packaging falls back
    to a [LegacyVersion]. *)
Definition parse (s : string) : option Version := parse_chars (chars s).

(** [Version.base_version]: epoch and release only. *)
Definition base_chars (v : Version) : list ascii :=
  (if (epoch v =? 0)%N then [] else str_of_N (epoch v) ++ ["!"%char])
  ++ join ["."%char] (map str_of_N (release v)).

Definition base_version (v : Version) : string := of_chars (base_chars v).

Definition pre_letter_str (p : pre_letter) : list ascii :=
  match p with
  | PreA => chars "a"
  | PreB => chars "b"
  | PreRC => chars "rc"
  end.

Definition local_part_str (p : local_part) : list ascii :=
  match p with
  | LInt n => str_of_N n
  | LStr s => s
  end.

(** [str(v)] *)
Definition to_chars (v : Version) : list ascii :=
  base_chars v
  ++ match pre v with
     | Some (p, n) => pre_letter_str p ++ str_of_N n
     | None => []
     end
  ++ match post v with
     | Some n => chars ".post" ++ str_of_N n
     | None => []
     end
  ++ match dev v with
     | Some n => chars ".dev" ++ str_of_N n
     | None => []
     end
  ++ match local v with
     | Some ps => "+"%char :: join ["."%char] (map local_part_str ps)
     | None => []
     end.

Definition to_string (v : Version) : string := of_chars (to_chars v).

End PkgVersion.

(* ------------------------------------------------------------------ *)
(** ** Python comparisons

    Tuples compare lexicographically and a proper prefix sorts first; the
    sentinels of [packaging._structures] sort below and above everything. *)

Module PyOrder.

Inductive ext (A : Type) :=
| NegInf
| Fin (a : A)
| PosInf.
Arguments NegInf {A}.
Arguments Fin {A} a.
Arguments PosInf {A}.

Definition cmp_ext {A} (c : A -> A -> comparison) (x y : ext A) : comparison :=
  match x, y with
  | NegInf, NegInf => Eq
  | NegInf, _ => Lt
  | _, NegInf => Gt
  | Fin a, Fin b => c a b
  | Fin _, PosInf => Lt
  | PosInf, Fin _ => Gt
  | PosInf, PosInf => Eq
  end.

Definition cmp_pair {A B} (ca : A -> A -> comparison) (cb : B -> B -> comparison)
  (x y : A * B) : comparison :=
  match ca (fst x) (fst y) with
  | Eq => cb (snd x) (snd y)
  | r => r
  end.

Fixpoint cmp_list {A} (c : A -> A -> comparison) (l1 l2 : list A) : comparison :=
  match l1, l2 with
  | [], [] => Eq
  | [], _ :: _ => Lt
  | _ :: _, [] => Gt
  | a :: t1, b :: t2 =>
      match c a b with
      | Eq => cmp_list c t1 t2
      | r => r
      end
  end.

(** [str] comparison: by code point. *)
Definition cmp_chars (a b : list ascii) : comparison :=
  cmp_list N.compare (map PyStr.code a) (map PyStr.code b).

Definition cmp_str (a b : string) : comparison :=
  cmp_chars (PyStr.chars a) (PyStr.chars b).

(** [sorted(l, key=...)]: Python's sort is stable and asks only [<]; a stable
    sort has one possible output, computed here by insertion. *)
Section Sorted.
Context {A : Type} (lt : A -> A -> bool).

Fixpoint insert (x : A) (l : list A) : list A :=
  match l with
  | [] => [x]
  | y :: t => if lt x y then x :: l else y :: insert x t
  end.

Definition sorted (l : list A) : list A :=
  fold_left (fun acc x => insert x acc) l [].
End Sorted.

End PyOrder.

Module VersionOrder.
Import PyStr PyOrder PkgVersion.

Definition letter_key : Type := (list ascii * N)%type.

Definition key : Type :=
  (N * list N * ext letter_key * ext letter_key * ext letter_key
   * ext (list (ext N * list ascii)))%type.

(** [itertools.dropwhile(lambda x: x == 0, reversed(release))], reversed. *)
Definition strip_trailing_zeros (r : list N) : list N :=
  rev (drop_while (N.eqb 0) (rev r)).

Definition local_key (p : local_part) : ext N * list ascii :=
  match p with
  | LInt n => (Fin n, [])
  | LStr s => (NegInf, s)
  end.

(** [packaging.version._cmpkey] *)
Definition cmpkey (v : Version) : key :=
  (epoch v,
   strip_trailing_zeros (release v),
   match pre v, post v, dev v with
   | None, None, Some _ => NegInf
   | None, _, _ => PosInf
   | Some (p, n), _, _ => Fin (pre_letter_str p, n)
   end,
   match post v with
   | None => NegInf
   | Some n => Fin (chars "post", n)
   end,
   match dev v with
   | None => PosInf
   | Some n => Fin (chars "dev", n)
   end,
   match local v with
   | None => NegInf
   | Some ps => Fin (map local_key ps)
   end).

Definition cmp_letter_key : letter_key -> letter_key -> comparison :=
  cmp_pair cmp_chars N.compare.

Definition cmp_key : key -> key -> comparison :=
  cmp_pair (cmp_pair (cmp_pair (cmp_pair (cmp_pair
    N.compare
    (cmp_list N.compare))
    (cmp_ext cmp_letter_key))
    (cmp_ext cmp_letter_key))
    (cmp_ext cmp_letter_key))
    (cmp_ext (cmp_list (cmp_pair (cmp_ext N.compare) cmp_chars))).

Definition compare (a b : Version) : comparison := cmp_key (cmpkey a) (cmpkey b).

(** [a < b], [a > b], [a <= b], [a == b] *)
Definition ltb (a b : Version) : bool :=
  match compare a b with Lt => true | _ => false end.
Definition gtb (a b : Version) : bool :=
  match compare a b with Gt => true | _ => false end.
Definition leb (a b : Version) : bool :=
  match compare a b with Gt => false | _ => true end.
Definition eqb (a b : Version) : bool :=
  match compare a b with Eq => true | _ => false end.

Definition le (a b : Version) : Prop := leb a b = true.
Definition lt (a b : Version) : Prop := ltb a b = true.

End VersionOrder.

(* ------------------------------------------------------------------ *)
(** ** try_parse_versions *)

Import PkgVersion.

(** The body of the loop of [try_parse_versions] for one raw string:
    [ver.strip("v")], [version.parse], the [LegacyVersion] test, and the
    second parse of [base_version].  The second parse never falls back
    (lemma [reparse_base_version]); its [None] branch is there because
    [parse] is partial. *)
Definition parse_one (ver : string) : option Version :=
  let ver := PyStr.of_chars (PyStr.strip_char "v"%char (PyStr.chars ver)) in
  match parse ver with
  | Some v => parse (base_version v)
  | None => None
  end.

Definition try_parse_versions (versions : list string) : list Version :=
  let res :=
    fold_left
      (fun res ver =>
         match parse_one ver with
         | Some v => res ++ [v]
         | None => res
         end)
      versions [] in
  PyOrder.sorted VersionOrder.ltb res.

(** [vers[-1]] guarded by [if vers:] *)
Definition latest (vers : list Version) : option Version :=
  match vers with
  | [] => None
  | v :: t => Some (last t v)
  end.

(* ------------------------------------------------------------------ *)
(** ** Python dicts *)

Module Dict.
Section Defs.
Context {V : Type}.

(** Items in insertion order. *)
Definition t : Type := list (string * V).

Fixpoint get (d : t) (k : string) : option V :=
  match d with
  | [] => None
  | (k', v) :: r => if String.eqb k' k then Some v else get r k
  end.

(** [k in d] *)
Definition mem (d : t) (k : string) : bool :=
  match get d k with Some _ => true | None => false end.

(** [d[k] = v]: a present key keeps its position. *)
Fixpoint set (d : t) (k : string) (v : V) : t :=
  match d with
  | [] => [(k, v)]
  | (k', v') :: r =>
      if String.eqb k' k then (k', v) :: r else (k', v') :: set r k v
  end.

(** [del d[k]] *)
Fixpoint del (d : t) (k : string) : t :=
  match d with
  | [] => []
  | (k', v') :: r => if String.eqb k' k then r else (k', v') :: del r k
  end.

Definition keys (d : t) : list string := map fst d.

(** [dict(items)] *)
Definition of_items (items : list (string * V)) : t :=
  fold_left (fun d kv => set d (fst kv) (snd kv)) items [].

(** A value of type [t] that a Python dict can hold. *)
Definition wf (d : t) : Prop := NoDup (keys d).
End Defs.
Arguments t : clear implicits.
End Dict.

(* ------------------------------------------------------------------ *)
(** ** Values read from the configuration document and from responses *)

(** A TOML scalar as [toml.load] returns it: a string, an integer or a
    boolean.  Floats, dates, arrays and nested tables are left out. *)
Inductive tomlval :=
| TStr (s : string)
| TInt (z : Z)
| TBool (b : bool).

(** A decoded JSON payload.  Objects are dicts with string keys; numbers are
    integers. *)
Inductive json :=
| JNull
| JBool (b : bool)
| JNum (z : Z)
| JStr (s : string)
| JArr (l : list json)
| JObj (o : list (string * json)).

Inductive exn :=
| KeyError
| ValueError
| TypeError
| AttributeError
| IndexError
| UnboundLocalError
| ClientError
| ContentError.

(** A package entry of the catalog: one TOML table. *)
Definition pkgspec : Type := Dict.t tomlval.
(** The catalog: package name to entry, in document order. *)
Definition catalog : Type := Dict.t pkgspec.
(** The resolved map. *)
Definition versions : Type := Dict.t Version.
(** The run options: [None] is Python's [None]. *)
Definition options : Type := Dict.t (option tomlval).

Inductive phase := Primary | Secondary.

(** What a run does besides computing.  [Request]: a GET is sent.  [Stderr]:
    [eprint] writes a line.  [Stdout out]: [print(json.dumps(out))].  Two
    ghost events record control points and do not influence any result:
    [Invoke ph source pkgs], just before [source(args, pkgs)] is called in
    phase [ph], and [Resolved vers], just after [vers = update(vers, new)]. *)
Inductive event :=
| Request (url : string) (headers : list (string * string))
| Invoke (ph : phase) (source : string) (pkgs : catalog)
| Resolved (vers : versions)
| Stderr (line : string)
| Stdout (out : Dict.t string).

(** A computation that may raise and that emits events: its outcome, and the
    events emitted up to the return or the exception. *)
Definition M (A : Type) : Type := ((exn + A) * list event)%type.

Definition ret {A} (a : A) : M A := (inr a, []).
Definition raise {A} (e : exn) : M A := (inl e, []).
Definition emit (e : event) : M unit := (inr tt, [e]).

Definition bind {A B} (m : M A) (f : A -> M B) : M B :=
  match m with
  | (inl e, log) => (inl e, log)
  | (inr a, log) => let (r, log') := f a in (r, log ++ log')
  end.

Notation "x <- m ;; k" := (bind m (fun x => k))
  (at level 61, m at next level, right associativity).
Notation "' pat <- m ;; k" := (bind m (fun x => match x with pat => k end))
  (at level 61, pat pattern, m at next level, right associativity).
Notation "m ;;; k" := (bind m (fun _ => k))
  (at level 61, right associativity).

Definition lift {A} (r : exn + A) : M A := (r, []).

Definition outcome {A} (m : M A) : exn + A := fst m.
Definition trace {A} (m : M A) : list event := snd m.

(** A [for] loop that threads a state. *)
Fixpoint for_each {A S} (l : list A) (s : S) (body : S -> A -> M S) : M S :=
  match l with
  | [] => ret s
  | a :: t => s' <- body s a ;; for_each t s' body
  end.

Module Py.
Import PyStr.

Definition truthy (v : tomlval) : bool :=
  match v with
  | TStr s => negb (String.eqb s "")
  | TInt z => negb (Z.eqb z 0)
  | TBool b => b
  end.

Definition truthy_opt (v : option tomlval) : bool :=
  match v with Some x => truthy x | None => false end.

(** [str(v)], as an f-string formats it. *)
Definition str (v : tomlval) : string :=
  match v with
  | TStr s => s
  | TInt z => NilEmpty.string_of_int (Z.to_int z)
  | TBool true => "True"
  | TBool false => "False"
  end.

Definition truthy_json (j : json) : bool :=
  match j with
  | JNull => false
  | JBool b => b
  | JNum z => negb (Z.eqb z 0)
  | JStr s => negb (String.eqb s "")
  | JArr l => match l with [] => false | _ => true end
  | JObj o => match o with [] => false | _ => true end
  end.

(** [for x in j] *)
Definition iter (j : json) : exn + list json :=
  match j with
  | JArr l => inr l
  | JObj o => inr (map (fun kv => JStr (fst kv)) o)
  | JStr s => inr (map (fun c => JStr (String c EmptyString)) (chars s))
  | _ => inl TypeError
  end.

Fixpoint is_prefix (p l : list ascii) : bool :=
  match p, l with
  | [], _ => true
  | a :: p', b :: l' => Ascii.eqb a b && is_prefix p' l'
  | _ :: _, [] => false
  end.

Fixpoint is_substring (p l : list ascii) : bool :=
  is_prefix p l ||
  match l with
  | [] => false
  | _ :: l' => is_substring p l'
  end.

Definition is_jstr (k : string) (j : json) : bool :=
  match j with JStr s => String.eqb s k | _ => false end.

(** [k in x] for a string [k] *)
Definition contains (k : string) (x : json) : exn + bool :=
  match x with
  | JObj o => inr (Dict.mem o k)
  | JArr l => inr (existsb (is_jstr k) l)
  | JStr s => inr (is_substring (chars k) (chars s))
  | _ => inl TypeError
  end.

(** [x[k]] for a string [k] *)
Definition getitem (x : json) (k : string) : exn + json :=
  match x with
  | JObj o => match Dict.get o k with Some v => inr v | None => inl KeyError end
  | _ => inl TypeError
  end.

(** [x[0]] *)
Definition getitem0 (x : json) : exn + json :=
  match x with
  | JArr (a :: _) => inr a
  | JArr [] => inl IndexError
  | JObj _ => inl KeyError
  | JStr (String c _) => inr (JStr (String c EmptyString))
  | JStr EmptyString => inl IndexError
  | _ => inl TypeError
  end.

(** The receiver of [ver.strip("v")] has to be a [str]. *)
Definition as_str (j : json) : exn + string :=
  match j with
  | JStr s => inr s
  | _ => inl AttributeError
  end.

Fixpoint all_str (js : list json) : exn + list string :=
  match js with
  | [] => inr []
  | j :: t =>
      match as_str j, all_str t with
      | inr s, inr ss => inr (s :: ss)
      | inl e, _ => inl e
      | _, inl e => inl e
      end
  end.

(** [", ".join(parts)] and friends. *)
Definition join_str (sep : string) (parts : list string) : string :=
  of_chars (join (chars sep) (map chars parts)).

(** [str(len(l))] *)
Definition len_str {A} (l : list A) : string :=
  of_chars (str_of_N (N.of_nat (List.length l))).

End Py.

(* ------------------------------------------------------------------ *)
(** ** The outside world

    What the remote sources answer and the order in which Python iterates a
    [set] are not determined by the program. *)

Record response := mkResponse {
  resp_text : string;          (* the body *)
  resp_json : option json      (* the decoded body; [None]: not JSON *)
}.

Record World := mkWorld {
  (** The answer to a GET, the same throughout a run; [None] is a transport
      failure. *)
  http_get : string -> list (string * string) -> option response;
  (** Iteration order of a set built from the given elements. *)
  set_order : forall A : Type, list A -> list A;
  set_order_perm : forall (A : Type) (l : list A), Permutation (set_order A l) l
}.

Definition github_base := "https://api.github.com/repos".
Definition gitlab_base := "https://gitlab.com".
Definition arch_base := "https://www.archlinux.org/packages/search/json".
Definition aur_base := "https://aur.archlinux.org/rpc".

(** An f-string: the concatenation of its pieces. *)
Definition fmt (pieces : list string) : string := String.concat "" pieces.

(* ------------------------------------------------------------------ *)
(** ** git_get_version and urlparse *)

Module GitRefs.
Import PyStr.

Definition is_name_char (c : ascii) : bool :=
  negb (Ascii.eqb c "/"%char || Ascii.eqb c "^"%char).

Definition ascii_nl : ascii := ascii_of_N 10.

(** [tag_match.match(line)] for
    [^[0-9a-fA-F]+\s+refs/tags/([^/^]+)(\^\{\})?$], returning group 1.
    [$] also matches before a final newline. *)
Definition git_get_version (line : list ascii) : option (list ascii) :=
  match span is_hex line with
  | (_ :: _, l1) =>
      match span is_space l1 with
      | (_ :: _, l2) =>
          match eat (chars "refs/tags/") l2 with
          | Some l3 =>
              match span is_name_char l3 with
              | ((_ :: _) as name, []) => Some name
              | ((_ :: _) as name, suffix) =>
                  match eat (chars "^{}") suffix with
                  | Some [] => Some name
                  | Some [c] => if Ascii.eqb c ascii_nl then Some name else None
                  | _ => None
                  end
              | ([], _) => None
              end
          | None => None
          end
      | ([], _) => None
      end
  | ([], _) => None
  end.

Definition is_scheme_char (c : ascii) : bool :=
  is_alnum c || Ascii.eqb c "+"%char || Ascii.eqb c "-"%char || Ascii.eqb c "."%char.

Definition chars_eqb (a b : list ascii) : bool :=
  if list_eq_dec ascii_dec a b then true else false.

(** The scheme [urllib.parse.urlsplit] (CPython 3.8) finds, and the rest. *)
Definition split_scheme (url : list ascii) : list ascii * list ascii :=
  match span (fun c => negb (Ascii.eqb c ":"%char)) url with
  | ((_ :: _) as head, _ :: rest) =>
      if chars_eqb head (chars "http") then (head, rest)
      else if forallb is_scheme_char head then
        match rest with
        | [] => (map lower head, rest)
        | _ => if forallb is_digit rest then ([], url) else (map lower head, rest)
        end
      else ([], url)
  | _ => ([], url)
  end.

Definition is_netloc_end (c : ascii) : bool :=
  Ascii.eqb c "/"%char || Ascii.eqb c "?"%char || Ascii.eqb c "#"%char.

(** [urlparse(url).scheme]; an unbalanced bracket in the network location is
    a [ValueError]. *)
Definition urlparse_scheme (url : list ascii) : exn + list ascii :=
  let (scheme, rest) := split_scheme url in
  match rest with
  | "/"%char :: "/"%char :: r =>
      let netloc := fst (span (fun c => negb (is_netloc_end c)) r) in
      if xorb (existsb (Ascii.eqb "["%char) netloc)
              (existsb (Ascii.eqb "]"%char) netloc)
      then inl ValueError
      else inr scheme
  | _ => inr scheme
  end.

End GitRefs.

(* ------------------------------------------------------------------ *)
(** ** Source adapters *)

Section Adapters.
Variable w : World.

(** A pending [fetch(name, url, headers)]. *)
Definition pending : Type := (string * string * list (string * string))%type.

(** [done, _ = await asyncio.wait(aws)]: an empty [aws] is a [ValueError];
    otherwise every request is sent and the finished tasks come back as a
    set. *)
Definition wait (aws : list pending) : M (list (string * option response)) :=
  match aws with
  | [] => raise ValueError
  | _ =>
      for_each (set_order w _ aws) tt
        (fun _ '(_, url, headers) => emit (Request url headers)) ;;;
      ret (set_order w _
             (map (fun '(name, url, headers) => (name, http_get w url headers)) aws))
  end.

(** [name, r = t.result()] re-raises what the task raised. *)
Definition result (t : string * option response) : M (string * response) :=
  match t with
  | (name, Some r) => ret (name, r)
  | (_, None) => raise ClientError
  end.

(** [await r.json()] *)
Definition json_of (r : response) : M json :=
  match resp_json r with
  | Some j => ret j
  | None => raise ContentError
  end.

(** [args[k]] *)
Definition option_of (args : options) (k : string) : M (option tomlval) :=
  match Dict.get args k with
  | Some v => ret v
  | None => raise KeyError
  end.

(** [try_parse_versions] on values taken from a payload. *)
Definition parse_values (vals : list json) : M (list Version) :=
  strs <- lift (Py.all_str vals) ;;
  ret (try_parse_versions strs).

(** [try_parse_versions([x[field] for x in j if field in x])] *)
Definition field_versions (field : string) (j : json) : M (list Version) :=
  xs <- lift (Py.iter j) ;;
  vals <- for_each xs []
    (fun acc x =>
       present <- lift (Py.contains field x) ;;
       if present : bool
       then v <- lift (Py.getitem x field) ;; ret (acc ++ [v])
       else ret acc) ;;
  parse_values vals.

(** The second loop of [agithub] and [agitlab]. *)
Definition forge_results (field : string)
  (done : list (string * option response)) : M versions :=
  for_each done ([] : versions)
    (fun res t =>
       '(name, r) <- result t ;;
       j <- json_of r ;;
       if Py.truthy_json j then
         vers <- field_versions field j ;;
         match latest vers with
         | Some v => ret (Dict.set res name v)
         | None => ret res
         end
       else ret res).

Definition agithub (args : options) (pkgs : catalog) (type field : string)
  : M versions :=
  arg_github_token <- option_of args "github_token" ;;
  let aws :=
    flat_map
      (fun '(name, pkg) =>
         match Dict.get pkg "github" with
         | Some id_ =>
             if Py.truthy id_ then
               let headers :=
                 match arg_github_token with
                 | Some tok =>
                     if Py.truthy tok
                     then [("Authorization", fmt ["token "; Py.str tok])]
                     else []
                 | None => []
                 end in
               [(name, fmt [github_base; "/"; Py.str id_; "/"; type], headers)]
             else []
         | None => []
         end)
      pkgs in
  done <- wait aws ;;
  forge_results field done.

(** [s.replace("/", "%2F")] *)
Definition quote_slashes (s : string) : string :=
  PyStr.of_chars
    (flat_map (fun c => if Ascii.eqb c "/"%char then PyStr.chars "%2F" else [c])
       (PyStr.chars s)).

Definition agitlab (args : options) (pkgs : catalog) (type field : string)
  : M versions :=
  arg_gitlab_token <- option_of args "gitlab_token" ;;
  aws <- for_each pkgs ([] : list pending)
    (fun aws '(name, pkg) =>
       match Dict.get pkg "gitlab" with
       | Some id_ =>
           if Py.truthy id_ then
             match id_ with
             | TStr s =>
                 let id_ := quote_slashes s in
                 let base :=
                   match Dict.get pkg "url" with
                   | Some b => b
                   | None => TStr gitlab_base
                   end in
                 let headers :=
                   match arg_gitlab_token, base with
                   | Some tok, TStr b =>
                       if Py.truthy tok && String.eqb b github_base
                       then [("Private-Token", fmt ["token "; Py.str tok])]
                       else []
                   | _, _ => []
                   end in
                 ret (aws ++ [(name,
                               fmt [Py.str base; "/api/v4/projects/"; id_; "/"; type],
                               headers)])
             | _ => raise AttributeError
             end
           else ret aws
       | None => ret aws
       end) ;;
  done <- wait aws ;;
  forge_results field done.

Definition aarch (args : options) (pkgs : catalog) : M versions :=
  let aws :=
    map (fun '(name, pkg) =>
           let id_ :=
             match Dict.get pkg "arch" with
             | Some v => v
             | None => TStr name
             end in
           (name, fmt [arch_base; "/?name="; Py.str id_], []))
        pkgs in
  done <- wait aws ;;
  for_each done ([] : versions)
    (fun res t =>
       '(name, r) <- result t ;;
       j <- json_of r ;;
       j <- lift (Py.getitem j "results") ;;
       if Py.truthy_json j then
         first <- lift (Py.getitem0 j) ;;
         pkgver <- lift (Py.getitem first "pkgver") ;;
         vers <- parse_values [pkgver] ;;
         match vers with
         | v :: _ => ret (Dict.set res name v)
         | [] => ret res
         end
       else ret res).

(** [enumerate(l)] *)
Definition enumerate {A} (l : list A) : list (nat * A) :=
  combine (seq 0 (List.length l)) l.

Definition aaur (args : options) (pkgs : catalog) : M versions :=
  let items := pkgs in
  let query :=
    map (fun '(name, pkg) =>
           let id_ :=
             match Dict.get pkg "aur" with
             | Some v => v
             | None => TStr name
             end in
           fmt ["arg[]="; Py.str id_])
        items in
  let query := Py.join_str "&" query in
  let url := fmt [aur_base; "/?v=5&type=info&"; query] in
  emit (Request url []) ;;;
  '(_, r) <- result ("aur", http_get w url []) ;;
  j <- json_of r ;;
  j <- lift (Py.getitem j "results") ;;
  entries <- lift (Py.iter j) ;;
  for_each (enumerate entries) ([] : versions)
    (fun res '(i, v) =>
       if Py.truthy_json v then
         version <- lift (Py.getitem v "Version") ;;
         vers <- parse_values [version] ;;
         match vers with
         | ver :: _ =>
             match nth_error items i with
             | Some (name, _) => ret (Dict.set res name ver)
             | None => raise IndexError
             end
         | [] => ret res
         end
       else ret res).

(** [vers.add(tag)] *)
Definition set_add (tag : string) (s : list string) : list string :=
  if existsb (String.eqb tag) s then s else s ++ [tag].

Definition is_git (primary : option tomlval) : bool :=
  match primary with
  | Some (TStr s) => String.eqb s "git"
  | _ => false
  end.

(** [r.text.splitlines()].  [r] is the response of the aiohttp session, whose
    [text] is a coroutine method: it is not called, [splitlines] is looked up
    on the bound method, and that is an [AttributeError].  The body is not
    read. *)
Definition text_splitlines (r : response) : M (list (list ascii)) :=
  raise AttributeError.

(** The body of the second loop of [agit]: [name] is rebound, and the lines
    of the answer are asked of [r.text]; every tag found would go into the
    one set [vers]. *)
Definition scan_refs (st : option (list string) * option string)
  (t : string * option response) : M (option (list string) * option string) :=
  let '(vers, _) := st in
  '(name, r) <- result t ;;
  lines <- text_splitlines r ;;
  vers <- for_each lines vers
    (fun vers line =>
       match GitRefs.git_get_version line with
       | Some tag =>
           match vers with
           | Some s => ret (Some (set_add (PyStr.of_chars tag) s))
           | None => raise UnboundLocalError
           end
       | None => ret vers
       end) ;;
  ret (vers, Some name).

(** [agit].  The source declares it with a plain [def] although its body
    awaits and [git] runs it as a coroutine; it is modelled as that
    coroutine.  The locals [vers] and [name] are shared by both loops and
    read after them, so they are threaded explicitly; [None] is an unbound
    local. *)
Definition agit (args : options) (pkgs : catalog) : M versions :=
  '(aws, vers, name) <-
    for_each pkgs (([] : list pending), (None : option (list string)),
                   (None : option string))
      (fun '(aws, vers, _) '(name, pkg) =>
         let primary := Dict.get pkg "primary" in
         let base := Dict.get pkg "url" in
         match base with
         | Some b =>
             if Py.truthy b && is_git primary then
               match b with
               | TStr url =>
                   scheme <- lift (GitRefs.urlparse_scheme (PyStr.chars url)) ;;
                   if existsb (GitRefs.chars_eqb scheme)
                        [PyStr.chars "http"; PyStr.chars "https"]
                   then ret (aws ++ [(name,
                                      fmt [url; "/info/refs?service=git-upload-pack"],
                                      [])],
                             Some [], Some name)
                   else ret (aws, Some [], Some name)
               | _ => raise AttributeError
               end
             else ret (aws, vers, Some name)
         | None => ret (aws, vers, Some name)
         end) ;;
  done <- wait aws ;;
  '(vers, name) <- for_each done (vers, name) scan_refs ;;
  match vers with
  | None => raise UnboundLocalError
  | Some s =>
      let vers := try_parse_versions (set_order w _ s) in
      match latest vers, name with
      | Some v, Some name => ret (Dict.set [] name v)
      | Some _, None => raise UnboundLocalError
      | None, _ => ret []
      end
  end.

Inductive source := Github | Gitlab | Aur | Arch | GithubTags | GitlabTags | Git.

(** [x.__name__] and the extra keys of [sources]. *)
Definition source_name (s : source) : string :=
  match s with
  | Github => "github"
  | Gitlab => "gitlab"
  | Aur => "aur"
  | Arch => "arch"
  | GithubTags => "github_tags"
  | GitlabTags => "gitlab_tags"
  | Git => "git"
  end.

Definition sources_list : list source := [Github; Gitlab; Aur; Arch].

Definition sources : Dict.t source :=
  [("github", Github); ("gitlab", Gitlab); ("aur", Aur); ("arch", Arch);
   ("github_tags", GithubTags); ("gitlab_tags", GitlabTags); ("git", Git)].

(** [s(args, pkgs)] *)
Definition call (s : source) (args : options) (pkgs : catalog) : M versions :=
  match s with
  | Github => agithub args pkgs "releases" "tag_name"
  | Gitlab => agitlab args pkgs "releases" "tag_name"
  | Aur => aaur args pkgs
  | Arch => aarch args pkgs
  | GithubTags => agithub args pkgs "tags" "name"
  | GitlabTags => agitlab args pkgs "repository/tags" "name"
  | Git => agit args pkgs
  end.

End Adapters.

(* ------------------------------------------------------------------ *)
(** ** Merge policy *)

Definition update (old new : versions) : versions :=
  fold_left
    (fun res '(k, v) =>
       match Dict.get res k with
       | None => Dict.set res k v
       | Some ov => if VersionOrder.gtb v ov then Dict.set res k v else res
       end)
    new old.

Definition make_serializable (s : versions) : Dict.t string :=
  map (fun '(k, v) => (k, PkgVersion.to_string v)) s.

(* ------------------------------------------------------------------ *)
(** ** Resolution orchestrator *)

Definition nl : string := String (ascii_of_N 10) EmptyString.

Definition eprint (line : string) : M unit := emit (Stderr line).

Definition status {A B} (args : options) (source : string)
  (query : Dict.t A) (new : Dict.t B) (all : nat) : M unit :=
  quiet <- option_of args "quiet" ;;
  if Py.truthy_opt quiet then ret tt
  else
    print_names <- option_of args "print_names" ;;
    let total := PyStr.of_chars (PyStr.str_of_N (N.of_nat all)) in
    if Py.truthy_opt print_names then
      let squery := Py.join_str ", " (Dict.keys query) in
      eprint (fmt ["Asking "; source; " for:"; nl; "    "; squery]) ;;;
      match new with
      | _ :: _ =>
          let snew := Py.join_str ", " (Dict.keys new) in
          eprint (fmt ["found:"; nl; "    "; snew; ", total: "; total; nl])
      | [] => eprint (fmt ["total: "; total; nl])
      end
    else
      eprint (fmt ["Asking "; source; " for "; Py.len_str query;
                   " packages, found "; Py.len_str new; ", total: "; total]).

(** [itertools.groupby]: maximal runs of equal keys. *)
Fixpoint groupby {A} (l : list (string * A)) : list (string * list A) :=
  match l with
  | [] => []
  | (k, a) :: t =>
      match groupby t with
      | (k', g) :: gs =>
          if String.eqb k k' then (k, a :: g) :: gs
          else (k, [a]) :: (k', g) :: gs
      | [] => [(k, [a])]
      end
  end.

Definition str_ltb (a b : string) : bool :=
  match PyOrder.cmp_str a b with Lt => true | _ => false end.

Definition primary_is_str (item : string * pkgspec) : bool :=
  match Dict.get (snd item) "primary" with
  | Some (TStr _) => true
  | _ => false
  end.

(** The sort key [i[1]["primary"]] paired with the item.  Sorting compares
    the keys: a [str] against a number is a [TypeError]; keys that are all
    numbers sort, and the first of them is then missing from [sources]. *)
Definition primary_keys (primary : list (string * pkgspec))
  : M (list (string * (string * pkgspec))) :=
  if forallb primary_is_str primary then
    ret (flat_map
           (fun item =>
              match Dict.get (snd item) "primary" with
              | Some (TStr k) => [(k, item)]
              | _ => []
              end)
           primary)
  else if existsb primary_is_str primary then raise TypeError
  else raise KeyError.

Section Orchestrator.
Variable w : World.

Definition get_primary (args : options) (c : catalog) (vers : versions)
  : M (versions * list string) :=
  let primary := filter (fun '(k, v) => Dict.mem v "primary") c in
  keyed <- primary_keys primary ;;
  let primary := PyOrder.sorted (fun a b => str_ltb (fst a) (fst b)) keyed in
  let primary := groupby primary in
  for_each primary (vers, ([] : list string))
    (fun '(vers, asked) '(k, g) =>
       let x := Dict.of_items g in
       let asked := set_add k asked in
       match Dict.get sources k with
       | None => raise KeyError
       | Some s =>
           emit (Invoke Primary k x) ;;;
           new <- call w s args x ;;
           let vers := update vers new in
           emit (Resolved vers) ;;;
           status args k x new (List.length vers) ;;;
           ret (vers, asked)
       end).

Definition not_in (vers : versions) (c : catalog) : catalog :=
  filter (fun '(k, v) => negb (Dict.mem vers k)) c.

Definition get_secondary_source (args : options) (c : catalog) (s : source)
  (vers : versions) (left : catalog) : M (versions * catalog) :=
  emit (Invoke Secondary (source_name s) left) ;;;
  new <- call w s args left ;;
  let vers := update vers new in
  emit (Resolved vers) ;;;
  status args (source_name s) left new (List.length vers) ;;;
  arg_trust_secondary <- option_of args "trust_secondary" ;;
  if Py.truthy_opt arg_trust_secondary
  then ret (vers, not_in vers c)
  else ret (vers, left).

(** The [for] loop of [run_secondary], with its [break]. *)
Fixpoint secondary_loop (args : options) (c : catalog) (ss : list source)
  (vers : versions) (left : catalog) : M (versions * catalog) :=
  match ss with
  | [] => ret (vers, left)
  | s :: ss' =>
      '(vers, left_) <- get_secondary_source args c s vers left ;;
      match left_ with
      | [] => ret (vers, left_)
      | _ :: _ => secondary_loop args c ss' vers left_
      end
  end.

Definition run_secondary (args : options) (c : catalog) (vers : versions)
  (asked : list string) (left : catalog)
  (l : string -> list string -> bool) : M (versions * catalog) :=
  match left with
  | [] => ret (vers, left)
  | _ :: _ =>
      secondary_loop args c
        (filter (fun x => l (source_name x) asked) sources_list) vers left
  end.

Definition name_in (name : string) (asked : list string) : bool :=
  existsb (String.eqb name) asked.

Definition get_secondary (args : options) (c : catalog) (vers : versions)
  (asked : list string) (left : catalog) : M (versions * catalog) :=
  '(vers, left_) <-
    run_secondary args c vers asked left
      (fun name asked => negb (name_in name asked)) ;;
  run_secondary args c vers asked left_ (fun name asked => name_in name asked).

(** The state of [get_vers] once the primary phase is over. *)
Definition primary_phase (args : options) (c : catalog)
  : M (versions * list string) :=
  arg_primary <- option_of args "primary" ;;
  if Py.truthy_opt arg_primary
  then get_primary args c []
  else ret ([], []).

Definition get_vers (args : options) (c : catalog) : M (versions * string) :=
  arg_primary <- option_of args "primary" ;;
  arg_secondary <- option_of args "secondary" ;;
  arg_trust_primary <- option_of args "trust_primary" ;;
  '(vers, asked) <-
    (if Py.truthy_opt arg_primary
     then get_primary args c []
     else ret ([], [])) ;;
  let left := if Py.truthy_opt arg_trust_primary then not_in vers c else c in
  '(vers, left_) <-
    (match left with
     | _ :: _ =>
         if Py.truthy_opt arg_secondary
         then get_secondary args c vers asked left
         else ret (vers, left)
     | [] => ret (vers, left)
     end) ;;
  let left := Py.join_str ", " (Dict.keys left_) in
  (if String.eqb left "" then ret tt
   else eprint (fmt ["Packages left: "; left])) ;;;
  ret (vers, left).

(* ------------------------------------------------------------------ *)
(** ** Options and the command line *)

Definition defaults : Dict.t tomlval :=
  [("primary", TBool true); ("secondary", TBool true);
   ("trust_primary", TBool true); ("trust_secondary", TBool true);
   ("print_names", TBool false); ("quiet", TBool false)].

Definition read_config (args : options) (config : Dict.t tomlval) : M options :=
  for_each (Dict.keys config) tt
    (fun _ k => if Dict.mem args k then ret tt else raise KeyError) ;;;
  ret (fold_left
         (fun acc '(k, v) =>
            match v with
            | None =>
                Dict.set acc k
                  (match Dict.get config k with
                   | Some x => Some x
                   | None => Dict.get defaults k
                   end)
            | Some _ => acc
            end)
         args args).

(** The keyword arguments click passes: one per declared option, [None]
    when the option is not given. *)
Record flags := mkFlags {
  github_token : option string;
  gitlab_token : option string;
  primary : option bool;
  secondary : option bool;
  trust_primary : option bool;
  trust_secondary : option bool;
  print_names : option bool;
  quiet : option bool
}.

Definition option_names : list string :=
  ["github_token"; "gitlab_token"; "primary"; "secondary"; "trust_primary";
   "trust_secondary"; "print_names"; "quiet"].

Definition kwargs_of (f : flags) : options :=
  [("github_token", option_map TStr (github_token f));
   ("gitlab_token", option_map TStr (gitlab_token f));
   ("primary", option_map TBool (primary f));
   ("secondary", option_map TBool (secondary f));
   ("trust_primary", option_map TBool (trust_primary f));
   ("trust_secondary", option_map TBool (trust_secondary f));
   ("print_names", option_map TBool (print_names f));
   ("quiet", option_map TBool (quiet f))].

(** [cli], from the parsed document on; the value is the exit status. *)
Definition cli (c : Dict.t pkgspec) (kwargs : options) : M nat :=
  let jc :=
    match Dict.get c "johnny_config" with
    | Some t => t
    | None => []
    end in
  kwargs <- read_config kwargs jc ;;
  let c := match jc with _ :: _ => Dict.del c "johnny_config" | [] => c end in
  '(vers, left_) <- get_vers kwargs c ;;
  emit (Stdout (make_serializable vers)) ;;;
  ret (if String.eqb left_ "" then 0 else 1).

End Orchestrator.

(* ================================================================== *)
(** * Properties *)

(* ------------------------------------------------------------------ *)
(** ** Comparisons are total preorders *)

Module OrderFacts.
Import PyOrder.

Class TotalCmp {A : Type} (c : A -> A -> comparison) : Prop := {
  cmp_refl : forall x, c x x = Eq;
  cmp_sym : forall x y, c y x = CompOpp (c x y);
  cmp_trans : forall x y z, c x y <> Gt -> c y z <> Gt -> c x z <> Gt
}.

Section Derived.
Context {A : Type} (c : A -> A -> comparison) `{!TotalCmp c}.

Lemma cmp_flip_gt x y : c x y = Gt -> c y x = Lt.
Proof. intros H. rewrite (cmp_sym x y), H. reflexivity. Qed.

Lemma cmp_flip_lt x y : c x y = Lt -> c y x = Gt.
Proof. intros H. rewrite (cmp_sym x y), H. reflexivity. Qed.

Lemma cmp_flip_eq x y : c x y = Eq -> c y x = Eq.
Proof. intros H. rewrite (cmp_sym x y), H. reflexivity. Qed.

Lemma cmp_eq_l x y z : c x y = Eq -> c x z = c y z.
Proof.
  intros Hxy. pose proof (cmp_flip_eq _ _ Hxy) as Hyx.
  destruct (c y z) eqn:Hyz.
  - destruct (c x z) eqn:Hxz; trivial.
    + exfalso. apply (cmp_trans z y x).
      * rewrite (cmp_flip_eq _ _ Hyz). discriminate.
      * rewrite Hyx. discriminate.
      * apply cmp_flip_lt. exact Hxz.
    + exfalso. apply (cmp_trans x y z); congruence.
  - destruct (c x z) eqn:Hxz; trivial.
    + exfalso. apply (cmp_trans z x y).
      * rewrite (cmp_flip_eq _ _ Hxz). discriminate.
      * rewrite Hxy. discriminate.
      * apply cmp_flip_lt. exact Hyz.
    + exfalso. apply (cmp_trans x y z); congruence.
  - destruct (c x z) eqn:Hxz; trivial.
    + exfalso. apply (cmp_trans y x z); congruence.
    + exfalso. apply (cmp_trans y x z); congruence.
Qed.

Lemma cmp_eq_r x y z : c y z = Eq -> c x y = c x z.
Proof.
  intros Hyz. rewrite (cmp_sym y x), (cmp_sym z x). f_equal.
  symmetry. apply cmp_eq_l. apply cmp_flip_eq. exact Hyz.
Qed.

Lemma cmp_lt_trans x y z : c x y = Lt -> c y z = Lt -> c x z = Lt.
Proof.
  intros Hxy Hyz. destruct (c x z) eqn:Hxz; trivial.
  - rewrite (cmp_eq_l x z y Hxz) in Hxy.
    rewrite (cmp_flip_lt _ _ Hyz) in Hxy. discriminate.
  - exfalso. apply (cmp_trans x y z); congruence.
Qed.

Lemma cmp_gt_trans x y z : c x y = Gt -> c y z = Gt -> c x z = Gt.
Proof.
  intros Hxy Hyz. apply cmp_flip_lt.
  apply (cmp_lt_trans z y x); apply cmp_flip_gt; assumption.
Qed.
End Derived.

#[export] Instance N_total : TotalCmp N.compare.
Proof.
  split.
  - apply N.compare_refl.
  - intros x y. apply N.compare_antisym.
  - intros x y z. apply N.le_trans.
Qed.

(** A comparison through a key function. *)
Lemma total_on {A B} (f : A -> B) (c : B -> B -> comparison) :
  TotalCmp c -> TotalCmp (fun x y => c (f x) (f y)).
Proof.
  intros H. split; intros.
  - apply cmp_refl.
  - apply cmp_sym.
  - eapply cmp_trans; eassumption.
Qed.

#[export] Instance ext_total {A} (c : A -> A -> comparison) :
  TotalCmp c -> TotalCmp (cmp_ext c).
Proof.
  intros H. split.
  - intros [| a |]; simpl; trivial. apply cmp_refl.
  - intros [| a |] [| b |]; simpl; trivial. apply cmp_sym.
  - intros [| a |] [| b |] [| d |]; simpl; try congruence.
    apply cmp_trans.
Qed.

#[export] Instance pair_total {A B} (ca : A -> A -> comparison)
  (cb : B -> B -> comparison) :
  TotalCmp ca -> TotalCmp cb -> TotalCmp (cmp_pair ca cb).
Proof.
  intros Ha Hb. split.
  - intros [a b]. unfold cmp_pair; simpl. rewrite cmp_refl. apply cmp_refl.
  - intros [a b] [a' b']. unfold cmp_pair; simpl.
    rewrite (cmp_sym a a'). destruct (ca a a'); simpl; trivial. apply cmp_sym.
  - intros [a1 b1] [a2 b2] [a3 b3]. unfold cmp_pair; simpl.
    destruct (ca a1 a2) eqn:H12.
    + rewrite (cmp_eq_l ca a1 a2 a3 H12).
      destruct (ca a2 a3); try congruence. apply cmp_trans.
    + destruct (ca a2 a3) eqn:H23.
      * rewrite <- (cmp_eq_r ca a1 a2 a3 H23), H12. congruence.
      * rewrite (cmp_lt_trans ca a1 a2 a3 H12 H23). congruence.
      * congruence.
    + congruence.
Qed.

#[export] Instance list_total {A} (c : A -> A -> comparison) :
  TotalCmp c -> TotalCmp (cmp_list c).
Proof.
  intros H. split.
  - induction x as [| a t IH]; simpl; trivial. rewrite cmp_refl. exact IH.
  - induction x as [| a t IH]; intros [| b u]; simpl; trivial.
    rewrite (cmp_sym a b). destruct (c a b); simpl; trivial.
  - induction x as [| a1 t1 IH]; intros [| a2 t2] [| a3 t3]; simpl;
      try congruence.
    destruct (c a1 a2) eqn:H12.
    + rewrite (cmp_eq_l c a1 a2 a3 H12).
      destruct (c a2 a3); try congruence. apply IH.
    + destruct (c a2 a3) eqn:H23.
      * rewrite <- (cmp_eq_r c a1 a2 a3 H23), H12. congruence.
      * rewrite (cmp_lt_trans c a1 a2 a3 H12 H23). congruence.
      * congruence.
    + congruence.
Qed.

#[export] Instance chars_total : TotalCmp cmp_chars.
Proof.
  unfold cmp_chars.
  apply (total_on (map PyStr.code) (cmp_list N.compare)). typeclasses eauto.
Qed.

#[export] Instance str_total : TotalCmp cmp_str.
Proof. unfold cmp_str. apply (total_on PyStr.chars cmp_chars). typeclasses eauto. Qed.

End OrderFacts.

Module VersionFacts.
Import OrderFacts VersionOrder.

#[export] Instance key_total : TotalCmp cmp_key.
Proof. unfold cmp_key, cmp_letter_key. typeclasses eauto. Qed.

#[export] Instance version_total : TotalCmp compare.
Proof. unfold compare. apply (total_on cmpkey cmp_key). typeclasses eauto. Qed.

Lemma le_refl v : le v v.
Proof. unfold le, leb. rewrite (cmp_refl (c := compare)). reflexivity. Qed.

Lemma le_trans a b c : le a b -> le b c -> le a c.
Proof.
  unfold le, leb. intros H1 H2.
  pose proof (cmp_trans (c := compare) a b c) as T.
  destruct (compare a b); destruct (compare b c); destruct (compare a c);
    try discriminate; trivial; exfalso; apply T; congruence.
Qed.

Lemma le_total a b : le a b \/ le b a.
Proof.
  unfold le, leb. rewrite (cmp_sym (c := compare) a b).
  destruct (compare a b); simpl; auto.
Qed.

Lemma gtb_le a b : gtb a b = true -> le b a.
Proof.
  unfold gtb, le, leb. rewrite (cmp_sym (c := compare) a b).
  destruct (compare a b); simpl; congruence.
Qed.

Lemma not_gtb_le a b : gtb a b = false -> le a b.
Proof. unfold gtb, le, leb. destruct (compare a b); congruence. Qed.

Lemma not_ltb_le a b : ltb a b = false -> le b a.
Proof.
  unfold ltb, le, leb. rewrite (cmp_sym (c := compare) a b).
  destruct (compare a b); simpl; congruence.
Qed.

Lemma ltb_le a b : ltb a b = true -> le a b.
Proof. unfold ltb, le, leb. destruct (compare a b); congruence. Qed.

Lemma ltb_not_le a b : ltb a b = true -> ~ le b a.
Proof.
  unfold ltb, le, leb. rewrite (cmp_sym (c := compare) a b).
  destruct (compare a b); simpl; congruence.
Qed.

End VersionFacts.

(* ------------------------------------------------------------------ *)
(** ** Sorting *)

Module SortFacts.
Import PyOrder.

Section Generic.
Context {A : Type} (lt : A -> A -> bool).

(** [a <= b] as the sort sees it: not [b < a]. *)
Definition le_of (a b : A) : Prop := lt b a = false.

Hypothesis lt_asym : forall a b, lt a b = true -> lt b a = false.
Hypothesis le_trans : forall a b c, le_of a b -> le_of b c -> le_of a c.

Lemma insert_perm x l : Permutation (insert lt x l) (x :: l).
Proof.
  induction l as [| y t IH]; simpl.
  - reflexivity.
  - destruct (lt x y).
    + reflexivity.
    + rewrite IH. apply perm_swap.
Qed.

Lemma fold_insert_perm l acc :
  Permutation (fold_left (fun acc x => insert lt x acc) l acc) (acc ++ l).
Proof.
  revert acc. induction l as [| x t IH]; intros acc; simpl.
  - rewrite app_nil_r. reflexivity.
  - rewrite IH, insert_perm. apply Permutation_middle.
Qed.

Lemma sorted_perm l : Permutation (sorted lt l) l.
Proof. unfold sorted. rewrite fold_insert_perm. reflexivity. Qed.

Lemma insert_sorted x l :
  StronglySorted le_of l -> StronglySorted le_of (insert lt x l).
Proof.
  induction 1 as [| y t Hs IH Hall]; simpl.
  - constructor; constructor.
  - destruct (lt x y) eqn:E.
    + constructor.
      * constructor; assumption.
      * constructor.
        -- apply lt_asym. exact E.
        -- eapply Forall_impl; [| exact Hall].
           intros z Hz. eapply le_trans; [| exact Hz]. apply lt_asym. exact E.
    + constructor.
      * exact IH.
      * apply (Permutation_Forall (Permutation_sym (insert_perm x t))).
        constructor; assumption.
Qed.

Lemma fold_insert_sorted l acc :
  StronglySorted le_of acc ->
  StronglySorted le_of (fold_left (fun acc x => insert lt x acc) l acc).
Proof.
  revert acc. induction l as [| x t IH]; intros acc H; simpl.
  - exact H.
  - apply IH. apply insert_sorted. exact H.
Qed.

Lemma sorted_sorted l : StronglySorted le_of (sorted lt l).
Proof. apply fold_insert_sorted. constructor. Qed.

(** The last element of a sorted list bounds every element. *)
Lemma sorted_last_max (le_refl : forall a, le_of a a) l d :
  StronglySorted le_of l -> forall x, In x l -> le_of x (last l d).
Proof.
  induction 1 as [| y t Hs IH Hall]; intros x Hin.
  - destruct Hin.
  - destruct t as [| z t'].
    + destruct Hin as [-> | []]. apply le_refl.
    + change (last (y :: z :: t') d) with (last (z :: t') d).
      destruct Hin as [-> | Hin].
      * rewrite Forall_forall in Hall. apply Hall.
        destruct (exists_last (l := z :: t')) as [l' [a E]]; [discriminate |].
        rewrite E, last_last. apply in_or_app. right. left. reflexivity.
      * apply IH. exact Hin.
Qed.
End Generic.

End SortFacts.

(* ------------------------------------------------------------------ *)
(** ** Re-parsing a base version *)

Module ParserFacts.
Import PyStr PkgVersion.

Lemma chars_of_chars l : chars (of_chars l) = l.
Proof. apply list_ascii_of_string_of_list_ascii. Qed.

Lemma of_chars_chars s : of_chars (chars s) = s.
Proof. apply string_of_list_ascii_of_string. Qed.

Ltac ascii_cases c :=
  destruct c as [b0 b1 b2 b3 b4 b5 b6 b7];
  destruct b0, b1, b2, b3, b4, b5, b6, b7;
  try reflexivity; try discriminate.

Lemma digit_not_space c : is_digit c = true -> is_space c = false.
Proof. ascii_cases c. Qed.

Lemma digit_not_v c : is_digit c = true -> eqb_ci c "v"%char = false.
Proof. ascii_cases c. Qed.

Lemma digit_not_dot c : is_digit c = true -> Ascii.eqb c "."%char = false.
Proof. ascii_cases c. Qed.

Lemma uint_digits (d : Decimal.uint) :
  forallb is_digit (chars (NilEmpty.string_of_uint d)) = true.
Proof. induction d; simpl; trivial. Qed.

Lemma str_of_N_digits n : forallb is_digit (str_of_N n) = true.
Proof. apply uint_digits. Qed.

Lemma int_of_str_of_N n : int_of_digits (str_of_N n) = n.
Proof.
  unfold int_of_digits, str_of_N. rewrite of_chars_chars, NilEmpty.usu.
  apply DecimalN.Unsigned.of_to.
Qed.

Lemma str_of_N_nonempty n : str_of_N n <> [].
Proof.
  intros E. pose proof (int_of_str_of_N n) as H. rewrite E in H.
  cbn in H. subst n. discriminate E.
Qed.

(** A decimal numeral starts with a digit. *)
Lemma str_of_N_head n :
  exists d ds, str_of_N n = d :: ds /\ is_digit d = true /\ forallb is_digit ds = true.
Proof.
  pose proof (str_of_N_digits n) as H. pose proof (str_of_N_nonempty n) as Hne.
  destruct (str_of_N n) as [| d ds]; [congruence |].
  simpl in H. apply andb_true_iff in H. destruct H. eauto.
Qed.

Definition stops (rest : list ascii) : Prop :=
  match rest with
  | [] => True
  | c :: _ => is_digit c = false
  end.

Lemma span_digits_app ds rest :
  forallb is_digit ds = true -> stops rest ->
  span is_digit (ds ++ rest) = (ds, rest).
Proof.
  induction ds as [| d t IH]; simpl; intros H Hs.
  - destruct rest as [| c r]; simpl in *; trivial. rewrite Hs. reflexivity.
  - apply andb_true_iff in H. destruct H as [Hd Ht].
    rewrite Hd, (IH Ht Hs). reflexivity.
Qed.

Lemma release_from_digits ds cur acc rest :
  forallb is_digit ds = true ->
  release_from cur acc (ds ++ rest) = release_from (rev ds ++ cur) acc rest.
Proof.
  revert cur. induction ds as [| d t IH]; intros cur H; simpl.
  - reflexivity.
  - simpl in H. apply andb_true_iff in H. destruct H as [Hd Ht].
    rewrite Hd, (IH _ Ht), <- app_assoc. reflexivity.
Qed.

(** What follows the first segment of a rendered release. *)
Definition more (r : list N) : list ascii :=
  match r with
  | [] => []
  | _ :: _ => "."%char :: join ["."%char] (map str_of_N r)
  end.

Lemma join_cons n r :
  join ["."%char] (map str_of_N (n :: r)) = str_of_N n ++ more r.
Proof. destruct r; simpl; [rewrite app_nil_r |]; reflexivity. Qed.

Lemma release_from_more r n acc :
  release_from (rev (str_of_N n)) acc (more r) = (rev acc ++ n :: r, []).
Proof.
  revert n acc. induction r as [| m r IH]; intros n acc.
  - simpl. rewrite rev_involutive, int_of_str_of_N. reflexivity.
  - unfold more. rewrite join_cons.
    destruct (str_of_N_head m) as [d [ds [E [Hd Hds]]]].
    rewrite E. cbn [release_from app].
    change (is_digit "."%char) with false. cbn [Ascii.eqb Bool.eqb andb].
    rewrite Hd, rev_involutive, int_of_str_of_N.
    rewrite (release_from_digits ds [d] (n :: acc) (more r) Hds).
    change (rev ds ++ [d]) with (rev (d :: ds)).
    rewrite <- E, IH. simpl. rewrite <- app_assoc. reflexivity.
Qed.

Lemma parse_release_join n r :
  parse_release (join ["."%char] (map str_of_N (n :: r))) = Some (n :: r, []).
Proof.
  rewrite join_cons. destruct (str_of_N_head n) as [d [ds [E [Hd Hds]]]].
  rewrite E. cbn [parse_release app]. rewrite Hd.
  rewrite (release_from_digits ds [d] [] (more r) Hds).
  change (rev ds ++ [d]) with (rev (d :: ds)). rewrite <- E.
  rewrite release_from_more. reflexivity.
Qed.

Lemma stops_more r : stops (more r).
Proof. destruct r; simpl; trivial. Qed.

Lemma parse_epoch_release_base e n r :
  parse_epoch_release
    ((if (e =? 0)%N then [] else str_of_N e ++ ["!"%char])
     ++ join ["."%char] (map str_of_N (n :: r)))
  = Some (e, n :: r, []).
Proof.
  unfold parse_epoch_release. destruct (e =? 0)%N eqn:E0.
  - apply N.eqb_eq in E0. subst e. cbn [app].
    rewrite parse_release_join. rewrite join_cons.
    rewrite (span_digits_app _ _ (str_of_N_digits n) (stops_more r)).
    destruct (str_of_N n); [reflexivity |].
    destruct r; reflexivity.
  - rewrite <- app_assoc. cbn [app].
    rewrite (span_digits_app (str_of_N e) ("!"%char :: _) (str_of_N_digits e));
      [| reflexivity].
    destruct (str_of_N e) eqn:Ee; [destruct (str_of_N_nonempty e Ee) |].
    rewrite parse_release_join, <- Ee, int_of_str_of_N. reflexivity.
Qed.

(** The release-only record: what [base_version] keeps. *)
Definition base (v : Version) : Version :=
  mkVersion (epoch v) (release v) None None None None.

Lemma base_chars_head e n r :
  exists d t,
    (if (e =? 0)%N then [] else str_of_N e ++ ["!"%char])
    ++ join ["."%char] (map str_of_N (n :: r)) = d :: t
    /\ is_digit d = true.
Proof.
  destruct (e =? 0)%N.
  - destruct (str_of_N_head n) as [d [ds [E [Hd _]]]].
    rewrite join_cons, E. simpl. eauto.
  - destruct (str_of_N_head e) as [d [ds [E [Hd _]]]].
    rewrite E. simpl. eauto.
Qed.

Lemma parse_base_chars v :
  release v <> [] -> parse_chars (base_chars v) = Some (base v).
Proof.
  destruct v as [e r p po d lo]. simpl. intros Hr.
  destruct r as [| n r]; [congruence |].
  unfold parse_chars, base_chars. cbn [epoch release].
  destruct (base_chars_head e n r) as [c [t [E Hc]]].
  assert (Hskip : opt_v (drop_while is_space (c :: t)) = c :: t).
  { cbn [drop_while]. rewrite (digit_not_space c Hc). cbn [opt_v].
    rewrite (digit_not_v c Hc). reflexivity. }
  rewrite E, Hskip, <- E, parse_epoch_release_base. reflexivity.
Qed.

Lemma release_from_nonempty l cur acc : fst (release_from cur acc l) <> [].
Proof.
  revert cur acc. induction l as [| c t IH]; intros cur acc; cbn [release_from].
  - simpl. intros E. apply app_eq_nil in E. destruct E; discriminate.
  - assert (H : forall a, rev (a :: acc) <> []).
    { intros a E. simpl in E. apply app_eq_nil in E. destruct E; discriminate. }
    destruct (is_digit c); [apply IH |].
    destruct (Ascii.eqb c "."%char); [| apply H].
    destruct t as [| d t']; [apply H |].
    destruct (is_digit d); [apply IH | apply H].
Qed.

Lemma parse_release_nonempty l r l' : parse_release l = Some (r, l') -> r <> [].
Proof.
  destruct l as [| c t]; simpl; [discriminate |].
  destruct (is_digit c); [| discriminate].
  intros E. injection E as E. pose proof (release_from_nonempty t [c] []) as H.
  rewrite E in H. exact H.
Qed.

Lemma parse_chars_release s v : parse_chars s = Some v -> release v <> [].
Proof.
  unfold parse_chars.
  destruct (parse_epoch_release _) as [[[e r] l1] |] eqn:E; [| discriminate].
  destruct (parse_pre l1) as [p l2]. destruct (parse_post l2) as [po l3].
  destruct (parse_dev l3) as [d l4]. destruct (parse_local l4) as [lo l5].
  destruct (forallb is_space l5); [| discriminate].
  intros H. injection H as <-. cbn [release].
  unfold parse_epoch_release in E.
  assert (Hw : forall x,
             match parse_release x with
             | Some (r0, l') => Some (0%N, r0, l')
             | None => None
             end = Some (e, r, l1) -> r <> []).
  { intros x Hx. destruct (parse_release x) as [[r0 l'] |] eqn:Ex; [| discriminate].
    injection Hx as _ <- _. eapply parse_release_nonempty. exact Ex. }
  destruct (span is_digit _) as [ds rest].
  destruct ds as [| d0 ds]; [eapply Hw; exact E |].
  destruct rest as [| c rest]; [eapply Hw; exact E |].
  destruct (Ascii.eqb_spec c "!"%char) as [-> | Hne].
  - destruct (parse_release rest) as [[r0 l'] |] eqn:Er.
    + injection E as _ <- _. eapply parse_release_nonempty. exact Er.
    + eapply Hw. exact E.
  - revert E. ascii_cases c; intros E; try (eapply Hw; exact E).
    congruence.
Qed.

(** The second parse in [try_parse_versions] never falls back. *)
Lemma reparse_base_version s v :
  parse s = Some v -> parse (base_version v) = Some (base v).
Proof.
  unfold parse, base_version. intros H. rewrite chars_of_chars.
  apply parse_base_chars. eapply parse_chars_release. exact H.
Qed.

Lemma parse_one_spec ver :
  parse_one ver =
  option_map base (parse (of_chars (strip_char "v"%char (chars ver)))).
Proof.
  unfold parse_one. destruct (parse _) eqn:E; simpl; trivial.
  eapply reparse_base_version. exact E.
Qed.

End ParserFacts.

(* ------------------------------------------------------------------ *)
(** ** The version parser *)

Module ParserClaims.
Import PyStr PkgVersion ParserFacts OrderFacts VersionFacts.

(** The records the parser is specified to return, in input order: each raw
    string that parses, reduced to its release-only form. *)
Definition normalized_records (raws : list string) : list Version :=
  flat_map
    (fun raw =>
       match parse (of_chars (strip_char "v"%char (chars raw))) with
       | Some v => [base v]
       | None => []
       end)
    raws.

(** A release-only version. *)
Definition rel (r : list N) : Version := mkVersion 0 r None None None None.

Lemma collected versions acc :
  fold_left
    (fun res ver =>
       match parse_one ver with
       | Some v => res ++ [v]
       | None => res
       end)
    versions acc
  = acc ++ normalized_records versions.
Proof.
  revert acc. induction versions as [| s t IH]; intros acc; simpl.
  - rewrite app_nil_r. reflexivity.
  - rewrite IH, parse_one_spec. destruct (parse _); simpl.
    + rewrite <- app_assoc. reflexivity.
    + reflexivity.
Qed.

Lemma ltb_asym a b : VersionOrder.ltb a b = true -> VersionOrder.ltb b a = false.
Proof.
  unfold VersionOrder.ltb.
  rewrite (OrderFacts.cmp_sym (c := VersionOrder.compare) a b).
  destruct (VersionOrder.compare a b); simpl; congruence.
Qed.

Lemma le_of_ltb a b :
  SortFacts.le_of VersionOrder.ltb a b <-> VersionOrder.le a b.
Proof.
  unfold SortFacts.le_of, VersionOrder.le, VersionOrder.leb, VersionOrder.ltb.
  rewrite (OrderFacts.cmp_sym (c := VersionOrder.compare) a b).
  destruct (VersionOrder.compare a b); simpl; split; congruence.
Qed.

Lemma le_of_trans a b c :
  SortFacts.le_of VersionOrder.ltb a b -> SortFacts.le_of VersionOrder.ltb b c ->
  SortFacts.le_of VersionOrder.ltb a c.
Proof. rewrite !le_of_ltb. apply VersionFacts.le_trans. Qed.



Lemma last_cons {A} (t : list A) (a b : A) : last (b :: t) a = last t b.
Proof.
  revert a b. induction t as [| c t IH]; intros a b; [reflexivity |].
  change (last (b :: c :: t) a) with (last (c :: t) a).
  change (last (c :: t) b) with (last (c :: t) b).
  rewrite (IH a c), (IH b c). reflexivity.
Qed.

Lemma last_in {A} (t : list A) (b : A) : In (last t b) (b :: t).
Proof.
  revert b. induction t as [| c t IH]; intros b; [left; reflexivity |].
  rewrite last_cons. right. apply IH.
Qed.



Lemma prerelease_below v :
  pre v <> None -> VersionOrder.lt v (base v).
Proof.
  intros Hp. unfold VersionOrder.lt, VersionOrder.ltb, VersionOrder.compare,
    VersionOrder.cmp_key, VersionOrder.cmpkey, PyOrder.cmp_pair.
  destruct v as [e r p po d lo]. cbn [epoch release pre post dev local base fst snd].
  rewrite N.compare_refl.
  rewrite (OrderFacts.cmp_refl (c := PyOrder.cmp_list N.compare)).
  destruct p as [[p n] |]; [reflexivity | exfalso; apply Hp; reflexivity].
Qed.

(** C6, as the code has it.  A parsed pre-release sorts strictly below its
    release, but normalization keeps the epoch and the release segments only:
    pre-release, post-release, dev and local segments are all dropped.  So
    every raw string that parses normalizes to its release-only record, and
    two raw strings with the same epoch and release normalize to the same
    record, whatever qualifiers they carry. *)
Theorem normalization_keeps_release_only :
  forall (raw : string) (v : Version),
    parse (of_chars (strip_char "v"%char (chars raw))) = Some v ->
    parse_one raw = Some (base v)
    /\ (pre v <> None -> VersionOrder.lt v (base v))
    /\ (forall raw' v',
          parse (of_chars (strip_char "v"%char (chars raw'))) = Some v' ->
          epoch v' = epoch v -> release v' = release v ->
          parse_one raw' = parse_one raw
          /\ try_parse_versions [raw'] = try_parse_versions [raw]).
Proof.
  intros raw v H. assert (E : parse_one raw = Some (base v)).
  { rewrite parse_one_spec, H. reflexivity. }
  split; [exact E |]. split; [apply prerelease_below |].
  intros raw' v' H' He Hr.
  assert (E' : parse_one raw' = parse_one raw).
  { rewrite E, parse_one_spec, H'. unfold base. simpl. rewrite He, Hr. reflexivity. }
  split; [exact E' |].
  unfold try_parse_versions. simpl. rewrite E'. reflexivity.
Qed.

Lemma normalization_keeps_release_only_witness :
  parse_one "1.2.3rc1" = Some (rel [1; 2; 3]%N)
  /\ parse_one "1.2.3" = parse_one "1.2.3rc1".
Proof.
  pose (v := mkVersion 0 [1; 2; 3]%N (Some (PreRC, 1%N)) None None None).
  assert (H : parse (of_chars (strip_char "v"%char (chars "1.2.3rc1"))) = Some v)
    by reflexivity.
  destruct (normalization_keeps_release_only "1.2.3rc1" v H) as [E [_ Hsame]].
  split; [exact E |].
  apply (Hsame "1.2.3" (rel [1; 2; 3]%N)); reflexivity.
Defined.

(** C6 as stated fails: after normalization ["1.2.3rc1"] is not strictly
    below ["1.2.3"]; the two are the same record. *)
Lemma prerelease_equal_after_normalization :
  exists a b,
    parse_one "1.2.3rc1" = Some a /\ parse_one "1.2.3" = Some b
    /\ VersionOrder.ltb a b = false
    /\ VersionOrder.compare a b = Eq
    /\ a = b.
Proof.
  exists (rel [1; 2; 3]%N), (rel [1; 2; 3]%N). repeat split; reflexivity.
Qed.

End ParserClaims.

(* ------------------------------------------------------------------ *)
(** ** Dicts *)

Module DictFacts.
Section Facts.
Context {V : Type}.
Implicit Types (d : Dict.t V) (k : string) (v : V).

Lemma get_set_eq d k v : Dict.get (Dict.set d k v) k = Some v.
Proof.
  induction d as [| [k' v'] r IH]; simpl.
  - rewrite String.eqb_refl. reflexivity.
  - destruct (String.eqb k' k) eqn:E; simpl; rewrite E; trivial.
Qed.

Lemma get_set_neq d k v k' : k <> k' -> Dict.get (Dict.set d k v) k' = Dict.get d k'.
Proof.
  intros Hne. induction d as [| [k0 v0] r IH]; simpl.
  - destruct (String.eqb_spec k k'); [contradiction | reflexivity].
  - destruct (String.eqb_spec k0 k) as [-> | Hk]; simpl.
    + destruct (String.eqb_spec k k'); [contradiction | reflexivity].
    + rewrite IH. reflexivity.
Qed.

Lemma get_in_keys d k v : Dict.get d k = Some v -> In k (Dict.keys d).
Proof.
  induction d as [| [k' v'] r IH]; simpl; [discriminate |].
  destruct (String.eqb_spec k' k); auto.
Qed.

Lemma get_in d k v : Dict.get d k = Some v -> In (k, v) d.
Proof.
  induction d as [| [k' v'] r IH]; simpl; [discriminate |].
  destruct (String.eqb_spec k' k) as [-> | Hne]; intros H.
  - injection H as ->. left. reflexivity.
  - right. apply IH. exact H.
Qed.

Lemma get_none d k : ~ In k (Dict.keys d) -> Dict.get d k = None.
Proof.
  induction d as [| [k' v'] r IH]; simpl; trivial.
  intros H. destruct (String.eqb_spec k' k) as [-> | Hne].
  - exfalso. apply H. left. reflexivity.
  - apply IH. intros Hin. apply H. right. exact Hin.
Qed.

Lemma in_keys_get d k : In k (Dict.keys d) -> exists v, Dict.get d k = Some v.
Proof.
  induction d as [| [k' v'] r IH]; simpl; [intros [] |].
  intros H. destruct (String.eqb_spec k' k) as [-> | Hne]; [eauto |].
  destruct H as [H | H]; [contradiction | auto].
Qed.

Lemma mem_in_keys d k : Dict.mem d k = true <-> In k (Dict.keys d).
Proof.
  unfold Dict.mem. split.
  - destruct (Dict.get d k) eqn:E; [| discriminate].
    intros _. eapply get_in_keys. exact E.
  - intros H. destruct (in_keys_get d k H) as [v ->]. reflexivity.
Qed.

Lemma keys_set d k v k' :
  In k' (Dict.keys (Dict.set d k v)) -> k' = k \/ In k' (Dict.keys d).
Proof.
  induction d as [| [k0 v0] r IH]; simpl.
  - intros [<- | []]. left. reflexivity.
  - destruct (String.eqb_spec k0 k) as [-> | Hne]; simpl.
    + intros [<- | H]; auto.
    + intros [<- | H]; auto. destruct (IH H); auto.
Qed.

Lemma keys_set_incl d k v (names : list string) :
  incl (Dict.keys d) names -> In k names ->
  incl (Dict.keys (Dict.set d k v)) names.
Proof.
  intros Hd Hk k' H. destruct (keys_set _ _ _ _ H) as [-> | H']; auto.
Qed.

Lemma keys_set_mono d k v k' :
  In k' (Dict.keys d) -> In k' (Dict.keys (Dict.set d k v)).
Proof.
  induction d as [| [k0 v0] r IH]; simpl; [intros [] |].
  destruct (String.eqb_spec k0 k) as [-> | Hne]; simpl; intros [H | H]; auto.
Qed.

Lemma keys_of_items (items : list (string * V)) :
  incl (Dict.keys (Dict.of_items items)) (map fst items).
Proof.
  unfold Dict.of_items.
  assert (G : forall acc : Dict.t V,
             incl (Dict.keys
                     (fold_left (fun d kv => Dict.set d (fst kv) (snd kv)) items acc))
                  (Dict.keys acc ++ map fst items)).
  { induction items as [| [k v] t IH]; intros acc; simpl.
    - rewrite app_nil_r. apply incl_refl.
    - intros k' H. apply IH in H. apply in_app_or in H.
      apply in_or_app. destruct H as [H | H]; [| right; right; exact H].
      destruct (keys_set _ _ _ _ H) as [-> | H']; [right; left | left]; trivial. }
  apply (G []).
Qed.
End Facts.
End DictFacts.

(* ------------------------------------------------------------------ *)
(** ** Reasoning about computations

    [hoare E Q m]: every event [m] emits satisfies [E], and if [m] returns,
    the value satisfies [Q]. *)

Module Hoare.

Definition hoare {A} (E : event -> Prop) (Q : A -> Prop) (m : M A) : Prop :=
  Forall E (trace m) /\ forall a, outcome m = inr a -> Q a.

Lemma hoare_ret {A} E (Q : A -> Prop) a : Q a -> hoare E Q (ret a).
Proof.
  intros H. split; [constructor |]. simpl. intros b Hb. injection Hb as <-. exact H.
Qed.

Lemma hoare_raise {A} E (Q : A -> Prop) e : hoare E Q (raise e).
Proof. split; [constructor | discriminate]. Qed.

Lemma hoare_lift {A} E (Q : A -> Prop) (r : exn + A) :
  (forall a, r = inr a -> Q a) -> hoare E Q (lift r).
Proof. intros H. split; [constructor | exact H]. Qed.

Lemma hoare_emit E (Q : unit -> Prop) e : E e -> Q tt -> hoare E Q (emit e).
Proof.
  intros He HQ. split; [repeat constructor; exact He |]. intros []. trivial.
Qed.

Lemma hoare_bind {A B} E (R : A -> Prop) (Q : B -> Prop) (m : M A) (f : A -> M B) :
  hoare E R m -> (forall a, R a -> hoare E Q (f a)) -> hoare E Q (bind m f).
Proof.
  intros [Ht Ho] Hf. destruct m as [[e | a] log]; simpl in *.
  - split; [exact Ht | discriminate].
  - specialize (Hf a (Ho a eq_refl)). destruct (f a) as [r log'].
    destruct Hf as [Ht' Ho']. simpl in *. split.
    + apply Forall_app. split; assumption.
    + exact Ho'.
Qed.

Lemma hoare_conseq {A} (E E' : event -> Prop) (Q Q' : A -> Prop) (m : M A) :
  hoare E Q m -> (forall e, E e -> E' e) -> (forall a, Q a -> Q' a) ->
  hoare E' Q' m.
Proof.
  intros [Ht Ho] HE HQ. split.
  - eapply Forall_impl; [exact HE | exact Ht].
  - intros a Ha. apply HQ. apply Ho. exact Ha.
Qed.

Lemma hoare_for_each {A S} E (I : S -> Prop) (l : list A) (s : S)
  (body : S -> A -> M S) :
  I s ->
  (forall s a, In a l -> I s -> hoare E I (body s a)) ->
  hoare E I (for_each l s body).
Proof.
  revert s. induction l as [| a t IH]; intros s Hs Hbody; simpl.
  - apply hoare_ret. exact Hs.
  - eapply hoare_bind.
    + apply Hbody; [left; reflexivity | exact Hs].
    + intros s' Hs'. apply IH; [exact Hs' |].
      intros s0 a0 Hin. apply Hbody. right. exact Hin.
Qed.

(** Inversion of a [bind] that returned. *)
Lemma bind_inr {A B} (m : M A) (f : A -> M B) b :
  outcome (bind m f) = inr b ->
  exists a, outcome m = inr a /\ outcome (f a) = inr b
            /\ trace (bind m f) = trace m ++ trace (f a).
Proof.
  destruct m as [[e | a] log]; simpl; [discriminate |].
  destruct (f a) as [r log'] eqn:E. simpl. intros ->.
  exists a. rewrite E. auto.
Qed.

Lemma bind_run {A B} (m : M A) (f : A -> M B) a :
  outcome m = inr a ->
  outcome (bind m f) = outcome (f a)
  /\ trace (bind m f) = trace m ++ trace (f a).
Proof.
  destruct m as [[e | a'] log]; simpl; [discriminate |].
  intros H. injection H as ->. destruct (f a); auto.
Qed.

Lemma bind_fail {A B} (m : M A) (f : A -> M B) e :
  outcome m = inl e -> bind m f = (inl e, trace m).
Proof. destruct m as [[e' | a] log]; simpl; [congruence | discriminate]. Qed.

Lemma outcome_bind {A B} (m : M A) (f : A -> M B) :
  outcome (bind m f) =
  match outcome m with
  | inl e => inl e
  | inr a => outcome (f a)
  end.
Proof. destruct m as [[e | a] log]; simpl; trivial. destruct (f a); trivial. Qed.

(** A computation that emits nothing has an empty trace. *)
Lemma silent_trace {A} (m : M A) :
  hoare (fun _ => False) (fun _ => True) m -> trace m = [].
Proof.
  intros [H _]. destruct (trace m) as [| e t]; trivial.
  inversion H; contradiction.
Qed.

Lemma for_each_unit {A} (l : list A) (body : unit -> A -> M unit) :
  (forall a, outcome (body tt a) = inr tt) ->
  outcome (for_each l tt body) = inr tt.
Proof.
  intros H. induction l as [| a t IH]; simpl; trivial.
  rewrite outcome_bind, H. exact IH.
Qed.

(** A postcondition may record that the computation returned the value. *)
Lemma hoare_outcome {A} E (Q : A -> Prop) (m : M A) :
  hoare E Q m -> hoare E (fun a => Q a /\ outcome m = inr a) m.
Proof. intros [Ht Ho]. split; [exact Ht |]. intros a Ha. split; auto. Qed.

Lemma bind_emit {B} (e : event) (f : unit -> M B) :
  bind (emit e) f = (outcome (f tt), e :: trace (f tt)).
Proof. unfold bind, emit. destruct (f tt). reflexivity. Qed.

Lemma bind_ret_l {A B} (a : A) (f : A -> M B) : bind (ret a) f = f a.
Proof. unfold bind, ret. destruct (f a). reflexivity. Qed.

End Hoare.

(* ------------------------------------------------------------------ *)
(** ** The merge policy *)

Module MergeFacts.
Import DictFacts VersionFacts.

(** One iteration of the loop of [update]. *)
Definition merge1 (res : versions) (kv : string * Version) : versions :=
  let '(k, v) := kv in
  match Dict.get res k with
  | None => Dict.set res k v
  | Some ov => if VersionOrder.gtb v ov then Dict.set res k v else res
  end.

Lemma update_fold old new : update old new = fold_left merge1 new old.
Proof. reflexivity. Qed.

Lemma update_cons old kv new : update old (kv :: new) = update (merge1 old kv) new.
Proof. reflexivity. Qed.

Lemma merge1_other res k v k' :
  k <> k' -> Dict.get (merge1 res (k, v)) k' = Dict.get res k'.
Proof.
  intros Hne. unfold merge1. destruct (Dict.get res k) as [ov |].
  - destruct (VersionOrder.gtb v ov); trivial. apply get_set_neq. exact Hne.
  - apply get_set_neq. exact Hne.
Qed.

(** Keys that [new] does not mention are untouched. *)
Lemma update_frame new old k :
  ~ In k (Dict.keys new) -> Dict.get (update old new) k = Dict.get old k.
Proof.
  revert old. induction new as [| [k' v'] t IH]; intros old Hk; [reflexivity |].
  rewrite update_cons, IH.
  - apply merge1_other. intros ->. apply Hk. left. reflexivity.
  - intros Hin. apply Hk. right. exact Hin.
Qed.

(** The resolved map [b] is nowhere below [a]. *)
Definition vers_le (a b : versions) : Prop :=
  forall k v, Dict.get a k = Some v ->
              exists v', Dict.get b k = Some v' /\ VersionOrder.le v v'.

Lemma vers_le_refl a : vers_le a a.
Proof. intros k v H. exists v. split; [exact H | apply le_refl]. Qed.

Lemma vers_le_trans a b c : vers_le a b -> vers_le b c -> vers_le a c.
Proof.
  intros Hab Hbc k v H. destruct (Hab k v H) as [v1 [H1 L1]].
  destruct (Hbc k v1 H1) as [v2 [H2 L2]]. exists v2. split; trivial.
  eapply le_trans; eassumption.
Qed.

Lemma merge1_mono res kv : vers_le res (merge1 res kv).
Proof.
  destruct kv as [k v]. intros k0 v0 H0. unfold merge1.
  destruct (Dict.get res k) as [ov |] eqn:E.
  - destruct (VersionOrder.gtb v ov) eqn:G.
    + destruct (String.eqb_spec k k0) as [-> | Hne].
      * rewrite get_set_eq. exists v. split; trivial.
        assert (ov = v0) by congruence. subst. apply gtb_le. exact G.
      * rewrite (get_set_neq _ _ _ _ Hne). exists v0. split; [exact H0 | apply le_refl].
    + exists v0. split; [exact H0 | apply le_refl].
  - destruct (String.eqb_spec k k0) as [-> | Hne]; [congruence |].
    rewrite (get_set_neq _ _ _ _ Hne). exists v0. split; [exact H0 | apply le_refl].
Qed.

Lemma update_mono old new : vers_le old (update old new).
Proof.
  revert old. induction new as [| kv t IH]; intros old.
  - apply vers_le_refl.
  - rewrite update_cons. eapply vers_le_trans; [apply merge1_mono | apply IH].
Qed.

(** After the merge no value is below the candidate of [new]. *)
Lemma update_above_new old new k v :
  Dict.get new k = Some v ->
  exists v', Dict.get (update old new) k = Some v' /\ VersionOrder.le v v'.
Proof.
  revert old. induction new as [| [k' v'] t IH]; intros old; cbn [Dict.get];
    [discriminate |].
  destruct (String.eqb_spec k' k) as [-> | Hne]; intros H.
  - injection H as ->. rewrite update_cons.
    assert (Hm : exists v1, Dict.get (merge1 old (k, v)) k = Some v1
                            /\ VersionOrder.le v v1).
    { unfold merge1. destruct (Dict.get old k) as [ov |] eqn:E.
      - destruct (VersionOrder.gtb v ov) eqn:G.
        + rewrite get_set_eq. exists v. split; [trivial | apply le_refl].
        + exists ov. split; [exact E | apply not_gtb_le; exact G].
      - rewrite get_set_eq. exists v. split; [trivial | apply le_refl]. }
    destruct Hm as [v1 [H1 L1]].
    destruct (update_mono (merge1 old (k, v)) t k v1 H1) as [v2 [H2 L2]].
    exists v2. split; [exact H2 | eapply le_trans; eassumption].
  - rewrite update_cons. apply IH. exact H.
Qed.

Lemma update_keys old new k :
  In k (Dict.keys old) -> In k (Dict.keys (update old new)).
Proof.
  intros H. destruct (in_keys_get _ _ H) as [v Hv].
  destruct (update_mono old new k v Hv) as [v' [Hv' _]].
  eapply get_in_keys. exact Hv'.
Qed.

Lemma wf_head {V} (k : string) (v : V) (t : Dict.t V) :
  Dict.wf ((k, v) :: t) -> ~ In k (Dict.keys t) /\ Dict.wf t.
Proof. unfold Dict.wf. simpl. intros H. inversion H; auto. Qed.

(** C1.  For a key [k] that [new] maps to [v]: if [old] has no entry for [k],
    the merged map has [v]; if [old] maps [k] to [ov], the merged map has [v]
    when [v] is strictly greater than [ov] in the version order, and keeps
    [ov] otherwise, so also on a tie. *)
Theorem update_spec :
  forall (old new : versions) (k : string) (v : Version),
    Dict.wf new ->
    Dict.get new k = Some v ->
    (Dict.get old k = None -> Dict.get (update old new) k = Some v)
    /\ (forall ov, Dict.get old k = Some ov ->
          (VersionOrder.compare v ov = Gt ->
           Dict.get (update old new) k = Some v)
          /\ (VersionOrder.compare v ov <> Gt ->
              Dict.get (update old new) k = Some ov)
          /\ (VersionOrder.compare v ov = Eq ->
              Dict.get (update old new) k = Some ov)).
Proof.
  intros old new. revert old.
  induction new as [| [k' v'] t IH]; intros old k v Hwf; cbn [Dict.get];
    [discriminate |].
  destruct (wf_head _ _ _ Hwf) as [Hnot Hwf'].
  destruct (String.eqb_spec k' k) as [-> | Hne]; intros H.
  - injection H as ->. rewrite update_cons, (update_frame t _ k Hnot).
    unfold merge1. split.
    + intros ->. apply get_set_eq.
    + intros ov Hov. rewrite Hov. unfold VersionOrder.gtb.
      destruct (VersionOrder.compare v ov) eqn:C; repeat split;
        intros; try congruence; try apply get_set_eq; trivial.
  - rewrite update_cons.
    destruct (IH (merge1 old (k', v')) k v Hwf' H) as [Hnone Hsome].
    rewrite (merge1_other _ _ _ _ Hne) in Hnone, Hsome. split; assumption.
Qed.

Definition old0 : versions := [("a", ParserClaims.rel [1; 0]%N)].
Definition new0 : versions :=
  [("a", ParserClaims.rel [2; 0]%N); ("b", ParserClaims.rel [1]%N)].

Lemma update_spec_witness :
  Dict.get (update old0 new0) "b" = Some (ParserClaims.rel [1]%N).
Proof.
  refine (proj1 (update_spec old0 new0 "b" (ParserClaims.rel [1]%N) _ _) _).
  - unfold Dict.wf, new0. simpl.
    constructor; [simpl; intros [H | []]; discriminate H |].
    constructor; [intros [] | constructor].
  - reflexivity.
  - reflexivity.
Defined.

Lemma update_above_in old new k v :
  In (k, v) new ->
  exists v', Dict.get (update old new) k = Some v' /\ VersionOrder.le v v'.
Proof.
  revert old. induction new as [| [k' v'] t IH]; intros old Hin; [destruct Hin |].
  rewrite update_cons. destruct Hin as [Hin | Hin]; [| apply IH; exact Hin].
  injection Hin as -> ->.
  assert (Hm : exists v1, Dict.get (merge1 old (k, v)) k = Some v1
                          /\ VersionOrder.le v v1).
  { unfold merge1. destruct (Dict.get old k) as [ov |] eqn:E.
    - destruct (VersionOrder.gtb v ov) eqn:G.
      + rewrite get_set_eq. exists v. split; [trivial | apply le_refl].
      + exists ov. split; [exact E | apply not_gtb_le; exact G].
    - rewrite get_set_eq. exists v. split; [trivial | apply le_refl]. }
  destruct Hm as [v1 [H1 L1]].
  destruct (update_mono (merge1 old (k, v)) t k v1 H1) as [v2 [H2 L2]].
  exists v2. split; [exact H2 | eapply le_trans; eassumption].
Qed.

Lemma le_not_gtb a b : VersionOrder.le a b -> VersionOrder.gtb a b = false.
Proof.
  unfold VersionOrder.le, VersionOrder.leb, VersionOrder.gtb.
  destruct (VersionOrder.compare a b); congruence.
Qed.

Lemma update_fixed res new :
  (forall k v, In (k, v) new ->
               exists ov, Dict.get res k = Some ov /\ VersionOrder.le v ov) ->
  update res new = res.
Proof.
  induction new as [| [k v] t IH]; intros H; [reflexivity |].
  rewrite update_cons.
  assert (E : merge1 res (k, v) = res).
  { unfold merge1. destruct (H k v (or_introl eq_refl)) as [ov [-> Hle]].
    rewrite (le_not_gtb _ _ Hle). reflexivity. }
  rewrite E. apply IH. intros k' v' Hin. apply H. right. exact Hin.
Qed.

(** X1.  Merging the same candidates a second time changes nothing. *)
Theorem update_idempotent :
  forall old new : versions, update (update old new) new = update old new.
Proof.
  intros old new. apply update_fixed. intros k v Hin.
  apply update_above_in. exact Hin.
Qed.

End MergeFacts.

(* ------------------------------------------------------------------ *)
(** ** Source adapters: what they emit and which names they return *)

Module AdapterFacts.
Import Hoare DictFacts.

Definition is_request (e : event) : Prop := exists url headers, e = Request url headers.

(** Nothing is required of the value. *)
Definition any {A} (_ : A) : Prop := True.

(** Computations assembled from [ret], [raise], [lift], [bind], [for_each]
    and case analysis emit nothing. *)
Ltac quiet :=
  repeat (cbv beta; match goal with
  | |- hoare _ _ (ret _) => apply hoare_ret; exact I
  | |- hoare _ _ (raise _) => apply hoare_raise
  | |- hoare _ _ (lift _) => apply hoare_lift; intros; exact I
  | |- hoare _ _ (bind _ _) => eapply (hoare_bind _ any); [| intros ? _]
  | |- hoare _ _ (for_each _ _ _) =>
      apply (hoare_for_each _ any); [exact I | intros ? ? _ _]
  | |- hoare _ _ (match ?x with _ => _ end) => destruct x
  end).

Section WithWorld.
Variable w : World.

Lemma set_order_in {A} (l : list A) x : In x (set_order w A l) -> In x l.
Proof. apply Permutation_in. apply set_order_perm. Qed.

Lemma in_set_order {A} (l : list A) x : In x l -> In x (set_order w A l).
Proof. apply Permutation_in. apply Permutation_sym. apply set_order_perm. Qed.

Definition pending_name (p : pending) : string := fst (fst p).

(** [wait] sends exactly the pending requests and hands back a non-empty
    collection of their outcomes. *)
Lemma wait_spec aws :
  hoare
    (fun e => exists p, In p aws /\ e = Request (snd (fst p)) (snd p))
    (fun done =>
       done <> []
       /\ forall t, In t done ->
                    exists p, In p aws /\ fst t = pending_name p
                              /\ snd t = http_get w (snd (fst p)) (snd p))
    (wait w aws).
Proof.
  unfold wait. destruct aws as [| p0 aws']; [apply hoare_raise |].
  set (aws := p0 :: aws'). eapply (hoare_bind _ any).
  - apply (hoare_for_each _ any); [exact I |].
    intros [] [[name url] headers] Hin _. apply hoare_emit; [| exact I].
    exists (name, url, headers). split; [| reflexivity].
    apply set_order_in in Hin. exact Hin.
  - intros _ _. apply hoare_ret. split.
    + intros E. apply (f_equal (@List.length _)) in E.
      rewrite (Permutation_length (set_order_perm w _ _)) in E. discriminate E.
    + intros t Ht. apply set_order_in in Ht.
      apply in_map_iff in Ht. destruct Ht as [[[name url] headers] [<- Hin]].
      exists (name, url, headers). auto.
Qed.

Lemma wait_hoare aws :
  hoare is_request
    (fun done => forall t, In t done -> In (fst t) (map pending_name aws))
    (wait w aws).
Proof.
  eapply hoare_conseq; [apply wait_spec | |].
  - intros e [[[name url] headers] [_ ->]]. eexists _, _. reflexivity.
  - intros done [_ H] t Ht. destruct (H t Ht) as [p [Hp [-> _]]].
    apply in_map. exact Hp.
Qed.

Lemma result_hoare E t :
  hoare E (fun nr => fst nr = fst t) (result t).
Proof.
  destruct t as [name [r |]]; simpl.
  - apply hoare_ret. reflexivity.
  - apply hoare_raise.
Qed.

Lemma result_quiet E t : hoare E any (result t).
Proof. unfold result. quiet. Qed.

Lemma json_of_quiet E r : hoare E any (json_of r).
Proof. unfold json_of. quiet. Qed.

Lemma option_of_quiet E args k : hoare E any (option_of args k).
Proof. unfold option_of. quiet. Qed.

Lemma parse_values_quiet E vals : hoare E any (parse_values vals).
Proof. unfold parse_values. quiet. Qed.

Lemma field_versions_quiet E field j : hoare E any (field_versions field j).
Proof. unfold field_versions, parse_values. quiet. Qed.

Lemma forge_results_hoare E field done :
  hoare E (fun res => incl (Dict.keys res) (map fst done))
    (forge_results field done).
Proof.
  unfold forge_results. apply hoare_for_each.
  - intros k [].
  - intros res t Hin Hres. eapply hoare_bind; [apply result_hoare |].
    intros [name r] Hname. simpl in Hname. subst name.
    eapply (hoare_bind _ any); [apply json_of_quiet |]. intros j _.
    destruct (Py.truthy_json j); [| apply hoare_ret; exact Hres].
    eapply (hoare_bind _ any); [apply field_versions_quiet |]. intros vers _.
    destruct (latest vers); apply hoare_ret; trivial.
    apply keys_set_incl; trivial. apply in_map. exact Hin.
Qed.

(** The postcondition of every adapter: only names it was given. *)
Definition within (pkgs : catalog) (res : versions) : Prop :=
  incl (Dict.keys res) (Dict.keys pkgs).

Lemma forge_finish aws field (pkgs : catalog) :
  incl (map pending_name aws) (Dict.keys pkgs) ->
  hoare is_request (within pkgs)
    (done <- wait w aws ;; forge_results field done).
Proof.
  intros Hnames. eapply hoare_bind; [apply wait_hoare |].
  intros done Hdone.
  eapply hoare_conseq; [apply forge_results_hoare | intros e He; exact He |].
  intros res Hres k Hk. apply Hnames. apply Hres in Hk.
  apply in_map_iff in Hk. destruct Hk as [t [<- Ht]]. apply Hdone. exact Ht.
Qed.

Lemma agithub_hoare args pkgs type field :
  hoare is_request (within pkgs) (agithub w args pkgs type field).
Proof.
  unfold agithub. eapply (hoare_bind _ any); [apply option_of_quiet |].
  intros tok _. apply forge_finish.
  intros name Hname. apply in_map_iff in Hname.
  destruct Hname as [[[n url] h] [<- Hin]]. apply in_flat_map in Hin.
  destruct Hin as [[name pkg] [Hpkg Hin]].
  destruct (Dict.get pkg "github") as [id_ |]; [| destruct Hin].
  destruct (Py.truthy id_); [| destruct Hin].
  destruct Hin as [Hin | []]. injection Hin as <- _ _.
  unfold Dict.keys. apply (in_map fst _ _ Hpkg).
Qed.

Lemma agitlab_hoare args pkgs type field :
  hoare is_request (within pkgs) (agitlab w args pkgs type field).
Proof.
  unfold agitlab. eapply (hoare_bind _ any); [apply option_of_quiet |].
  intros tok _. eapply hoare_bind.
  - apply (hoare_for_each _
             (fun aws : list pending => incl (map pending_name aws) (Dict.keys pkgs))).
    + intros k [].
    + intros aws [name pkg] Hin Haws.
      destruct (Dict.get pkg "gitlab") as [id_ |]; [| apply hoare_ret; exact Haws].
      destruct (Py.truthy id_); [| apply hoare_ret; exact Haws].
      destruct id_; try apply hoare_raise.
      apply hoare_ret. rewrite map_app. apply incl_app; [exact Haws |].
      intros k [<- | []]. apply (in_map fst _ _ Hin).
  - intros aws Haws. apply forge_finish. exact Haws.
Qed.

Lemma aarch_hoare args pkgs :
  hoare is_request (within pkgs) (aarch w args pkgs).
Proof.
  unfold aarch. eapply hoare_bind; [apply wait_hoare |].
  intros done Hdone.
  assert (Hnames : forall t, In t done -> In (fst t) (Dict.keys pkgs)).
  { intros t Ht. apply Hdone in Ht. rewrite map_map in Ht.
    apply in_map_iff in Ht. destruct Ht as [[name pkg] [<- Hin]].
    apply (in_map fst _ _ Hin). }
  apply hoare_for_each.
  - intros k [].
  - intros res t Hin Hres. eapply hoare_bind; [apply result_hoare |].
    intros [name r] Hname. simpl in Hname. subst name.
    eapply (hoare_bind _ any); [apply json_of_quiet |]. intros j _.
    eapply (hoare_bind _ any); [quiet |]. intros j' _.
    destruct (Py.truthy_json j'); [| apply hoare_ret; exact Hres].
    eapply (hoare_bind _ any); [quiet |]. intros first _.
    eapply (hoare_bind _ any); [quiet |]. intros pkgver _.
    eapply (hoare_bind _ any); [apply parse_values_quiet |]. intros vers _.
    destruct vers; apply hoare_ret; trivial.
    apply keys_set_incl; trivial. apply Hnames. exact Hin.
Qed.

Lemma aaur_hoare args pkgs :
  hoare is_request (within pkgs) (aaur w args pkgs).
Proof.
  unfold aaur. eapply (hoare_bind _ any).
  - apply hoare_emit; [| exact I]. eexists _, _. reflexivity.
  - intros _ _. eapply (hoare_bind _ any); [apply result_quiet |].
    intros [n r] _.
    eapply (hoare_bind _ any); [apply json_of_quiet |]. intros j _.
    eapply (hoare_bind _ any); [quiet |]. intros j' _.
    eapply (hoare_bind _ any); [quiet |]. intros entries _.
    apply hoare_for_each.
    + intros k [].
    + intros res [i v] _ Hres.
      destruct (Py.truthy_json v); [| apply hoare_ret; exact Hres].
      eapply (hoare_bind _ any); [quiet |]. intros version _.
      eapply (hoare_bind _ any); [apply parse_values_quiet |]. intros vers _.
      destruct vers as [| ver ?]; [apply hoare_ret; exact Hres |].
      destruct (nth_error pkgs i) as [[name pkg] |] eqn:En; [| apply hoare_raise].
      apply hoare_ret. apply keys_set_incl; trivial.
      apply nth_error_In in En. apply (in_map fst _ _ En).
Qed.

(** A package the git adapter asks about: it names [git] as primary and its
    [url] is a string whose scheme is [http] or [https]. *)
Definition git_over_http (pkgs : catalog) (name url : string) : Prop :=
  exists pkg scheme,
    In (name, pkg) pkgs
    /\ Dict.get pkg "url" = Some (TStr url)
    /\ is_git (Dict.get pkg "primary") = true
    /\ GitRefs.urlparse_scheme (PyStr.chars url) = inr scheme
    /\ (scheme = PyStr.chars "http" \/ scheme = PyStr.chars "https").

Definition refs_url (url : string) : string :=
  fmt [url; "/info/refs?service=git-upload-pack"].

Lemma chars_eqb_eq a b : GitRefs.chars_eqb a b = true -> a = b.
Proof. unfold GitRefs.chars_eqb. destruct (list_eq_dec ascii_dec a b); congruence. Qed.

Lemma agit_spec args pkgs :
  hoare
    (fun e => exists name url, git_over_http pkgs name url
                               /\ e = Request (refs_url url) [])
    (fun res => forall k, In k (Dict.keys res) ->
                          exists url, git_over_http pkgs k url)
    (agit w args pkgs).
Proof.
  unfold agit.
  pose (good := fun p : pending =>
          exists url, git_over_http pkgs (pending_name p) url
                      /\ p = (pending_name p, refs_url url, [])).
  eapply (hoare_bind _
            (fun st : list pending * option (list string) * option string =>
               forall p, In p (fst (fst st)) -> good p)).
  - apply hoare_for_each; [intros p [] |].
    intros [[aws vers] name0] [name pkg] Hin Haws. cbn [fst] in Haws.
    destruct (Dict.get pkg "url") as [b |] eqn:Eurl;
      [| apply hoare_ret; exact Haws].
    destruct (Py.truthy b && is_git (Dict.get pkg "primary")) eqn:Eg;
      [| apply hoare_ret; exact Haws].
    apply andb_true_iff in Eg. destruct Eg as [_ Eg].
    destruct b as [url | |]; try apply hoare_raise.
    eapply (hoare_bind _ (fun scheme =>
              GitRefs.urlparse_scheme (PyStr.chars url) = inr scheme)).
    { apply hoare_lift. trivial. }
    intros scheme Hscheme.
    destruct (existsb _ _) eqn:Ex; apply hoare_ret; cbn [fst]; [| exact Haws].
    intros p Hp. apply in_app_or in Hp. destruct Hp as [Hp | [<- | []]]; [auto |].
    exists url. split; [| reflexivity].
    exists pkg, scheme. repeat split; trivial.
    cbn [existsb] in Ex. rewrite orb_false_r in Ex. apply orb_true_iff in Ex.
    destruct Ex as [Ex | Ex]; apply chars_eqb_eq in Ex; auto.
  - intros [[aws vers] name0] Haws. cbn [fst] in Haws.
    eapply hoare_bind.
    { eapply hoare_conseq; [apply wait_spec | | intros a Ha; exact Ha].
      intros e [p [Hp ->]]. destruct (Haws p Hp) as [url [Hg ->]].
      exists (pending_name (pending_name p, refs_url url, [])), url.
      split; [exact Hg | reflexivity]. }
    intros done [Hne Hdone].
    assert (Hname : forall t, In t done ->
                              exists url, git_over_http pkgs (fst t) url).
    { intros t Ht. destruct (Hdone t Ht) as [p [Hp [-> _]]].
      destruct (Haws p Hp) as [url [Hg _]]. eauto. }
    pose (named := fun st : option (list string) * option string =>
            exists n url, snd st = Some n /\ git_over_http pkgs n url).
    assert (Hbody : forall E st t, In t done -> hoare E named (scan_refs st t)).
    { intros E [vers1 name1] t Ht. unfold scan_refs.
      eapply hoare_bind; [apply result_hoare |].
      intros [name r] En. cbn [fst] in En. subst name.
      eapply (hoare_bind _ any); [apply hoare_raise |]. intros lines _.
      eapply (hoare_bind _ any); [quiet |]. intros vers2 _.
      apply hoare_ret. destruct (Hname t Ht) as [url Hg].
      exists (fst t), url. auto. }
    destruct done as [| t done']; [congruence |]. cbn [for_each].
    eapply (hoare_bind _ named).
    + eapply hoare_bind; [apply Hbody; left; reflexivity |].
      intros st Hst. apply hoare_for_each; [exact Hst |].
      intros st' t' Ht' _. apply Hbody. right. exact Ht'.
    + intros [vers1 name1] [n [url [En Hg]]]. cbn [snd] in En. subst name1.
      destruct vers1 as [s |]; [| apply hoare_raise].
      destruct (latest _); apply hoare_ret; [| intros k []].
      intros k [<- | []]. eauto.
Qed.

Lemma agit_hoare args pkgs :
  hoare is_request (within pkgs) (agit w args pkgs).
Proof.
  eapply hoare_conseq; [apply agit_spec | |].
  - intros e [name [url [_ ->]]]. eexists _, _. reflexivity.
  - intros res H k Hk. destruct (H k Hk) as [url [pkg [scheme [Hin _]]]].
    apply (in_map fst _ _ Hin).
Qed.

(** Every adapter emits requests only and returns only names it was given. *)
Lemma call_hoare s args pkgs :
  hoare is_request (within pkgs) (call w s args pkgs).
Proof.
  destruct s; simpl.
  - apply agithub_hoare.
  - apply agitlab_hoare.
  - apply aaur_hoare.
  - apply aarch_hoare.
  - apply agithub_hoare.
  - apply agitlab_hoare.
  - apply agit_hoare.
Qed.

End WithWorld.
End AdapterFacts.

(* ------------------------------------------------------------------ *)
(** ** Concrete worlds *)

Module Examples.

(** Sets iterate front to back, or back to front. *)
Definition order (backwards : bool) (A : Type) (l : list A) : list A :=
  if backwards then rev l else l.

Lemma order_perm backwards (A : Type) (l : list A) :
  Permutation (order backwards A l) l.
Proof.
  destruct backwards; simpl.
  - apply Permutation_sym, Permutation_rev.
  - apply Permutation_refl.
Defined.

(** The world that answers the listed URLs and fails on every other. *)
Definition world (answers : Dict.t response) (backwards : bool) : World :=
  mkWorld (fun url _ => Dict.get answers url) (order backwards)
          (order_perm backwards).

Definition json_body (j : json) : response := mkResponse "" (Some j).
Definition text_body (s : string) : response := mkResponse s None.

(** No option given on the command line, none in the document. *)
Definition no_flags : flags := mkFlags None None None None None None None None.
Definition default_args : options :=
  [("github_token", None); ("gitlab_token", None);
   ("primary", Some (TBool true)); ("secondary", Some (TBool true));
   ("trust_primary", Some (TBool true)); ("trust_secondary", Some (TBool true));
   ("print_names", Some (TBool false)); ("quiet", Some (TBool false))].

(** The aggregator scenario: [x] is unknown, [y] is at 2.0. *)
Definition aur_pkgs : catalog := [("x", []); ("y", [])].
Definition aur_world : World :=
  world
    [("https://aur.archlinux.org/rpc/?v=5&type=info&arg[]=x&arg[]=y",
      json_body (JObj [("results",
                        JArr [JNull; JObj [("Version", JStr "2.0")]])]))]
    false.

(** A package tracked through its git remote, which advertises one tag. *)
Definition git_pkgs : catalog :=
  [("a", [("primary", TStr "git"); ("url", TStr "http://h/a")])].

Definition refs_a : response := text_body ("00aa refs/tags/1.0" ++ nl)%string.

Definition git_world : World :=
  world [("http://h/a/info/refs?service=git-upload-pack", refs_a)] false.

(** A document whose options block has an unknown key. *)
Definition bad_doc : Dict.t pkgspec :=
  [("johnny_config", [("bogus", TBool true)]);
   ("foo", [("primary", TStr "github"); ("github", TStr "a/b")])].

(** [foo] names a primary source; [bar] does not. *)
Definition primary_cat : catalog :=
  [("foo", [("primary", TStr "github"); ("github", TStr "a/b")]);
   ("bar", [("aur", TStr "bar")])].

(** A world in which every source knows [foo]. *)
Definition forge_world : World :=
  world
    [("https://api.github.com/repos/a/b/releases",
      json_body (JArr [JObj [("tag_name", JStr "v1.0.0")];
                       JObj [("tag_name", JStr "v0.9.0")]]));
     ("https://gitlab.com/api/v4/projects/c%2Fd/releases",
      json_body (JArr [JObj [("tag_name", JStr "1.1.0")]]));
     ("https://aur.archlinux.org/rpc/?v=5&type=info&arg[]=foo",
      json_body (JObj [("results", JArr [JObj [("Version", JStr "1.2.0")]])]));
     ("https://www.archlinux.org/packages/search/json/?name=foo",
      json_body (JObj [("results", JArr [JObj [("pkgver", JStr "0.9")]])]))]
    false.

(** One package that two forges know. *)
Definition multi_cat : catalog :=
  [("foo", [("github", TStr "a/b"); ("gitlab", TStr "c/d")])].

(** One package that only github knows. *)
Definition github_cat : catalog := [("foo", [("github", TStr "a/b")])].

(** The defaults, with [trust_secondary] off. *)
Definition untrusting_args : options :=
  [("github_token", None); ("gitlab_token", None);
   ("primary", Some (TBool true)); ("secondary", Some (TBool true));
   ("trust_primary", Some (TBool true)); ("trust_secondary", Some (TBool false));
   ("print_names", Some (TBool false)); ("quiet", Some (TBool false))].

End Examples.

Module AdapterClaims.
Import Hoare DictFacts AdapterFacts Examples.

(** C10.  Whatever adapter is invoked, on whatever mapping of eligible
    packages: every key of the mapping it returns is a key of the mapping it
    received. *)
Theorem adapters_return_given_names :
  forall (w : World) (s : source) (args : options) (pkgs : catalog)
         (res : versions),
    outcome (call w s args pkgs) = inr res ->
    forall name, In name (Dict.keys res) -> In name (Dict.keys pkgs).
Proof.
  intros w s args pkgs res H name Hin.
  destruct (call_hoare w s args pkgs) as [_ Hpost].
  exact (Hpost res H name Hin).
Qed.

Lemma adapters_return_given_names_witness :
  In "y" (Dict.keys aur_pkgs).
Proof.
  apply (adapters_return_given_names aur_world Aur default_args aur_pkgs
           [("y", ParserClaims.rel [2; 0]%N)]).
  - vm_compute. reflexivity.
  - simpl. left. reflexivity.
Defined.

(** A loop over [enumerate(l)], with an invariant indexed by the position
    reached. *)
Lemma hoare_enumerate {A S} E (I : nat -> S -> Prop) (full l : list A)
  (body : S -> nat * A -> M S) :
  (forall k s a, nth_error full k = Some a -> I k s -> hoare E (I (Datatypes.S k)) (body s (k, a))) ->
  forall n s,
    (forall j, nth_error l j = nth_error full (n + j)) ->
    I n s ->
    hoare E (I (n + List.length l))
      (for_each (combine (seq n (List.length l)) l) s body).
Proof.
  intros Hbody. induction l as [| a t IH]; intros n s Hl Hs; simpl.
  - rewrite Nat.add_0_r. apply hoare_ret. exact Hs.
  - eapply hoare_bind.
    + apply Hbody; [| exact Hs]. rewrite <- (Nat.add_0_r n). rewrite <- Hl. reflexivity.
    + intros s' Hs'. replace (n + Datatypes.S (List.length t)) with (Datatypes.S n + List.length t) by lia.
      apply IH; [| exact Hs'].
      intros j. pose proof (Hl (Datatypes.S j)) as Hj. cbn [nth_error] in Hj.
      rewrite Hj. f_equal. lia.
Qed.

(** What the entry at one position of the batched response stands for: the
    version its ["Version"] field parses to, if the entry is there, is not
    null, and the field parses. *)
Definition entry_candidate (e : option json) : option Version :=
  match e with
  | Some e =>
      if Py.truthy_json e then
        match Py.getitem e "Version" with
        | inr (JStr s) => hd_error (try_parse_versions [s])
        | _ => None
        end
      else None
  | None => None
  end.

Lemma nodup_nth_name (pkgs : catalog) i j name pi pj :
  Dict.wf pkgs ->
  nth_error pkgs i = Some (name, pi) -> nth_error pkgs j = Some (name, pj) ->
  i = j.
Proof.
  unfold Dict.wf, Dict.keys. intros Hwf Hi Hj.
  assert (Hlen : i < List.length (map fst pkgs)).
  { rewrite length_map. apply nth_error_Some. congruence. }
  apply (proj1 (NoDup_nth_error (map fst pkgs)) Hwf i j Hlen).
  rewrite !nth_error_map, Hi, Hj. reflexivity.
Qed.

Section Aur.
Variable w : World.

Lemma aaur_entries (pkgs : catalog) (entries : list json) :
  Dict.wf pkgs ->
  hoare (fun _ => True)
    (fun res : versions =>
       forall i name pkg, nth_error pkgs i = Some (name, pkg) ->
                          Dict.get res name = entry_candidate (nth_error entries i))
    (for_each (enumerate entries) ([] : versions)
       (fun res '(i, v) =>
          if Py.truthy_json v then
            version <- lift (Py.getitem v "Version") ;;
            vers <- parse_values [version] ;;
            match vers with
            | ver :: _ =>
                match nth_error pkgs i with
                | Some (name, _) => ret (Dict.set res name ver)
                | None => raise IndexError
                end
            | [] => ret res
            end
          else ret res)).
Proof.
  intros Hwf.
  pose (I := fun (n : nat) (res : versions) =>
          forall i name pkg, nth_error pkgs i = Some (name, pkg) ->
            Dict.get res name =
            if (i <? n)%nat then entry_candidate (nth_error entries i) else None).
  eapply hoare_conseq with (Q := I (0 + List.length entries));
    [| intros e He; exact He |].
  - unfold enumerate. apply (hoare_enumerate _ I entries entries).
    + intros k res e Hk Hres.
      assert (Hkeep : entry_candidate (Some e) = None -> I (S k) res).
      { intros Hc i name pkg Hi. rewrite (Hres i name pkg Hi).
        destruct (Nat.eq_dec i k) as [-> | Hne].
        - rewrite Nat.ltb_irrefl, (proj2 (Nat.ltb_lt k (S k))) by lia.
          rewrite Hk, Hc. reflexivity.
        - destruct (i <? k)%nat eqn:Ei.
          + apply Nat.ltb_lt in Ei. rewrite (proj2 (Nat.ltb_lt i (S k))) by lia.
            reflexivity.
          + apply Nat.ltb_ge in Ei. rewrite (proj2 (Nat.ltb_ge i (S k))) by lia.
            reflexivity. }
      unfold entry_candidate in Hkeep.
      destruct (Py.truthy_json e) eqn:Et; [| apply hoare_ret; auto].
      eapply (hoare_bind _ (fun version => Py.getitem e "Version" = inr version)).
      { apply hoare_lift. trivial. }
      intros version Hv. rewrite Hv in Hkeep.
      eapply (hoare_bind _ (fun vers => exists s, version = JStr s
                                                  /\ vers = try_parse_versions [s])).
      { unfold parse_values. eapply (hoare_bind _ (fun strs => exists s, version = JStr s /\ strs = [s])).
        - apply hoare_lift. intros strs. simpl.
          destruct version; simpl; try discriminate.
          intros H. injection H as <-. eauto.
        - intros strs [s [-> ->]]. apply hoare_ret. eauto. }
      intros vers [s [-> ->]].
      destruct (try_parse_versions [s]) as [| ver rest] eqn:Ep;
        [apply hoare_ret; auto |].
      destruct (nth_error pkgs k) as [[name0 pkg0] |] eqn:En; [| apply hoare_raise].
      apply hoare_ret. intros i name pkg Hi.
      destruct (Nat.eq_dec i k) as [-> | Hne].
      * assert (name = name0) by congruence. subst name0.
        rewrite get_set_eq, (proj2 (Nat.ltb_lt k (S k))) by lia.
        rewrite Hk. unfold entry_candidate. rewrite Et, Hv, Ep. reflexivity.
      * assert (Hn : name0 <> name).
        { intros ->. apply Hne. eapply nodup_nth_name; eassumption. }
        rewrite (get_set_neq _ _ _ _ Hn), (Hres i name pkg Hi).
        destruct (i <? k)%nat eqn:Ei.
        -- apply Nat.ltb_lt in Ei. rewrite (proj2 (Nat.ltb_lt i (S k))) by lia.
           reflexivity.
        -- apply Nat.ltb_ge in Ei. rewrite (proj2 (Nat.ltb_ge i (S k))) by lia.
           reflexivity.
    + intros j. reflexivity.
    + intros i name pkg _. reflexivity.
  - intros res Hres i name pkg Hi. rewrite (Hres i name pkg Hi). simpl.
    destruct (i <? List.length entries)%nat eqn:Ei; trivial.
    apply Nat.ltb_ge in Ei. apply nth_error_None in Ei. rewrite Ei. reflexivity.
Qed.

End Aur.

(** The argument the batched query carries for one package. *)
Definition query_arg (item : string * pkgspec) : string :=
  fmt ["arg[]=";
       Py.str (match Dict.get (snd item) "aur" with
               | Some v => v
               | None => TStr (fst item)
               end)].

(** The one request of [aaur]: the arguments follow the order of [pkgs]. *)
Definition aur_url (pkgs : catalog) : string :=
  fmt [aur_base; "/?v=5&type=info&"; Py.join_str "&" (map query_arg pkgs)].

Lemma aaur_unfold w args pkgs :
  aaur w args pkgs =
  (emit (Request (aur_url pkgs) []) ;;;
   '(_, r) <- result ("aur", http_get w (aur_url pkgs) []) ;;
   j <- json_of r ;;
   j <- lift (Py.getitem j "results") ;;
   entries <- lift (Py.iter j) ;;
   for_each (enumerate entries) ([] : versions)
     (fun res '(i, v) =>
        if Py.truthy_json v then
          version <- lift (Py.getitem v "Version") ;;
          vers <- parse_values [version] ;;
          match vers with
          | ver :: _ =>
              match nth_error pkgs i with
              | Some (name, _) => ret (Dict.set res name ver)
              | None => raise IndexError
              end
          | [] => ret res
          end
        else ret res)).
Proof.
  unfold aaur, aur_url.
  replace (map query_arg pkgs)
    with (map (fun '(name, pkg) =>
                 fmt ["arg[]=";
                      Py.str match Dict.get pkg "aur" with
                             | Some v => v
                             | None => TStr name
                             end])
              pkgs).
  - reflexivity.
  - apply map_ext. intros [n p]. reflexivity.
Qed.

(** C7.  [aaur] sends one request whose arguments follow the order of the
    packages, and reads the response array by position: the package at
    position [i] is mapped exactly when the entry at position [i] is there,
    is not null and carries a version that parses, and then to that version.
    A null or missing entry leaves only its own package out.  For the query
    order [x, y] and the response [[null, {"Version": "2.0"}]] the result is
    [y -> 2.0] alone. *)
Theorem aaur_positional_alignment :
  forall (w : World) (args : options) (pkgs : catalog) (body : response)
         (j : json) (entries : list json) (res : versions),
    Dict.wf pkgs ->
    http_get w (aur_url pkgs) [] = Some body ->
    resp_json body = Some j ->
    Py.getitem j "results" = inr (JArr entries) ->
    outcome (aaur w args pkgs) = inr res ->
    trace (aaur w args pkgs) = [Request (aur_url pkgs) []]
    /\ (forall i name pkg,
          nth_error pkgs i = Some (name, pkg) ->
          Dict.get res name = entry_candidate (nth_error entries i)
          /\ (nth_error entries i = None \/ nth_error entries i = Some JNull ->
              Dict.get res name = None))
    /\ outcome (aaur aur_world default_args aur_pkgs)
       = inr [("y", ParserClaims.rel [2; 0]%N)].
Proof.
  intros w args pkgs body j entries res Hwf Hbody Hj Hresults.
  rewrite aaur_unfold. intros H.
  apply bind_inr in H. destruct H as [[] [_ [H T0]]]. rewrite T0. clear T0.
  apply bind_inr in H. destruct H as [[n body'] [Hb [H T1]]]. rewrite T1. clear T1.
  apply bind_inr in H. destruct H as [j' [Hj' [H T2]]]. rewrite T2. clear T2.
  apply bind_inr in H. destruct H as [results [Hr [H T3]]]. rewrite T3. clear T3.
  apply bind_inr in H. destruct H as [entries' [He [H T4]]]. rewrite T4. clear T4.
  rewrite Hbody in Hb. injection Hb as _ <-.
  unfold json_of in Hj'. rewrite Hj in Hj'. injection Hj' as <-.
  unfold lift, outcome, fst in Hr, He. rewrite Hresults in Hr. injection Hr as <-.
  injection He as <-.
  destruct (aaur_entries pkgs entries Hwf) as [_ Hpost].
  split; [| split].
  - rewrite (silent_trace (for_each _ _ _)).
    + unfold json_of. rewrite Hbody, Hj. reflexivity.
    + quiet. apply parse_values_quiet.
  - intros i name pkg Hi. pose proof (Hpost res H i name pkg Hi) as Hres.
    split; [exact Hres |].
    intros [Hnone | Hnull]; rewrite Hres; [rewrite Hnone | rewrite Hnull]; reflexivity.
  - vm_compute. reflexivity.
Qed.

Lemma aaur_positional_alignment_witness :
  Dict.get [("y", ParserClaims.rel [2; 0]%N)] "x" = None
  /\ Dict.get [("y", ParserClaims.rel [2; 0]%N)] "y"
     = Some (ParserClaims.rel [2; 0]%N).
Proof.
  pose (body := json_body (JObj [("results",
                                  JArr [JNull; JObj [("Version", JStr "2.0")]])])).
  assert (Hwf : Dict.wf aur_pkgs).
  { unfold Dict.wf. simpl.
    constructor; [simpl; intros [H | []]; discriminate H |].
    constructor; [intros [] | constructor]. }
  destruct (aaur_positional_alignment aur_world default_args aur_pkgs body
              (JObj [("results", JArr [JNull; JObj [("Version", JStr "2.0")]])])
              [JNull; JObj [("Version", JStr "2.0")]]
              [("y", ParserClaims.rel [2; 0]%N)]
              Hwf eq_refl eq_refl eq_refl eq_refl) as [_ [Hpos _]].
  split.
  - exact (proj1 (Hpos 0 "x" [] eq_refl)).
  - exact (proj1 (Hpos 1 "y" [] eq_refl)).
Defined.

Lemma wait_outcome w p aws :
  outcome (wait w (p :: aws)) =
  inr (set_order w _
         (map (fun '(name, url, headers) => (name, http_get w url headers))
              (p :: aws))).
Proof.
  unfold wait. rewrite outcome_bind, for_each_unit; [reflexivity |].
  intros [[name url] headers]. reflexivity.
Qed.

(** The scheme of the empty url is empty. *)
Lemma http_url_truthy url scheme :
  GitRefs.urlparse_scheme (PyStr.chars url) = inr scheme ->
  scheme = PyStr.chars "http" \/ scheme = PyStr.chars "https" ->
  Py.truthy (TStr url) = true.
Proof.
  destruct url as [| c url]; [| reflexivity].
  intros H [E | E]; subst scheme; vm_compute in H; discriminate H.
Qed.

Lemma set_order_one (w : World) {A} (a : A) : set_order w A [a] = [a].
Proof.
  apply Permutation_length_1_inv, Permutation_sym, set_order_perm.
Qed.

(** C8, on the code.  [agit] returns no mapping, whatever it is given and
    whatever the remotes answer: with no request to send it raises at
    [asyncio.wait]; otherwise the first finished task either re-raises the
    failure of its request or is read with [r.text.splitlines()], which
    raises.  In particular, for a single package that names [git] as primary
    and has an http(s) url, once the request is answered the adapter ends
    with [AttributeError], whatever tags the answer advertises.  The claim
    asks for a mapping from the name of the package to its latest tag. *)
Theorem agit_reads_no_answer :
  forall (w : World) (args : options) (pkgs : catalog),
    (exists e, outcome (agit w args pkgs) = inl e)
    /\ (forall name pkg url r,
          pkgs = [(name, pkg)] ->
          git_over_http pkgs name url ->
          http_get w (refs_url url) [] = Some r ->
          agit w args pkgs = (inl AttributeError, [Request (refs_url url) []])).
Proof.
  intros w args pkgs. split.
  - unfold agit. rewrite outcome_bind.
    match goal with
    | |- context [outcome (for_each pkgs ?i ?b)] =>
        destruct (outcome (for_each pkgs i b)) as [e | [[aws vers] name]]
    end; [eauto |].
    rewrite outcome_bind. destruct aws as [| p aws]; [simpl; eauto |].
    rewrite wait_outcome.
    match goal with
    | |- context [set_order w ?A ?l] =>
        pose proof (set_order_perm w A l) as Hperm;
        destruct (set_order w A l) as [| [n [r |]] done]
    end.
    + apply Permutation_nil in Hperm. discriminate Hperm.
    + simpl. eauto.
    + simpl. eauto.
  - intros name pkg url r -> [pkg' [scheme [Hin [Hurl [Hgit [Hscheme Hhttp]]]]]] Hr.
    destruct Hin as [Hin | []]. injection Hin as <-.
    pose proof (http_url_truthy _ _ Hscheme Hhttp) as Htruthy.
    assert (Hex : existsb (GitRefs.chars_eqb scheme)
                    [PyStr.chars "http"; PyStr.chars "https"] = true).
    { destruct Hhttp as [-> | ->]; reflexivity. }
    unfold agit. cbn [for_each].
    rewrite Hurl, Htruthy, Hgit. cbn [andb]. rewrite Hscheme.
    change (lift (@inr exn _ scheme)) with (ret scheme).
    rewrite bind_ret_l, Hex, !bind_ret_l.
    cbn [app]. unfold wait. rewrite !set_order_one. cbn [for_each map].
    fold (refs_url url). rewrite Hr, set_order_one. reflexivity.
Qed.

Lemma agit_reads_no_answer_witness :
  agit git_world default_args git_pkgs
  = (inl AttributeError, [Request (refs_url "http://h/a") []]).
Proof.
  refine (proj2 (agit_reads_no_answer git_world default_args _)
            "a" _ "http://h/a" refs_a eq_refl _ eq_refl).
  exists [("primary", TStr "git"); ("url", TStr "http://h/a")], (PyStr.chars "http").
  repeat split; [left; reflexivity | left; reflexivity].
Defined.

(** X2.  The first half of C8 holds.  [agit] sends a request only for a
    package that names [git] as primary and whose [url] has scheme [http] or
    [https], namely to that url's ref advertisement; and only the name of
    such a package can be a key of what it returns. *)
Theorem agit_asks_http_remotes_only :
  forall (w : World) (args : options) (pkgs : catalog),
    (forall url headers,
        In (Request url headers) (trace (agit w args pkgs)) ->
        exists name remote, git_over_http pkgs name remote /\ url = refs_url remote)
    /\ (forall res,
          outcome (agit w args pkgs) = inr res ->
          forall name, In name (Dict.keys res) ->
                       exists remote, git_over_http pkgs name remote).
Proof.
  intros w args pkgs. destruct (agit_spec w args pkgs) as [Hev Hpost]. split.
  - intros url headers Hin. rewrite Forall_forall in Hev.
    destruct (Hev _ Hin) as [name [remote [Hg E]]]. injection E as -> _. eauto.
  - exact Hpost.
Qed.

(** X3.  A forge adapter that is given no package with an identifier of its
    own has no request to wait for: [asyncio.wait] refuses the empty list,
    and the adapter raises [ValueError] before sending anything. *)
Theorem forge_adapter_needs_a_package :
  forall (w : World) (args : options) (pkgs : catalog) (type field : string),
    Dict.mem args "github_token" = true ->
    (forall name pkg, In (name, pkg) pkgs ->
                      Py.truthy_opt (Dict.get pkg "github") = false) ->
    agithub w args pkgs type field = (inl ValueError, []).
Proof.
  intros w args pkgs type field Htok Hnone. unfold agithub, option_of.
  unfold Dict.mem in Htok. destruct (Dict.get args "github_token") as [tok |];
    [| discriminate]. rewrite bind_ret_l.
  match goal with |- context [wait w ?aws] => assert (E : aws = []) end.
  { induction pkgs as [| [name pkg] t IH]; [reflexivity |]. cbn [flat_map].
    rewrite IH by (intros n p Hin; apply (Hnone n p); right; exact Hin).
    pose proof (Hnone name pkg (or_introl eq_refl)) as H.
    destruct (Dict.get pkg "github") as [id_ |]; [| reflexivity].
    simpl in H. rewrite H. reflexivity. }
  rewrite E. reflexivity.
Qed.

Lemma forge_adapter_needs_a_package_witness :
  agithub aur_world default_args [("bar", [])] "releases" "tag_name"
  = (inl ValueError, []).
Proof.
  apply forge_adapter_needs_a_package.
  - reflexivity.
  - intros name pkg [H | []]. injection H as _ <-. reflexivity.
Defined.

End AdapterClaims.

(* ------------------------------------------------------------------ *)
(** ** The resolution orchestrator *)

Module RunFacts.
Import Hoare DictFacts AdapterFacts MergeFacts.

Definition is_stderr (e : event) : Prop := exists line, e = Stderr line.

(** An event other than the invocation of an adapter. *)
Definition plain (e : event) : Prop :=
  match e with
  | Invoke _ _ _ => False
  | _ => True
  end.

Lemma request_plain e : is_request e -> plain e.
Proof. intros [url [h ->]]. exact I. Qed.

Lemma stderr_plain e : is_stderr e -> plain e.
Proof. intros [line ->]. exact I. Qed.

(** The option [k] is set to a true, respectively false, value. *)
Definition enabled (args : options) (k : string) : Prop :=
  exists v, Dict.get args k = Some v /\ Py.truthy_opt v = true.
Definition disabled (args : options) (k : string) : Prop :=
  exists v, Dict.get args k = Some v /\ Py.truthy_opt v = false.

Lemma option_of_hoare E args k :
  hoare E (fun v => Dict.get args k = Some v) (option_of args k).
Proof.
  unfold option_of. destruct (Dict.get args k); [apply hoare_ret; reflexivity | apply hoare_raise].
Qed.

Lemma status_hoare {A B} args source (query : Dict.t A) (new : Dict.t B) all :
  hoare is_stderr any (status args source query new all).
Proof.
  unfold status, eprint.
  repeat (cbv beta; match goal with
  | |- hoare _ _ (ret _) => apply hoare_ret; exact I
  | |- hoare _ _ (emit _) => apply hoare_emit; [eexists; reflexivity | exact I]
  | |- hoare _ _ (option_of _ _) => apply option_of_quiet
  | |- hoare _ _ (bind _ _) => eapply (hoare_bind _ any); [| intros ? _]
  | |- hoare _ _ (match ?x with _ => _ end) => destruct x
  end).
Qed.


Section Orchestration.
Variables (w : World) (args : options) (c : catalog).

(** Events of one step of the secondary phase: the invocation of the source
    on the packages left, and plain events. *)
Definition step_event (s : source) (left : catalog) (e : event) : Prop :=
  plain e \/ e = Invoke Secondary (source_name s) left.

(** The state after one secondary source: the merge of what it returned, and
    the packages left according to the trust option. *)
Definition step_result (s : source) (vers : versions) (left : catalog)
  (st : versions * catalog) : Prop :=
  exists new ts,
    outcome (call w s args left) = inr new
    /\ Dict.get args "trust_secondary" = Some ts
    /\ fst st = update vers new
    /\ snd st = if Py.truthy_opt ts then not_in (update vers new) c else left.

Lemma get_secondary_source_hoare s vers left :
  hoare (step_event s left) (step_result s vers left)
    (get_secondary_source w args c s vers left).
Proof.
  unfold get_secondary_source.
  eapply (hoare_bind _ any).
  { apply hoare_emit; [| exact I]. right. reflexivity. }
  intros _ _. eapply hoare_bind.
  { apply hoare_outcome. eapply hoare_conseq; [apply call_hoare | | intros a Ha; exact Ha].
    intros e He. left. apply request_plain. exact He. }
  intros new [_ Hnew]. eapply (hoare_bind _ any).
  { apply hoare_emit; [| exact I]. left. exact I. }
  intros _ _. eapply (hoare_bind _ any).
  { eapply hoare_conseq; [apply status_hoare | | trivial].
    intros e He. left. apply stderr_plain. exact He. }
  intros _ _. eapply hoare_bind; [apply option_of_hoare |].
  intros ts Hts. cbv beta.
  destruct (Py.truthy_opt ts) eqn:Et; apply hoare_ret;
    exists new, ts; rewrite Et; auto.
Qed.

Lemma get_secondary_source_trace s vers left :
  exists t, trace (get_secondary_source w args c s vers left)
            = Invoke Secondary (source_name s) left :: t.
Proof.
  unfold get_secondary_source.
  rewrite bind_emit. cbn [trace snd]. eauto.
Qed.

(** A property [J] of the resolved map and of the packages left that every
    secondary source preserves holds throughout the loop, and the loop
    invokes sources only on states that satisfy it. *)
Section Invariant.
Variable J : versions -> catalog -> Prop.
Variable E : event -> Prop.
Hypothesis E_plain : forall e, plain e -> E e.
Hypothesis E_invoke :
  forall s vers left, J vers left -> E (Invoke Secondary (source_name s) left).
Hypothesis J_step :
  forall s vers left st,
    J vers left -> step_result s vers left st -> J (fst st) (snd st).

Definition holds (st : versions * catalog) : Prop := J (fst st) (snd st).

Lemma secondary_loop_hoare ss :
  forall vers left, J vers left ->
    hoare E holds (secondary_loop w args c ss vers left).
Proof.
  induction ss as [| s ss IH]; intros vers left HJ; simpl.
  - apply hoare_ret. exact HJ.
  - eapply hoare_bind.
    + eapply hoare_conseq; [apply get_secondary_source_hoare | | intros a Ha; exact Ha].
      intros e [He | ->]; eauto.
    + intros [vers' left'] Hst. pose proof (J_step _ _ _ _ HJ Hst) as HJ'.
      cbn [fst snd] in HJ'. destruct left' as [| p left'].
      * apply hoare_ret. exact HJ'.
      * apply IH. exact HJ'.
Qed.

Lemma run_secondary_hoare vers asked left l :
  J vers left -> hoare E holds (run_secondary w args c vers asked left l).
Proof.
  intros HJ. unfold run_secondary. destruct left as [| p left].
  - apply hoare_ret. exact HJ.
  - apply secondary_loop_hoare. exact HJ.
Qed.

Lemma get_secondary_hoare vers asked left :
  J vers left -> hoare E holds (get_secondary w args c vers asked left).
Proof.
  intros HJ. unfold get_secondary. eapply hoare_bind.
  - apply run_secondary_hoare. exact HJ.
  - intros [vers' left'] HJ'. apply run_secondary_hoare. exact HJ'.
Qed.

End Invariant.
End Orchestration.

Section Phases.
Variables (w : World) (args : options) (c : catalog).

Definition is_primary_invoke (e : event) : Prop :=
  exists k x, e = Invoke Primary k x.

Definition primary_event (e : event) : Prop :=
  plain e \/ is_primary_invoke e.

(** A package whose entry has a [primary] key. *)
Definition declares_primary (name : string) : Prop :=
  exists spec, In (name, spec) c /\ Dict.mem spec "primary" = true.

Lemma update_keys_inv old new k :
  In k (Dict.keys (update old new)) ->
  In k (Dict.keys old) \/ In k (Dict.keys new).
Proof.
  revert old. induction new as [| [k' v'] t IH]; intros old H; [left; exact H |].
  rewrite update_cons in H. destruct (IH _ H) as [H' | H'].
  - unfold merge1 in H'. destruct (Dict.get old k') as [ov |].
    + destruct (VersionOrder.gtb v' ov); [| left; exact H'].
      destruct (keys_set _ _ _ _ H') as [-> | H'']; [right; left; reflexivity | left; exact H''].
    + destruct (keys_set _ _ _ _ H') as [-> | H'']; [right; left; reflexivity | left; exact H''].
  - right. right. exact H'.
Qed.

Lemma groupby_members {A} (l : list (string * A)) k g :
  In (k, g) (groupby l) -> forall a, In a g -> exists k', In (k', a) l.
Proof.
  revert k g. induction l as [| [k0 a0] t IH]; intros k g H a Ha; [destruct H |].
  simpl in H. destruct (groupby t) as [| [k1 g1] gs] eqn:Eg.
  - destruct H as [H | []]. injection H as <- <-. destruct Ha as [<- | []].
    exists k0. left. reflexivity.
  - destruct (String.eqb k0 k1).
    + destruct H as [H | H].
      * injection H as <- <-. destruct Ha as [<- | Ha].
        -- exists k0. left. reflexivity.
        -- destruct (IH k1 g1 (or_introl eq_refl) a Ha) as [k' Hk']. exists k'. right. exact Hk'.
      * destruct (IH k g (or_intror H) a Ha) as [k' Hk']. exists k'. right. exact Hk'.
    + destruct H as [H | H].
      * injection H as <- <-. destruct Ha as [<- | []]. exists k0. left. reflexivity.
      * destruct (IH k g H a Ha) as [k' Hk']. exists k'. right. exact Hk'.
Qed.

Lemma primary_keys_hoare E (primary : list (string * pkgspec)) :
  hoare E (fun keyed => forall k item, In (k, item) keyed -> In item primary)
    (primary_keys primary).
Proof.
  unfold primary_keys. destruct (forallb primary_is_str primary).
  - apply hoare_ret. intros k item H. apply in_flat_map in H.
    destruct H as [item' [Hin H]].
    destruct (Dict.get (snd item') "primary") as [[s | |] |]; try destruct H.
    + injection H as _ <-. exact Hin.
    + destruct H.
  - destruct (existsb primary_is_str primary); apply hoare_raise.
Qed.

Lemma get_primary_hoare vers0 :
  hoare primary_event
    (fun st : versions * list string =>
       vers_le vers0 (fst st)
       /\ forall k, In k (Dict.keys (fst st)) ->
                    In k (Dict.keys vers0) \/ declares_primary k)
    (get_primary w args c vers0).
Proof.
  unfold get_primary.
  eapply hoare_bind; [apply primary_keys_hoare |].
  intros keyed Hkeyed. apply hoare_for_each.
  - split; [apply vers_le_refl | auto].
  - intros [vers asked] [k g] Hin [Hle Hkeys]. cbn [fst] in Hle, Hkeys.
    destruct (Dict.get sources k) as [s |]; [| apply hoare_raise].
    eapply (hoare_bind _ any).
    { apply hoare_emit; [| exact I]. right. eexists _, _. reflexivity. }
    intros _ _. eapply hoare_bind.
    { eapply hoare_conseq; [apply call_hoare | | intros a Ha; exact Ha].
      intros e He. left. apply request_plain. exact He. }
    intros new Hnew. eapply (hoare_bind _ any).
    { apply hoare_emit; [| exact I]. left. exact I. }
    intros _ _. eapply (hoare_bind _ any).
    { eapply hoare_conseq; [apply status_hoare | | trivial].
      intros e He. left. apply stderr_plain. exact He. }
    intros _ _. apply hoare_ret. cbn [fst]. split.
    + eapply vers_le_trans; [exact Hle | apply update_mono].
    + intros name Hname. destruct (update_keys_inv _ _ _ Hname) as [H | H]; [auto |].
      right. apply Hnew in H. apply keys_of_items in H.
      apply in_map_iff in H. destruct H as [[name' spec] [<- Hg]]. cbn [fst].
      destruct (groupby_members _ _ _ Hin _ Hg) as [k' Hk'].
      apply (Permutation_in _ (SortFacts.sorted_perm _ _)) in Hk'.
      apply Hkeyed in Hk'. apply filter_In in Hk'. destruct Hk' as [Hc Hp].
      exists spec. auto.
Qed.

Lemma primary_phase_hoare :
  hoare primary_event
    (fun st : versions * list string =>
       forall k, In k (Dict.keys (fst st)) -> declares_primary k)
    (primary_phase w args c).
Proof.
  unfold primary_phase. eapply (hoare_bind _ any); [apply option_of_quiet |].
  intros ap _. destruct (Py.truthy_opt ap).
  - eapply hoare_conseq; [apply get_primary_hoare | auto |].
    intros st [_ H] k Hk. destruct (H k Hk) as [[] | Hd]. exact Hd.
  - apply hoare_ret. intros k [].
Qed.

Lemma primary_phase_inv vers1 asked :
  outcome (primary_phase w args c) = inr (vers1, asked) ->
  exists ap,
    Dict.get args "primary" = Some ap
    /\ outcome (if Py.truthy_opt ap then get_primary w args c [] else ret ([], []))
       = inr (vers1, asked).
Proof.
  unfold primary_phase. rewrite outcome_bind. unfold option_of.
  destruct (Dict.get args "primary") as [ap |]; simpl; [| discriminate].
  intros H. exists ap. auto.
Qed.

Section Invariant.
Variable J : versions -> catalog -> Prop.
Variable E : event -> Prop.
Hypothesis E_plain : forall e, plain e -> E e.
Hypothesis E_primary : forall e, is_primary_invoke e -> E e.
Hypothesis E_invoke :
  forall s vers left, J vers left -> E (Invoke Secondary (source_name s) left).
Hypothesis J_step :
  forall s vers left st,
    J vers left -> step_result w args c s vers left st -> J (fst st) (snd st).

(** [J] holds at the end of the run if it holds when the secondary phase
    starts. *)
Lemma get_vers_hoare vers1 asked :
  outcome (primary_phase w args c) = inr (vers1, asked) ->
  (forall tp, Dict.get args "trust_primary" = Some tp ->
              J vers1 (if Py.truthy_opt tp then not_in vers1 c else c)) ->
  hoare E (fun st : versions * string => exists left, J (fst st) left)
    (get_vers w args c).
Proof.
  intros Hprim Hstart. destruct (primary_phase_inv _ _ Hprim) as [ap [Hap Hrun]].
  unfold get_vers.
  eapply hoare_bind; [apply option_of_hoare |]. intros ap' Hap'.
  assert (ap' = ap) by congruence. subst ap'.
  eapply (hoare_bind _ any); [apply option_of_quiet |]. intros asec _.
  eapply hoare_bind; [apply option_of_hoare |]. intros tp Htp.
  eapply hoare_bind.
  { apply hoare_outcome.
    instantiate (1 := fun _ => True).
    destruct (Py.truthy_opt ap).
    - eapply hoare_conseq; [apply (get_primary_hoare []) | | trivial].
      intros e [He | He]; auto.
    - apply hoare_ret. exact I. }
  intros [vers asked'] [_ Hout]. rewrite Hrun in Hout. injection Hout as <- <-.
  specialize (Hstart tp Htp).
  set (left := if Py.truthy_opt tp then not_in vers1 c else c) in *.
  eapply (hoare_bind _ (holds J)).
  { destruct left as [| p left'] eqn:El.
    - apply hoare_ret. exact Hstart.
    - destruct (Py.truthy_opt asec).
      + apply get_secondary_hoare; auto.
      + apply hoare_ret. exact Hstart. }
  intros [vers' left'] HJ. unfold holds in HJ. cbn [fst snd] in HJ.
  eapply (hoare_bind _ any).
  { destruct (String.eqb _ ""); [apply hoare_ret; exact I |].
    apply hoare_emit; [| exact I]. apply E_plain. exact I. }
  intros _ _. apply hoare_ret. exists left'. exact HJ.
Qed.

End Invariant.
End Phases.

Section Steps.
Variable w : World.

Lemma not_in_mem (vers : versions) (c : catalog) k :
  In k (Dict.keys vers) -> Dict.mem (not_in vers c) k = false.
Proof.
  intros Hk. destruct (Dict.mem (not_in vers c) k) eqn:E; trivial.
  apply mem_in_keys in E. unfold Dict.keys, not_in in E.
  apply in_map_iff in E. destruct E as [[k' v] [<- Hin]].
  apply filter_In in Hin. destruct Hin as [_ Hf]. cbn [fst] in Hk.
  apply mem_in_keys in Hk. rewrite Hk in Hf. discriminate Hf.
Qed.

Lemma keys_preserved args c s vers left st k :
  step_result w args c s vers left st ->
  In k (Dict.keys vers) -> In k (Dict.keys (fst st)).
Proof.
  intros [new [ts [_ [_ [-> _]]]]]. apply update_keys.
Qed.

End Steps.

(** *** The history of the resolved map *)

(** The values the resolved map takes during a run, in order. *)
Definition history (log : list event) : list versions :=
  flat_map (fun e => match e with Resolved v => [v] | _ => [] end) log.

Lemma history_app l1 l2 : history (l1 ++ l2) = history l1 ++ history l2.
Proof. apply flat_map_app. Qed.

(** Events that leave the resolved map alone. *)
Definition keeps (e : event) : Prop :=
  match e with
  | Resolved _ => False
  | _ => True
  end.

Lemma history_keeps log : Forall keeps log -> history log = [].
Proof.
  induction 1 as [| e t He _ IH]; [reflexivity |].
  simpl. rewrite IH. destruct e; trivial. destruct He.
Qed.

Lemma sorted_app {A} (R : A -> A -> Prop) l1 l2 :
  StronglySorted R l1 -> StronglySorted R l2 ->
  (forall x y, In x l1 -> In y l2 -> R x y) ->
  StronglySorted R (l1 ++ l2).
Proof.
  intros H1 H2 H. induction H1 as [| a t Ht IH Hall]; [exact H2 |].
  simpl. constructor.
  - apply IH. intros x y Hx. apply H. right. exact Hx.
  - apply Forall_app. split; [exact Hall |].
    apply Forall_forall. intros y Hy. apply H; [left; reflexivity | exact Hy].
Qed.

(** [climbs lo hi m]: started with the resolved map [lo], the computation [m]
    only ever raises it; if it returns [a], the map is [hi a] by then. *)
Definition climbs {A} (lo : versions) (hi : A -> versions) (m : M A) : Prop :=
  StronglySorted vers_le (history (trace m))
  /\ Forall (vers_le lo) (history (trace m))
  /\ forall a, outcome m = inr a ->
               vers_le lo (hi a)
               /\ Forall (fun v => vers_le v (hi a)) (history (trace m)).

Lemma climbs_still {A} lo (hi : A -> versions) (m : M A) :
  hoare keeps (fun a => vers_le lo (hi a)) m -> climbs lo hi m.
Proof.
  intros [Hk Hpost]. unfold climbs. rewrite (history_keeps _ Hk).
  split; [constructor |]. split; [constructor |].
  intros a Ha. split; [apply Hpost; exact Ha | constructor].
Qed.

Lemma climbs_bind {A B} lo (mid : A -> versions) (hi : B -> versions)
  (m : M A) (f : A -> M B) :
  climbs lo mid m ->
  (forall a, outcome m = inr a -> climbs (mid a) hi (f a)) ->
  climbs lo hi (bind m f).
Proof.
  intros [Hs [Hlo Hm]] Hf. destruct (outcome m) as [e | a] eqn:Eo.
  - rewrite (bind_fail m f e Eo). split; [exact Hs |]. split; [exact Hlo |].
    discriminate.
  - destruct (bind_run m f a Eo) as [Ho Ht]. unfold climbs. rewrite Ho, Ht, history_app.
    destruct (Hm a eq_refl) as [Hmid Hbelow].
    destruct (Hf a eq_refl) as [Hs' [Hlo' Hf']].
    rewrite Forall_forall in Hlo, Hbelow, Hlo'. split; [| split].
    + apply sorted_app; trivial. intros x y Hx Hy.
      eapply vers_le_trans; [apply Hbelow; exact Hx | apply Hlo'; exact Hy].
    + apply Forall_app. split; apply Forall_forall; intros y Hy; [auto |].
      eapply vers_le_trans; [exact Hmid | apply Hlo'; exact Hy].
    + intros b Hb. destruct (Hf' b Hb) as [Hhi Hbelow'].
      rewrite Forall_forall in Hbelow'. split.
      * eapply vers_le_trans; eassumption.
      * apply Forall_app. split; apply Forall_forall; intros y Hy; [| auto].
        eapply vers_le_trans; [apply Hbelow; exact Hy |].
        exact Hhi.
Qed.

Lemma climbs_for_each {A S} (proj : S -> versions) (l : list A)
  (body : S -> A -> M S) :
  (forall s a, In a l -> climbs (proj s) proj (body s a)) ->
  forall s, climbs (proj s) proj (for_each l s body).
Proof.
  induction l as [| a t IH]; intros Hbody s; simpl.
  - apply climbs_still. apply hoare_ret. apply vers_le_refl.
  - eapply climbs_bind.
    + apply Hbody. left. reflexivity.
    + intros s' _. apply IH. intros s0 a0 Hin. apply Hbody. right. exact Hin.
Qed.

Lemma climbs_lower {A} lo lo' (hi : A -> versions) (m : M A) :
  vers_le lo' lo -> climbs lo hi m -> climbs lo' hi m.
Proof.
  intros Hle [Hs [Hlo Hm]]. split; [exact Hs |]. split.
  - eapply Forall_impl; [| exact Hlo]. intros v. apply vers_le_trans. exact Hle.
  - intros a Ha. destruct (Hm a Ha) as [H1 H2]. split; [| exact H2].
    eapply vers_le_trans; eassumption.
Qed.

(** Recording a merge. *)
Lemma climbs_resolved lo v :
  vers_le lo v -> climbs lo (fun _ : unit => v) (emit (Resolved v)).
Proof.
  intros Hle. unfold climbs. cbn. repeat split.
  - repeat constructor.
  - repeat constructor. exact Hle.
  - exact Hle.
  - repeat constructor. apply vers_le_refl.
Qed.

Lemma request_keeps e : is_request e -> keeps e.
Proof. intros [url [h ->]]. exact I. Qed.

Lemma stderr_keeps e : is_stderr e -> keeps e.
Proof. intros [line ->]. exact I. Qed.

Section Climbing.
Variables (w : World) (args : options) (c : catalog).

(** The part shared by both phases: call the adapter, merge, record, report. *)
Lemma climbs_merge {B} s pkgs vers src (k : versions -> M B) (hi : B -> versions) :
  (forall v, vers_le vers v -> climbs v hi (k v)) ->
  climbs vers hi
    (new <- call w s args pkgs ;;
     let vers := update vers new in
     emit (Resolved vers) ;;;
     status args src pkgs new (List.length vers) ;;;
     k vers).
Proof.
  intros Hk. eapply (climbs_bind _ (fun _ => vers)).
  { apply climbs_still. eapply hoare_conseq; [apply call_hoare | |].
    - apply request_keeps.
    - intros. apply vers_le_refl. }
  intros new _. cbv zeta.
  eapply climbs_bind; [apply climbs_resolved; apply update_mono |].
  intros ? _. eapply (climbs_bind _ (fun _ => update vers new)).
  { apply climbs_still. eapply hoare_conseq; [apply status_hoare | |].
    - apply stderr_keeps.
    - intros. apply vers_le_refl. }
  intros ? _. apply Hk. apply update_mono.
Qed.

Lemma get_secondary_source_climbs s vers left :
  climbs vers fst (get_secondary_source w args c s vers left).
Proof.
  unfold get_secondary_source. eapply (climbs_bind _ (fun _ => vers)).
  { apply climbs_still. apply hoare_emit; [exact I | apply vers_le_refl]. }
  intros ? _. apply (climbs_merge s left vers (source_name s)
                       (fun vers =>
                          arg_trust_secondary <- option_of args "trust_secondary" ;;
                          if Py.truthy_opt arg_trust_secondary
                          then ret (vers, not_in vers c)
                          else ret (vers, left))).
  intros v _. eapply (climbs_bind _ (fun _ => v)).
  { apply climbs_still. eapply hoare_conseq; [apply (option_of_quiet keeps) | auto |].
    intros. apply vers_le_refl. }
  intros ts _. apply climbs_still.
  destruct (Py.truthy_opt ts); apply hoare_ret; apply vers_le_refl.
Qed.

Lemma secondary_loop_climbs ss :
  forall vers left, climbs vers fst (secondary_loop w args c ss vers left).
Proof.
  induction ss as [| s ss IH]; intros vers left; simpl.
  - apply climbs_still. apply hoare_ret. apply vers_le_refl.
  - eapply climbs_bind; [apply get_secondary_source_climbs |].
    intros [vers' left'] _. cbn [fst]. destruct left'.
    + apply climbs_still. apply hoare_ret. apply vers_le_refl.
    + apply IH.
Qed.

Lemma run_secondary_climbs vers asked left l :
  climbs vers fst (run_secondary w args c vers asked left l).
Proof.
  unfold run_secondary. destruct left.
  - apply climbs_still. apply hoare_ret. apply vers_le_refl.
  - apply secondary_loop_climbs.
Qed.

Lemma get_secondary_climbs vers asked left :
  climbs vers fst (get_secondary w args c vers asked left).
Proof.
  unfold get_secondary. eapply climbs_bind; [apply run_secondary_climbs |].
  intros [vers' left'] _. apply run_secondary_climbs.
Qed.

Lemma get_primary_climbs vers :
  climbs vers fst (get_primary w args c vers).
Proof.
  unfold get_primary. eapply (climbs_bind _ (fun _ => vers)).
  { apply climbs_still. eapply hoare_conseq; [apply (primary_keys_hoare keeps) | auto |].
    intros. apply vers_le_refl. }
  intros keyed _.
  apply (climbs_for_each (fun st : versions * list string => fst st)).
  intros [vers0 asked] [k g] _. cbn [fst].
  destruct (Dict.get sources k) as [s |];
    [| apply climbs_still; apply hoare_raise].
  eapply (climbs_bind _ (fun _ => vers0)).
  { apply climbs_still. apply hoare_emit; [exact I | apply vers_le_refl]. }
  intros ? _. apply (climbs_merge s (Dict.of_items g) vers0 k
                       (fun vers => ret (vers, set_add k asked))).
  intros v _. apply climbs_still. apply hoare_ret. apply vers_le_refl.
Qed.

Lemma get_vers_climbs : climbs [] fst (get_vers w args c).
Proof.
  unfold get_vers.
  assert (Hq : forall E k, hoare E (fun _ => vers_le [] []) (option_of args k)).
  { intros E k. eapply hoare_conseq; [apply (option_of_quiet E) | auto |].
    intros. apply vers_le_refl. }
  eapply (climbs_bind _ (fun _ => [])); [apply climbs_still, Hq |]. intros ap _.
  eapply (climbs_bind _ (fun _ => [])); [apply climbs_still, Hq |]. intros asec _.
  eapply (climbs_bind _ (fun _ => [])); [apply climbs_still, Hq |]. intros tp _.
  eapply (climbs_bind _ fst).
  { destruct (Py.truthy_opt ap).
    - apply get_primary_climbs.
    - apply climbs_still. apply hoare_ret. apply vers_le_refl. }
  intros [vers asked] _. cbn [fst].
  eapply (climbs_bind _ fst).
  { destruct (if Py.truthy_opt tp then not_in vers c else c) eqn:El.
    - apply climbs_still. apply hoare_ret. apply vers_le_refl.
    - destruct (Py.truthy_opt asec).
      + apply get_secondary_climbs.
      + apply climbs_still. apply hoare_ret. apply vers_le_refl. }
  intros [vers' left'] _. cbn [fst].
  eapply (climbs_bind _ (fun _ => vers')).
  { apply climbs_still. destruct (String.eqb _ "").
    - apply hoare_ret. apply vers_le_refl.
    - apply hoare_emit; [exact I | apply vers_le_refl]. }
  intros ? _. apply climbs_still. apply hoare_ret. apply vers_le_refl.
Qed.

End Climbing.

End RunFacts.

Module RunClaims.
Import Hoare DictFacts AdapterFacts MergeFacts RunFacts Examples.

(** Each step of the run leaves the resolved map nowhere lower. *)
Lemma steps_monotone :
  (forall w args c s vers left vers' left',
      outcome (get_secondary_source w args c s vers left) = inr (vers', left') ->
      vers_le vers vers')
  /\ (forall w args c vers vers' asked,
        outcome (get_primary w args c vers) = inr (vers', asked) ->
        vers_le vers vers')
  /\ (forall w args c vers asked left vers' left',
        outcome (get_secondary w args c vers asked left) = inr (vers', left') ->
        vers_le vers vers').
Proof.
  split; [| split].
  - intros w args c s vers left vers' left' H.
    destruct (get_secondary_source_climbs w args c s vers left) as [_ [_ Hpost]].
    exact (proj1 (Hpost _ H)).
  - intros w args c vers vers' asked H.
    destruct (get_primary_climbs w args c vers) as [_ [_ Hpost]].
    exact (proj1 (Hpost _ H)).
  - intros w args c vers asked left vers' left' H.
    destruct (get_secondary_climbs w args c vers asked left) as [_ [_ Hpost]].
    exact (proj1 (Hpost _ H)).
Qed.

(** C2.  The resolved map is monotone under merge: every key of [old] is a
    key of [update old new], with a value that is not below the old one.
    Consequently, over a whole run: the values the resolved map takes, in the
    order in which the run assigns them, form a chain for [vers_le], where
    [vers_le a b] says that every name [a] maps to some [V] is mapped by [b]
    to a value not strictly less than [V]; this holds for every run, also one
    cut short by an exception.  When the run returns, the map it returns is
    above every map of that chain. *)
Theorem resolved_map_monotone :
  (forall (old new : versions) k v,
      Dict.get old k = Some v ->
      exists v', Dict.get (update old new) k = Some v' /\ VersionOrder.le v v')
  /\ (forall w args c,
        StronglySorted vers_le (history (trace (get_vers w args c))))
  /\ (forall w args c vers left,
        outcome (get_vers w args c) = inr (vers, left) ->
        Forall (fun earlier => vers_le earlier vers)
               (history (trace (get_vers w args c)))).
Proof.
  split; [exact update_mono |]. split.
  - intros w args c. exact (proj1 (get_vers_climbs w args c)).
  - intros w args c vers left H.
    destruct (get_vers_climbs w args c) as [_ [_ Hpost]].
    exact (proj2 (Hpost _ H)).
Qed.

Lemma resolved_map_monotone_witness :
  List.length (history (trace (get_vers forge_world untrusting_args multi_cat))) = 4
  /\ StronglySorted vers_le
       (history (trace (get_vers forge_world untrusting_args multi_cat))).
Proof.
  split.
  - vm_compute. reflexivity.
  - exact (proj1 (proj2 resolved_map_monotone) forge_world untrusting_args multi_cat).
Defined.

(** C3.  With [trust_primary] set, a package [P] that the primary phase has
    resolved is in the eligible set of no secondary invocation of the run,
    whether the run ends normally or is cut short by an exception.  A package
    the primary phase resolves always is one that declares a primary source,
    which is the first conclusion. *)
Theorem trusted_primary_not_requeried :
  forall (w : World) (args : options) (c : catalog) (vers1 : versions)
         (asked : list string) (P : string),
    enabled args "trust_primary" ->
    outcome (primary_phase w args c) = inr (vers1, asked) ->
    In P (Dict.keys vers1) ->
    declares_primary c P
    /\ forall src pkgs,
         In (Invoke Secondary src pkgs) (trace (get_vers w args c)) ->
         Dict.mem pkgs P = false.
Proof.
  intros w args c vers1 asked P [tp [Htp Hon]] Hprim HP. split.
  { destruct (primary_phase_hoare w args c) as [_ Hpost].
    apply (Hpost _ Hprim). exact HP. }
  pose (J := fun (vers : versions) (left : catalog) =>
          In P (Dict.keys vers) /\ Dict.mem left P = false).
  pose (E := fun e : event =>
          forall src pkgs, e = Invoke Secondary src pkgs -> Dict.mem pkgs P = false).
  assert (Hrun : hoare E (fun st : versions * string => exists left, J (fst st) left)
                   (get_vers w args c)).
  { apply (get_vers_hoare w args c J E) with (vers1 := vers1) (asked := asked).
    - intros e He src pkgs ->. destruct He.
    - intros e [k [x ->]] src pkgs H. discriminate H.
    - intros s vers left [_ Hl] src pkgs H. injection H as _ <-. exact Hl.
    - intros s vers left st [Hv Hl] Hst. split.
      + eapply keys_preserved; eassumption.
      + destruct Hst as [new [ts [_ [_ [Hf ->]]]]].
        destruct (Py.truthy_opt ts); [| exact Hl].
        apply not_in_mem. apply update_keys. exact Hv.
    - exact Hprim.
    - intros tp' Htp'. assert (tp' = tp) by congruence. subst tp'.
      rewrite Hon. split; [exact HP | apply not_in_mem; exact HP]. }
  destruct Hrun as [Hev _]. intros src pkgs Hin.
  rewrite Forall_forall in Hev. exact (Hev _ Hin src pkgs eq_refl).
Qed.

Section Untrusted.
Variables (w : World) (args : options) (c : catalog).
Hypothesis Hoff : disabled args "trust_secondary".

(** What the end of the phase owes to one source: it was invoked on [left],
    it returned, and no value it returned exceeds the final one. *)
Definition covered (left : catalog) (log : list event) (final : versions)
  (s : source) : Prop :=
  In (Invoke Secondary (source_name s) left) log
  /\ exists new,
       outcome (call w s args left) = inr new
       /\ forall P v, Dict.get new P = Some v ->
                      exists v', Dict.get final P = Some v' /\ VersionOrder.le v v'.

Lemma covered_later left log log' final final' s :
  covered left log final s -> vers_le final final' ->
  covered left (log' ++ log) final' s.
Proof.
  intros [Hin [new [Hnew Hle]]] Hmono. split.
  - apply in_or_app. right. exact Hin.
  - exists new. split; [exact Hnew |]. intros P v Hv.
    destruct (Hle P v Hv) as [v1 [H1 L1]]. destruct (Hmono P v1 H1) as [v2 [H2 L2]].
    exists v2. split; [exact H2 | eapply VersionFacts.le_trans; eassumption].
Qed.

Lemma covered_earlier left log log' final final' s :
  covered left log final s -> vers_le final final' ->
  covered left (log ++ log') final' s.
Proof.
  intros [Hin [new [Hnew Hle]]] Hmono. split.
  - apply in_or_app. left. exact Hin.
  - exists new. split; [exact Hnew |]. intros P v Hv.
    destruct (Hle P v Hv) as [v1 [H1 L1]]. destruct (Hmono P v1 H1) as [v2 [H2 L2]].
    exists v2. split; [exact H2 | eapply VersionFacts.le_trans; eassumption].
Qed.

Lemma untrusted_loop ss :
  forall vers left vers' left',
    left <> [] ->
    outcome (secondary_loop w args c ss vers left) = inr (vers', left') ->
    left' = left /\ vers_le vers vers'
    /\ forall s, In s ss ->
                 covered left (trace (secondary_loop w args c ss vers left)) vers' s.
Proof.
  induction ss as [| s ss IH]; intros vers left vers' left' Hne H.
  - simpl in H. injection H as <- <-.
    split; [reflexivity |]. split; [apply vers_le_refl | intros s []].
  - cbn [secondary_loop] in *. apply bind_inr in H.
    destruct H as [[vers1 left1] [Hstep [H T]]]. rewrite T. clear T.
    destruct (get_secondary_source_hoare w args c s vers left) as [_ Hpost].
    destruct (Hpost _ Hstep) as [new [ts [Hnew [Hts [Hv Hl]]]]].
    cbn [fst snd] in Hv, Hl. destruct Hoff as [ts' [Hts' Hfalse]].
    assert (ts = ts') by congruence. subst ts'. rewrite Hfalse in Hl. subst left1 vers1.
    destruct left as [| p left0]; [congruence |].
    destruct (IH _ _ _ _ Hne H) as [Hleft [Hmono Hcov]].
    split; [exact Hleft |]. split.
    + eapply vers_le_trans; [apply update_mono | exact Hmono].
    + intros s' [<- | Hs'].
      * apply covered_earlier with (final := update vers new); [| exact Hmono].
        split.
        -- destruct (get_secondary_source_trace w args c s vers (p :: left0)) as [t ->].
           left. reflexivity.
        -- exists new. split; [exact Hnew |]. intros P v. apply update_above_new.
      * apply covered_later with (final := vers'); [| apply vers_le_refl].
        apply Hcov. exact Hs'.
Qed.

End Untrusted.

Lemma run_secondary_loop w args c vers asked left l :
  left <> [] ->
  run_secondary w args c vers asked left l
  = secondary_loop w args c
      (filter (fun x => l (source_name x) asked) sources_list) vers left.
Proof. destruct left; [congruence | reflexivity]. Qed.

(** X23.  With [trust_secondary] off and a non-empty set [left]: every source
    the secondary phase invokes is invoked on [left] itself, resolved
    packages included; and when the phase returns, [left] is unchanged, every
    source of [sources_list] has been invoked on it and has returned, and for
    every package the final value is not strictly below the value any one of
    these sources returned for it. *)
Theorem untrusted_secondary_requeries_all :
  forall (w : World) (args : options) (c : catalog) (vers : versions)
         (asked : list string) (left : catalog),
    disabled args "trust_secondary" ->
    left <> [] ->
    (forall src pkgs,
        In (Invoke Secondary src pkgs)
           (trace (get_secondary w args c vers asked left)) ->
        pkgs = left)
    /\ (forall vers' left',
          outcome (get_secondary w args c vers asked left) = inr (vers', left') ->
          left' = left
          /\ forall s, In s sources_list ->
               In (Invoke Secondary (source_name s) left)
                  (trace (get_secondary w args c vers asked left))
               /\ exists new,
                    outcome (call w s args left) = inr new
                    /\ forall P v, Dict.get new P = Some v ->
                         exists v', Dict.get vers' P = Some v'
                                    /\ VersionOrder.le v v').
Proof.
  intros w args c vers asked left Hoff Hne. split.
  - pose (E := fun e : event =>
            forall src pkgs, e = Invoke Secondary src pkgs -> pkgs = left).
    destruct (get_secondary_hoare w args c (fun _ l => l = left) E) with
      (vers := vers) (asked := asked) (left := left) as [Hev _].
    + intros e He src pkgs ->. destruct He.
    + intros s v l -> src pkgs H. injection H as _ <-. reflexivity.
    + intros s v l st -> [new [ts [_ [Hts [_ ->]]]]].
      destruct Hoff as [ts' [Hts' Hfalse]].
      assert (ts = ts') by congruence. subst ts'. rewrite Hfalse. reflexivity.
    + reflexivity.
    + intros src pkgs Hin. rewrite Forall_forall in Hev.
      exact (Hev _ Hin src pkgs eq_refl).
  - intros vers' left' H. unfold get_secondary in *.
    apply bind_inr in H. destruct H as [[vers1 left1] [H1 [H2 T]]]. rewrite T. clear T.
    rewrite (run_secondary_loop w args c _ _ _ _ Hne) in H1 |- *.
    destruct (untrusted_loop w args c Hoff _ _ _ _ _ Hne H1) as [-> [Hm1 Hc1]].
    rewrite (run_secondary_loop w args c _ _ _ _ Hne) in H2 |- *.
    destruct (untrusted_loop w args c Hoff _ _ _ _ _ Hne H2) as [-> [Hm2 Hc2]].
    split; [reflexivity |]. intros s Hs.
    destruct (name_in (source_name s) asked) eqn:Ea.
    + apply (covered_later w args) with (final := vers'); [| apply vers_le_refl].
      apply Hc2. apply filter_In. split; [exact Hs | exact Ea].
    + apply (covered_earlier w args) with (final := vers1); [| exact Hm2].
      apply Hc1. apply filter_In. split; [exact Hs | rewrite Ea; reflexivity].
Qed.


Lemma unknown_key_raises (args : options) (keys : list string) k :
  In k keys -> Dict.mem args k = false ->
  for_each keys tt (fun _ k => if Dict.mem args k then ret tt else raise KeyError)
  = (inl KeyError, []).
Proof.
  induction keys as [| k0 t IH]; intros Hin Hk; [destruct Hin |].
  cbn [for_each]. destruct (Dict.mem args k0) eqn:E0.
  - destruct Hin as [-> | Hin]; [congruence |].
    rewrite bind_ret_l. exact (IH Hin Hk).
  - reflexivity.
Qed.

Lemma kwargs_keys f : Dict.keys (kwargs_of f) = option_names.
Proof. reflexivity. Qed.

(** C9.  When the options block of the document has a key that is not one
    of the recognized option names, [read_config] raises [KeyError], and so
    does [cli], with an empty trace: no request was sent and no source
    adapter was invoked. *)
Theorem unknown_option_is_fatal :
  forall (w : World) (c : Dict.t pkgspec) (f : flags) (jc : Dict.t tomlval)
         (k : string),
    Dict.get c "johnny_config" = Some jc ->
    In k (Dict.keys jc) ->
    ~ In k option_names ->
    read_config (kwargs_of f) jc = (inl KeyError, [])
    /\ cli w c (kwargs_of f) = (inl KeyError, []).
Proof.
  intros w c f jc k Hjc Hk Hnot.
  assert (Hmem : Dict.mem (kwargs_of f) k = false).
  { destruct (Dict.mem (kwargs_of f) k) eqn:E; trivial.
    apply mem_in_keys in E. rewrite kwargs_keys in E. contradiction. }
  assert (Hread : read_config (kwargs_of f) jc = (inl KeyError, [])).
  { unfold read_config. rewrite (unknown_key_raises _ _ k Hk Hmem). reflexivity. }
  split; [exact Hread |].
  unfold cli. rewrite Hjc, Hread. reflexivity.
Qed.

Lemma unknown_option_is_fatal_witness :
  cli aur_world bad_doc (kwargs_of no_flags) = (inl KeyError, []).
Proof.
  apply (unknown_option_is_fatal aur_world bad_doc no_flags
           [("bogus", TBool true)] "bogus").
  - reflexivity.
  - simpl. left. reflexivity.
  - simpl. intros H. repeat (destruct H as [H | H]; [discriminate H |]). exact H.
Defined.


Lemma enabled_default : enabled default_args "trust_primary".
Proof. exists (Some (TBool true)). split; reflexivity. Defined.

Lemma trusted_primary_not_requeried_witness :
  Dict.mem [("bar", [("aur", TStr "bar")])] "foo" = false.
Proof.
  refine (proj2 (trusted_primary_not_requeried forge_world default_args primary_cat
                   [("foo", ParserClaims.rel [1; 0; 0]%N)] ["github"] "foo"
                   enabled_default _ _)
                "gitlab" [("bar", [("aur", TStr "bar")])] _).
  - vm_compute. reflexivity.
  - simpl. left. reflexivity.
  - vm_compute. auto 10.
Defined.

Lemma untrusted_secondary_requeries_all_witness :
  In (Invoke Secondary "arch" multi_cat)
     (trace (get_secondary forge_world untrusting_args multi_cat [] [] multi_cat)).
Proof.
  assert (Hoff : disabled untrusting_args "trust_secondary").
  { exists (Some (TBool false)). split; reflexivity. }
  assert (Hne : multi_cat <> []) by discriminate.
  refine (proj1 (proj2 (proj2 (untrusted_secondary_requeries_all forge_world
                                 untrusting_args multi_cat [] [] multi_cat Hoff Hne)
                                [("foo", ParserClaims.rel [1; 2; 0]%N)] multi_cat _)
                       Arch _)).
  - vm_compute. reflexivity.
  - simpl. auto.
Defined.

(** A catalog whose only package carries no identifier: the first
    secondary source is the github adapter, which raises (X3); the run ends
    with that exception, in every world, and prints no result. *)
Theorem run_without_identifiers_raises :
  forall w : World,
    cli w [("bar", [])] (kwargs_of no_flags)
    = (inl ValueError, [Invoke Secondary "github" [("bar", [])]]).
Proof. intros w. reflexivity. Qed.

(** One package with a forge identifier and no primary source, the forge
    answering tags [v1.0.0] and [v0.9.0]: the run prints [foo -> 1.0.0] and
    exits with status 0. *)
Theorem run_with_forge_identifier :
  cli forge_world [("foo", [("github", TStr "a/b")])] (kwargs_of no_flags)
  = (inr 0,
     [Invoke Secondary "github" [("foo", [("github", TStr "a/b")])];
      Request "https://api.github.com/repos/a/b/releases" [];
      Resolved [("foo", ParserClaims.rel [1; 0; 0]%N)];
      Stderr "Asking github for 1 packages, found 1, total: 1";
      Stdout [("foo", "1.0.0")]]).
Proof. vm_compute. reflexivity. Qed.

End RunClaims.

(* ------------------------------------------------------------------ *)
(** ** Lines of a ref advertisement *)

Module RefLineFacts.
Import PyStr GitRefs.

(** The head of [l], if any, fails [p]. *)
Definition halts {A} (p : A -> bool) (l : list A) : Prop :=
  match l with
  | [] => True
  | x :: _ => p x = false
  end.

Lemma span_app {A} (p : A -> bool) a b :
  forallb p a = true -> halts p b -> span p (a ++ b) = (a, b).
Proof.
  intros Ha Hb. induction a as [| x a IH]; simpl in *.
  - destruct b as [| y b]; [reflexivity |]. simpl in Hb. simpl. rewrite Hb. reflexivity.
  - apply andb_true_iff in Ha. destruct Ha as [Hx Ha]. rewrite Hx, (IH Ha). reflexivity.
Qed.

Lemma span_inv {A} (p : A -> bool) l a b :
  span p l = (a, b) -> l = a ++ b /\ forallb p a = true /\ halts p b.
Proof.
  revert a b. induction l as [| x l IH]; intros a b H; simpl in H.
  - injection H as <- <-. repeat split.
  - destruct (p x) eqn:Hx.
    + destruct (span p l) as [a' b'] eqn:Es. injection H as <- <-.
      destruct (IH a' b' eq_refl) as [-> [Ha Hb]]. simpl. rewrite Hx, Ha. auto.
    + injection H as <- <-. simpl. auto.
Qed.

Lemma eat_app kw rest : eat kw (kw ++ rest) = Some rest.
Proof.
  induction kw as [| k kw IH]; simpl; [reflexivity |].
  rewrite Ascii.eqb_refl. exact IH.
Qed.

Lemma eat_inv kw l rest : eat kw l = Some rest -> l = kw ++ rest.
Proof.
  revert l. induction kw as [| k kw IH]; intros l H; simpl in H.
  - injection H as ->. reflexivity.
  - destruct l as [| c l]; [discriminate |].
    destruct (Ascii.eqb k c) eqn:E; [| discriminate].
    apply Ascii.eqb_eq in E. subst c. simpl. f_equal. apply IH. exact H.
Qed.

Lemma space_not_hex c : is_space c = true -> is_hex c = false.
Proof.
  destruct c as [[] [] [] [] [] [] [] []]; vm_compute; congruence.
Qed.

(** The three ways a matching line may end after the tag name. *)
Definition line_end (tail : list ascii) : Prop :=
  tail = [] \/ tail = chars "^{}" \/ tail = chars "^{}" ++ [ascii_nl].

(** X4.  [git_get_version] returns [tag] exactly for the lines
    [<hex digits><white space>refs/tags/<tag>], optionally followed by the
    peel marker [^{}] and then by one newline, where [tag] is not empty and
    holds neither [/] nor [^].  The line of a tag and the line of its peeled
    object give the same name; a ref outside [refs/tags/], or a tag inside a
    directory, gives none. *)
Theorem git_get_version_spec :
  forall line tag : list ascii,
    git_get_version line = Some tag
    <-> exists hex ws tail,
          line = hex ++ ws ++ chars "refs/tags/" ++ tag ++ tail
          /\ hex <> [] /\ forallb is_hex hex = true
          /\ ws <> [] /\ forallb is_space ws = true
          /\ tag <> [] /\ forallb is_name_char tag = true
          /\ line_end tail.
Proof.
  intros line tag. split.
  - unfold git_get_version.
    destruct (span is_hex line) as [hex l1] eqn:E1.
    destruct hex as [| h hex]; [discriminate |].
    destruct (span is_space l1) as [ws l2] eqn:E2.
    destruct ws as [| s ws]; [discriminate |].
    destruct (eat (chars "refs/tags/") l2) as [l3 |] eqn:E3; [| discriminate].
    destruct (span is_name_char l3) as [name suffix] eqn:E4.
    destruct name as [| n name]; [discriminate |].
    apply span_inv in E1, E2, E4. apply eat_inv in E3.
    destruct E1 as [-> [Hhex _]]. destruct E2 as [-> [Hws _]].
    destruct E4 as [E4 [Hname _]]. subst l2 l3.
    intros H.
    assert (Hres : tag = n :: name /\ line_end suffix).
    { destruct suffix as [| c suffix].
      - injection H as <-. split; [reflexivity | left; reflexivity].
      - destruct (eat (chars "^{}") (c :: suffix)) as [r |] eqn:E5; [| discriminate].
        apply eat_inv in E5. rewrite E5.
        destruct r as [| d [| d' r]]; try discriminate.
        + injection H as <-. split; [reflexivity | right; left; apply app_nil_r].
        + destruct (Ascii.eqb d ascii_nl) eqn:Ed; [| discriminate].
          apply Ascii.eqb_eq in Ed. subst d. injection H as <-.
          split; [reflexivity | right; right; reflexivity]. }
    destruct Hres as [-> Hend]. exists (h :: hex), (s :: ws), suffix.
    repeat split; trivial; discriminate.
  - intros [hex [ws [tail [-> [Hh [Hhex [Hw [Hws [Ht [Htag Hend]]]]]]]]]].
    unfold git_get_version.
    rewrite (span_app is_hex hex); trivial.
    2:{ destruct ws as [| s ws]; [congruence |]. simpl in *.
        apply andb_true_iff in Hws. apply space_not_hex. apply Hws. }
    destruct hex as [| h hex]; [congruence |].
    rewrite (span_app is_space ws); trivial; [| reflexivity].
    destruct ws as [| s ws]; [congruence |].
    rewrite eat_app.
    rewrite (span_app is_name_char tag); trivial.
    2:{ destruct Hend as [-> | [-> | ->]]; reflexivity. }
    destruct tag as [| n tag]; [congruence |].
    destruct Hend as [-> | [-> | ->]]; reflexivity.
Qed.

End RefLineFacts.

(* ------------------------------------------------------------------ *)
(** ** Printing a normalized version and reading it again *)

Module PrintFacts.
Import PyStr PkgVersion ParserFacts ParserClaims.

(** A record that [try_parse_versions] can produce. *)
Definition normalized (v : Version) : Prop :=
  exists raw, parse_one raw = Some v.

Lemma normalized_base v :
  normalized v -> v = base v /\ release v <> [].
Proof.
  intros [raw H]. rewrite parse_one_spec in H.
  destruct (parse _) as [v0 |] eqn:E; [| discriminate]. injection H as <-.
  split; [reflexivity |]. cbn [base release]. eapply parse_chars_release. exact E.
Qed.

Lemma in_normalized_records raws v :
  In v (normalized_records raws) -> normalized v.
Proof.
  unfold normalized_records. intros H. apply in_flat_map in H.
  destruct H as [raw [_ H]]. exists raw. rewrite parse_one_spec.
  destruct (parse _) as [v0 |]; [| destruct H].
  destruct H as [<- | []]. reflexivity.
Qed.

Lemma in_try_parse_versions raws v :
  In v (try_parse_versions raws) -> normalized v.
Proof.
  intros H. apply (in_normalized_records raws).
  unfold try_parse_versions in H. rewrite collected in H. cbn [app] in H.
  eapply Permutation_in; [apply SortFacts.sorted_perm | exact H].
Qed.

Definition not_v (c : ascii) : bool := negb (Ascii.eqb "v"%char c).

Lemma digit_not_v' c : is_digit c = true -> not_v c = true.
Proof. ascii_cases c. Qed.

Lemma digits_not_v ds : forallb is_digit ds = true -> forallb not_v ds = true.
Proof.
  induction ds as [| d ds IH]; simpl; [reflexivity |].
  intros H. apply andb_true_iff in H. destruct H as [Hd Hds].
  rewrite (digit_not_v' d Hd), (IH Hds). reflexivity.
Qed.

Lemma join_not_v (r : list N) :
  forallb not_v (join ["."%char] (map str_of_N r)) = true.
Proof.
  induction r as [| n r IH]; [reflexivity |].
  destruct r as [| m r].
  - simpl. apply digits_not_v. apply str_of_N_digits.
  - change (join ["."%char] (map str_of_N (n :: m :: r)))
      with (str_of_N n ++ ["."%char] ++ join ["."%char] (map str_of_N (m :: r))).
    rewrite !forallb_app, IH, (digits_not_v _ (str_of_N_digits n)). reflexivity.
Qed.

Lemma base_chars_not_v v : forallb not_v (base_chars v) = true.
Proof.
  unfold base_chars. rewrite forallb_app, join_not_v, andb_true_r.
  destruct (epoch v =? 0)%N; [reflexivity |].
  rewrite forallb_app, (digits_not_v _ (str_of_N_digits _)). reflexivity.
Qed.

Lemma drop_while_none l :
  forallb not_v l = true -> drop_while (Ascii.eqb "v"%char) l = l.
Proof.
  destruct l as [| c l]; [reflexivity |]. cbn [drop_while forallb]. unfold not_v at 1.
  destruct (Ascii.eqb "v"%char c); cbn [negb andb]; [discriminate | reflexivity].
Qed.

(** [strip("v")] leaves a string without [v] alone. *)
Lemma strip_none l : forallb not_v l = true -> strip_char "v"%char l = l.
Proof.
  intros H. unfold strip_char. rewrite (drop_while_none l H).
  rewrite drop_while_none; [apply rev_involutive |].
  apply forallb_forall. intros c Hc. apply in_rev in Hc.
  rewrite forallb_forall in H. apply H. exact Hc.
Qed.

Lemma to_string_base v : v = base v -> to_string v = base_version v.
Proof.
  intros E. unfold to_string, base_version, to_chars. rewrite E. cbn.
  rewrite !app_nil_r. reflexivity.
Qed.

Lemma reparse_normalized v : normalized v -> parse_one (to_string v) = Some v.
Proof.
  intros H. destruct (normalized_base v H) as [E Hr].
  rewrite (to_string_base v E), parse_one_spec. unfold base_version.
  rewrite chars_of_chars, (strip_none _ (base_chars_not_v v)).
  unfold parse. rewrite chars_of_chars, (parse_base_chars v Hr). simpl.
  rewrite <- E. rewrite <- E. reflexivity.
Qed.

Lemma insert_last {A} (lt : A -> A -> bool) x acc :
  (forall a, In a acc -> lt x a = false) -> PyOrder.insert lt x acc = acc ++ [x].
Proof.
  induction acc as [| y acc IH]; intros H; simpl; [reflexivity |].
  rewrite (H y (or_introl eq_refl)). f_equal. apply IH.
  intros a Ha. apply H. right. exact Ha.
Qed.

Lemma fold_insert_sorted_id {A} (lt : A -> A -> bool) l :
  forall acc,
    StronglySorted (SortFacts.le_of lt) (acc ++ l) ->
    fold_left (fun acc x => PyOrder.insert lt x acc) l acc = acc ++ l.
Proof.
  induction l as [| x l IH]; intros acc H; simpl; [symmetry; apply app_nil_r |].
  assert (Hx : forall a, In a acc -> lt x a = false).
  { clear IH. induction acc as [| b acc IHa]; intros a Ha; [destruct Ha |].
    simpl in H. inversion H as [| ? ? Hs Hall]; subst.
    destruct Ha as [<- | Ha].
    - rewrite Forall_forall in Hall. apply (Hall x). apply in_or_app. right. left. reflexivity.
    - apply IHa; assumption. }
  rewrite (insert_last lt x acc Hx), IH; rewrite <- app_assoc; [reflexivity | exact H].
Qed.

(** Sorting a sorted list changes nothing. *)
Lemma sorted_id {A} (lt : A -> A -> bool) l :
  StronglySorted (SortFacts.le_of lt) l -> PyOrder.sorted lt l = l.
Proof. intros H. apply (fold_insert_sorted_id lt l []). exact H. Qed.

Lemma normalized_records_printed l :
  Forall normalized l -> normalized_records (map to_string l) = l.
Proof.
  induction 1 as [| v l Hv _ IH]; [reflexivity |].
  unfold normalized_records in *. cbn [map flat_map]. rewrite IH.
  pose proof (reparse_normalized v Hv) as E. rewrite parse_one_spec in E.
  destruct (parse _) as [v0 |]; [| discriminate]. injection E as ->. reflexivity.
Qed.

(** X5.  Every record [try_parse_versions] returns prints, with [str], as
    its epoch and release alone and reads back as itself, so printing the
    whole result and parsing it again gives the same list: the function is
    idempotent through [str]. *)
Theorem printed_versions_read_back :
  forall raws : list string,
    (forall v, In v (try_parse_versions raws) ->
               to_string v = base_version v
               /\ parse_one (to_string v) = Some v)
    /\ try_parse_versions (map to_string (try_parse_versions raws))
       = try_parse_versions raws.
Proof.
  intros raws. split.
  - intros v Hv. apply in_try_parse_versions in Hv. split.
    + apply to_string_base. apply normalized_base. exact Hv.
    + apply reparse_normalized. exact Hv.
  - assert (Hall : Forall normalized (try_parse_versions raws)).
    { apply Forall_forall. intros v. apply in_try_parse_versions. }
    set (L := try_parse_versions raws) in *.
    unfold try_parse_versions at 1. rewrite collected. cbn [app].
    rewrite (normalized_records_printed L Hall).
    apply sorted_id. unfold L, try_parse_versions.
    apply SortFacts.sorted_sorted; [apply ltb_asym | apply le_of_trans].
Qed.

End PrintFacts.

(* ------------------------------------------------------------------ *)
(** ** Events of a whole run *)

Module TraceFacts.
Import Hoare DictFacts AdapterFacts MergeFacts RunFacts.

Lemma groupby_keyed {A} (l : list (string * A)) k g :
  In (k, g) (groupby l) -> g <> [] /\ forall a, In a g -> In (k, a) l.
Proof.
  revert k g. induction l as [| [k0 a0] t IH]; intros k g H; [destruct H |].
  simpl in H. destruct (groupby t) as [| [k1 g1] gs] eqn:Eg.
  - destruct H as [H | []]. injection H as <- <-. split; [discriminate |].
    intros a [<- | []]. left. reflexivity.
  - destruct (String.eqb_spec k0 k1) as [<- | Hne].
    + destruct H as [H | H].
      * injection H as <- <-. split; [discriminate |].
        intros a [<- | Ha]; [left; reflexivity |].
        right. apply (IH k0 g1 (or_introl eq_refl)). exact Ha.
      * destruct (IH k g (or_intror H)) as [Hg Hin]. split; [exact Hg |].
        intros a Ha. right. apply Hin. exact Ha.
    + destruct H as [H | H].
      * injection H as <- <-. split; [discriminate |].
        intros a [<- | []]. left. reflexivity.
      * destruct (IH k g H) as [Hg Hin]. split; [exact Hg |].
        intros a Ha. right. apply Hin. exact Ha.
Qed.

Lemma set_incl {V} (d : Dict.t V) k v x :
  In x (Dict.set d k v) -> x = (k, v) \/ In x d.
Proof.
  induction d as [| [k' v'] d IH]; simpl.
  - intros [<- | []]. left. reflexivity.
  - destruct (String.eqb_spec k' k) as [-> | Hne].
    + intros [<- | H]; [left; reflexivity | right; right; exact H].
    + intros [<- | H]; [right; left; reflexivity |].
      destruct (IH H) as [-> | H']; [left; reflexivity | right; right; exact H'].
Qed.

Lemma set_nonempty {V} (d : Dict.t V) k v : Dict.set d k v <> [].
Proof.
  destruct d as [| [k' v'] d]; simpl; [discriminate |].
  destruct (String.eqb k' k); discriminate.
Qed.

Lemma of_items_incl {V} (items : list (string * V)) :
  incl (Dict.of_items items) items.
Proof.
  unfold Dict.of_items.
  assert (H : forall d x,
             In x (fold_left (fun d kv => Dict.set d (fst kv) (snd kv)) items d) ->
             In x d \/ In x items).
  { induction items as [| [k v] items IH]; intros d x Hx; simpl in Hx; [left; exact Hx |].
    destruct (IH _ _ Hx) as [H | H]; [| right; right; exact H].
    destruct (set_incl _ _ _ _ H) as [-> | H']; [right; left; reflexivity | left; exact H']. }
  intros x Hx. destruct (H [] x Hx) as [[] | Hin]. exact Hin.
Qed.

Lemma fold_set_nonempty {V} (items : list (string * V)) :
  forall d, d <> [] ->
    fold_left (fun d kv => Dict.set d (fst kv) (snd kv)) items d <> [].
Proof.
  induction items as [| [k v] items IH]; intros d Hd; simpl; [exact Hd |].
  apply IH. apply set_nonempty.
Qed.

Lemma of_items_nonempty {V} (items : list (string * V)) :
  items <> [] -> Dict.of_items items <> [].
Proof.
  unfold Dict.of_items. destruct items as [| [k v] items]; [congruence |].
  intros _. simpl. apply fold_set_nonempty. discriminate.
Qed.

Lemma bind_assoc {A B C} (m : M A) (f : A -> M B) (g : B -> M C) :
  bind (bind m f) g = bind m (fun a => bind (f a) g).
Proof.
  destruct m as [[e | a] log]; simpl; [reflexivity |].
  destruct (f a) as [[e | b] log']; simpl; [reflexivity |].
  destruct (g b) as [r log'']. rewrite app_assoc. reflexivity.
Qed.

Lemma bind_ext {A B} (m : M A) (f g : A -> M B) :
  (forall a, f a = g a) -> bind m f = bind m g.
Proof.
  intros H. destruct m as [[e | a] log]; simpl; [reflexivity |].
  rewrite H. reflexivity.
Qed.

Section Generic.
Variables (w : World) (args : options) (c : catalog).

(** The packages handed to a primary source: some packages of the catalog,
    each of which names that source as its primary. *)
Definition primary_group (k : string) (x : catalog) : Prop :=
  x <> []
  /\ forall name pkg, In (name, pkg) x ->
       In (name, pkg) c /\ Dict.get pkg "primary" = Some (TStr k).

Variable E : event -> Prop.
Variable K : versions -> Prop.
Variable J : versions -> catalog -> Prop.

Hypothesis E_call : forall s pkgs, hoare E any (call w s args pkgs).
Hypothesis E_status :
  forall (A B : Type) src (q : Dict.t A) (new : Dict.t B) n,
    hoare E any (status args src q new n).
Hypothesis E_resolved : forall v, E (Resolved v).
Hypothesis E_primary :
  forall k x s, primary_group k x -> Dict.get sources k = Some s ->
                E (Invoke Primary k x).
Hypothesis E_secondary :
  forall s vers left, In s sources_list -> J vers left -> left <> [] ->
                      E (Invoke Secondary (source_name s) left).
Hypothesis K_start : K [].
Hypothesis K_step :
  forall s vers k x new,
    K vers -> primary_group k x -> Dict.get sources k = Some s ->
    outcome (call w s args x) = inr new -> K (update vers new).
Hypothesis J_start :
  forall vers asked tp,
    outcome (primary_phase w args c) = inr (vers, asked) -> K vers ->
    Dict.get args "trust_primary" = Some tp ->
    J vers (if Py.truthy_opt tp then not_in vers c else c).
Hypothesis J_step :
  forall s vers left st,
    J vers left -> left <> [] -> step_result w args c s vers left st ->
    J (fst st) (snd st).

Lemma keyed_group keyed k g :
  (forall k' item, In (k', item) keyed ->
                   In item c /\ Dict.get (snd item) "primary" = Some (TStr k')) ->
  In (k, g) (groupby (PyOrder.sorted (fun a b => str_ltb (fst a) (fst b)) keyed)) ->
  primary_group k (Dict.of_items g).
Proof.
  intros Hkeyed Hin. destruct (groupby_keyed _ _ _ Hin) as [Hne Hg]. split.
  - apply of_items_nonempty. exact Hne.
  - intros name pkg Hx. apply of_items_incl in Hx. apply Hg in Hx.
    apply (Permutation_in _ (SortFacts.sorted_perm _ _)) in Hx.
    apply Hkeyed in Hx. exact Hx.
Qed.

Lemma primary_keys_keyed E' :
  hoare E'
    (fun keyed =>
       forall k item, In (k, item) keyed ->
         In item c /\ Dict.get (snd item) "primary" = Some (TStr k))
    (primary_keys (filter (fun '(k, v) => Dict.mem v "primary") c)).
Proof.
  unfold primary_keys. destruct (forallb _ _).
  - apply hoare_ret. intros k item H. apply in_flat_map in H.
    destruct H as [item' [Hin H]].
    destruct (Dict.get (snd item') "primary") as [[s | |] |] eqn:Ep; try destruct H.
    + injection H as <- <-. apply filter_In in Hin. split; [apply Hin | exact Ep].
    + destruct H.
  - destruct (existsb _ _); apply hoare_raise.
Qed.

Lemma get_primary_gen vers0 :
  K vers0 -> hoare E (fun st => K (fst st)) (get_primary w args c vers0).
Proof.
  intros H0. unfold get_primary.
  eapply hoare_bind; [apply primary_keys_keyed |].
  intros keyed Hkeyed. apply hoare_for_each; [exact H0 |].
  intros [vers asked] [k g] Hin HI. cbn [fst] in HI.
  pose proof (keyed_group _ _ _ Hkeyed Hin) as Hgroup.
  destruct (Dict.get sources k) as [s |] eqn:Es; [| apply hoare_raise].
  eapply (hoare_bind _ any).
  { apply hoare_emit; [| exact I]. eapply E_primary; eauto. }
  intros _ _. eapply hoare_bind.
  { apply hoare_outcome. apply E_call. }
  intros new [_ Hnew]. eapply (hoare_bind _ any).
  { apply hoare_emit; [| exact I]. apply E_resolved. }
  intros _ _. eapply (hoare_bind _ any); [apply E_status |].
  intros _ _. apply hoare_ret. cbn [fst]. eapply K_step; eauto.
Qed.

Lemma get_secondary_source_gen s vers left :
  In s sources_list -> J vers left -> left <> [] ->
  hoare E (holds J) (get_secondary_source w args c s vers left).
Proof.
  intros Hs HJ Hne. unfold get_secondary_source.
  eapply (hoare_bind _ any).
  { apply hoare_emit; [| exact I]. eapply E_secondary; eauto. }
  intros _ _. eapply hoare_bind.
  { apply hoare_outcome. apply E_call. }
  intros new [_ Hnew]. eapply (hoare_bind _ any).
  { apply hoare_emit; [| exact I]. apply E_resolved. }
  intros _ _. eapply (hoare_bind _ any); [apply E_status |].
  intros _ _. eapply hoare_bind; [apply option_of_hoare |].
  intros ts Hts. cbv beta.
  assert (Hst : step_result w args c s vers left
                  (update vers new,
                   if Py.truthy_opt ts then not_in (update vers new) c else left)).
  { exists new, ts. auto. }
  pose proof (J_step _ _ _ _ HJ Hne Hst) as HJ'. cbn [fst snd] in HJ'.
  destruct (Py.truthy_opt ts); apply hoare_ret; exact HJ'.
Qed.

Lemma secondary_loop_gen ss :
  incl ss sources_list ->
  forall vers left, J vers left -> left <> [] ->
    hoare E (holds J) (secondary_loop w args c ss vers left).
Proof.
  induction ss as [| s ss IH]; intros Hss vers left HJ Hne; simpl.
  - apply hoare_ret. exact HJ.
  - eapply hoare_bind.
    { apply get_secondary_source_gen; [apply Hss; left; reflexivity | |]; assumption. }
    intros [vers' left'] HJ'. unfold holds in HJ'. cbn [fst snd] in HJ'.
    destruct left' as [| p left'].
    + apply hoare_ret. exact HJ'.
    + apply IH; [| exact HJ' | discriminate].
      intros x Hx. apply Hss. right. exact Hx.
Qed.

Lemma run_secondary_gen vers asked left l :
  J vers left -> hoare E (holds J) (run_secondary w args c vers asked left l).
Proof.
  intros HJ. unfold run_secondary. destruct left as [| p left].
  - apply hoare_ret. exact HJ.
  - apply secondary_loop_gen; [| exact HJ | discriminate].
    intros x Hx. apply filter_In in Hx. apply Hx.
Qed.

Lemma get_secondary_gen vers asked left :
  J vers left -> hoare E (holds J) (get_secondary w args c vers asked left).
Proof.
  intros HJ. unfold get_secondary. eapply hoare_bind.
  - apply run_secondary_gen. exact HJ.
  - intros [vers' left'] HJ'. apply run_secondary_gen. exact HJ'.
Qed.

(** [get_vers] up to the point where the packages left are reported. *)
Definition resolve : M (versions * catalog) :=
  arg_primary <- option_of args "primary" ;;
  arg_secondary <- option_of args "secondary" ;;
  arg_trust_primary <- option_of args "trust_primary" ;;
  '(vers, asked) <-
    (if Py.truthy_opt arg_primary
     then get_primary w args c []
     else ret ([], [])) ;;
  let left := if Py.truthy_opt arg_trust_primary then not_in vers c else c in
  match left with
  | _ :: _ =>
      if Py.truthy_opt arg_secondary
      then get_secondary w args c vers asked left
      else ret (vers, left)
  | [] => ret (vers, left)
  end.

(** The end of [get_vers]. *)
Definition report (st : versions * catalog) : M (versions * string) :=
  let '(vers, left_) := st in
  let left := Py.join_str ", " (Dict.keys left_) in
  (if String.eqb left "" then ret tt
   else eprint (fmt ["Packages left: "; left])) ;;;
  ret (vers, left).

Lemma get_vers_resolve : get_vers w args c = bind resolve report.
Proof.
  unfold get_vers, resolve.
  rewrite bind_assoc. apply bind_ext. intros ap.
  rewrite bind_assoc. apply bind_ext. intros asec.
  rewrite bind_assoc. apply bind_ext. intros tp.
  rewrite bind_assoc. apply bind_ext. intros [vers asked].
  apply bind_ext. intros [vers' left']. reflexivity.
Qed.

(** What holds of the events of a run and of its state, given what holds of
    the events of each source and what each source preserves. *)
Lemma resolve_gen : hoare E (holds J) resolve.
Proof.
  unfold resolve.
  eapply hoare_bind; [apply option_of_hoare |]. intros ap Hap.
  eapply (hoare_bind _ any); [apply option_of_quiet |]. intros asec _.
  eapply hoare_bind; [apply option_of_hoare |]. intros tp Htp.
  eapply hoare_bind.
  { apply hoare_outcome.
    instantiate (1 := fun st => K (fst st)).
    destruct (Py.truthy_opt ap).
    - apply get_primary_gen. exact K_start.
    - apply hoare_ret. exact K_start. }
  intros [vers asked] [HI Hout]. cbn [fst] in HI.
  assert (Hprim : outcome (primary_phase w args c) = inr (vers, asked)).
  { unfold primary_phase. rewrite outcome_bind. unfold option_of.
    rewrite Hap. exact Hout. }
  pose proof (J_start _ _ _ Hprim HI Htp) as Hstart.
  set (left := if Py.truthy_opt tp then not_in vers c else c) in *.
  destruct left as [| p left'] eqn:El.
  - apply hoare_ret. exact Hstart.
  - destruct (Py.truthy_opt asec).
    + apply get_secondary_gen. exact Hstart.
    + apply hoare_ret. exact Hstart.
Qed.

End Generic.

End TraceFacts.

(* ------------------------------------------------------------------ *)
(** ** What is sent, and what is written *)

Module OutputFacts.
Import Hoare DictFacts AdapterFacts MergeFacts RunFacts TraceFacts.

(** The header [name: token <tok>], [tok] being the true value of option [k]. *)
Definition token_header (args : options) (k name : string)
  (headers : list (string * string)) : Prop :=
  exists tok,
    Dict.get args k = Some (Some tok) /\ Py.truthy tok = true
    /\ headers = [(name, fmt ["token "; Py.str tok])].

Definition under_github_api (url : string) : Prop :=
  exists rest, url = (github_base ++ rest)%string.

(** A request either carries no header, or goes to the GitHub API and carries
    one of the two tokens. *)
Definition guarded (args : options) (e : event) : Prop :=
  match e with
  | Request url headers =>
      headers = []
      \/ (under_github_api url
          /\ (token_header args "github_token" "Authorization" headers
              \/ token_header args "gitlab_token" "Private-Token" headers))
  | _ => True
  end.

(** A request without headers. *)
Definition bare (e : event) : Prop :=
  match e with
  | Request _ headers => headers = []
  | _ => True
  end.

Lemma bare_guarded args e : bare e -> guarded args e.
Proof. destruct e; simpl; auto. Qed.

(** Computations that unfold to [ret], [raise], [lift], [bind], [for_each]
    and case analysis emit nothing. *)
Ltac silent :=
  unfold result, json_of, parse_values, field_versions, option_of; quiet.

Section Requests.
Variable w : World.

Lemma agithub_guarded args pkgs type field :
  hoare (guarded args) any (agithub w args pkgs type field).
Proof.
  unfold agithub. eapply hoare_bind; [apply option_of_hoare |].
  intros tok Htok. eapply (hoare_bind _ any).
  - eapply hoare_conseq; [apply wait_spec | | intros; exact I].
    intros e [[[n url] h] [Hin ->]]. cbn [fst snd].
    apply in_flat_map in Hin. destruct Hin as [[name pkg] [_ Hin]].
    destruct (Dict.get pkg "github") as [id_ |]; [| destruct Hin].
    destruct (Py.truthy id_); [| destruct Hin].
    destruct Hin as [Hin | []]. injection Hin as _ <- <-.
    destruct tok as [tok |]; [| left; reflexivity].
    destruct (Py.truthy tok) eqn:Et; [| left; reflexivity].
    right. split.
    + eexists. unfold fmt. cbn [String.concat]. reflexivity.
    + left. exists tok. auto.
  - intros done _. eapply hoare_conseq; [apply forge_results_hoare | | intros; exact I].
    intros e He. exact He.
Qed.

Lemma agitlab_guarded args pkgs type field :
  hoare (guarded args) any (agitlab w args pkgs type field).
Proof.
  unfold agitlab. eapply hoare_bind; [apply option_of_hoare |].
  intros tok Htok. eapply hoare_bind.
  - apply (hoare_for_each _
             (fun aws : list pending =>
                forall p, In p aws -> guarded args (Request (snd (fst p)) (snd p)))).
    + intros p [].
    + intros aws [name pkg] _ Haws.
      destruct (Dict.get pkg "gitlab") as [id_ |]; [| apply hoare_ret; exact Haws].
      destruct (Py.truthy id_); [| apply hoare_ret; exact Haws].
      destruct id_; try apply hoare_raise.
      apply hoare_ret. intros p Hp. apply in_app_or in Hp.
      destruct Hp as [Hp | [<- | []]]; [apply Haws; exact Hp |]. cbn [fst snd].
      destruct tok as [tok |]; [| left; reflexivity].
      destruct (Dict.get pkg "url") as [[b | |] |]; try (left; reflexivity).
      * destruct (Py.truthy tok) eqn:Et; [| left; reflexivity].
        destruct (String.eqb_spec b github_base) as [-> | Hne]; [| left; reflexivity].
        right. split.
        -- eexists. unfold fmt. cbn [String.concat Py.str]. reflexivity.
        -- right. exists tok. auto.
      * destruct (Py.truthy tok && String.eqb gitlab_base github_base) eqn:Eb;
          [| left; reflexivity].
        apply andb_true_iff in Eb. destruct Eb as [_ Eb]. discriminate Eb.
  - intros aws Haws. eapply (hoare_bind _ any).
    + eapply hoare_conseq; [apply wait_spec | | intros; exact I].
      intros e [p [Hp ->]]. apply Haws. exact Hp.
    + intros done _. eapply hoare_conseq; [apply forge_results_hoare | | intros; exact I].
      intros e He. exact He.
Qed.

Lemma aarch_bare args pkgs : hoare bare any (aarch w args pkgs).
Proof.
  unfold aarch. eapply (hoare_bind _ any).
  - eapply hoare_conseq; [apply wait_spec | | intros; exact I].
    intros e [p [Hp ->]]. apply in_map_iff in Hp.
    destruct Hp as [[name pkg] [<- _]]. reflexivity.
  - intros done _. silent.
Qed.

Lemma aaur_bare args pkgs : hoare bare any (aaur w args pkgs).
Proof.
  unfold aaur. eapply (hoare_bind _ any).
  - apply hoare_emit; [reflexivity | exact I].
  - intros _ _. silent.
Qed.

Lemma agit_bare args pkgs : hoare bare any (agit w args pkgs).
Proof.
  eapply hoare_conseq; [apply agit_spec | | intros; exact I].
  intros e [name [url [_ ->]]]. reflexivity.
Qed.

Lemma call_guarded s args pkgs : hoare (guarded args) any (call w s args pkgs).
Proof.
  destruct s; simpl;
    first [ apply agithub_guarded | apply agitlab_guarded
          | eapply hoare_conseq;
            [first [apply aaur_bare | apply aarch_bare | apply agit_bare]
            | apply bare_guarded | trivial] ].
Qed.

End Requests.

Definition not_request (e : event) : Prop :=
  match e with
  | Request _ _ => False
  | _ => True
  end.

Lemma status_not_request {A B} args src (q : Dict.t A) (new : Dict.t B) n :
  hoare not_request any (status args src q new n).
Proof.
  eapply hoare_conseq; [apply status_hoare | | trivial].
  intros e [line ->]. exact I.
Qed.

Lemma report_hoare (E : event -> Prop) st :
  (forall names, names <> "" -> E (Stderr (fmt ["Packages left: "; names]))) ->
  hoare E
    (fun r => r = (fst st, Py.join_str ", " (Dict.keys (snd st))))
    (report st).
Proof.
  intros HE. destruct st as [vers left_]. unfold report, eprint.
  eapply (hoare_bind _ any).
  - destruct (String.eqb_spec (Py.join_str ", " (Dict.keys left_)) "") as [Heq | Hne].
    + apply hoare_ret. exact I.
    + apply hoare_emit; [apply HE; exact Hne | exact I].
  - intros _ _. apply hoare_ret. reflexivity.
Qed.

(** A property of events that every source, every status line and the final
    report respect holds of the whole run. *)
Lemma run_events w args c (E : event -> Prop) :
  (forall s pkgs, hoare E any (call w s args pkgs)) ->
  (forall (A B : Type) src (q : Dict.t A) (new : Dict.t B) n,
      hoare E any (status args src q new n)) ->
  (forall v, E (Resolved v)) ->
  (forall ph src pkgs, E (Invoke ph src pkgs)) ->
  (forall names, names <> "" -> E (Stderr (fmt ["Packages left: "; names]))) ->
  Forall E (trace (get_vers w args c)).
Proof.
  intros Hcall Hstatus Hres Hinv Hleft.
  rewrite get_vers_resolve.
  refine (proj1 (hoare_bind E (fun _ => True) any _ _ _ _)).
  - eapply hoare_conseq; [| intros e He; exact He | trivial].
    apply (resolve_gen w args c E (fun _ => True) (fun _ _ => True)); auto.
  - intros st _. eapply hoare_conseq; [apply report_hoare; exact Hleft | auto | trivial].
    intros; exact I.
Qed.

(** X6.  Whatever the options, the catalog and the answers, every request of
    a run that carries a header goes to a URL under the GitHub API base, and
    the header is [Authorization] with the github token or [Private-Token]
    with the gitlab token: requests to any other host (gitlab.com or the
    [url] of a package, the AUR, the Arch package search, a git remote) carry
    no header. *)
Theorem tokens_go_to_github_api_only :
  forall (w : World) (args : options) (c : catalog),
    Forall (guarded args) (trace (get_vers w args c)).
Proof.
  intros w args c. apply run_events.
  - intros s pkgs. apply call_guarded.
  - intros A B src q new n.
    eapply hoare_conseq; [apply status_hoare | | trivial].
    intros e [line ->]. exact I.
  - intros v. exact I.
  - intros ph src pkgs. exact I.
  - intros names _. exact I.
Qed.

End OutputFacts.

(* ------------------------------------------------------------------ *)
(** ** The report of the packages left, the output and the exit status *)

Module ReportFacts.
Import Hoare DictFacts AdapterFacts MergeFacts RunFacts TraceFacts OutputFacts.
Import Examples.

(** The line [get_vers] writes when packages are left. *)
Definition left_line (line : string) : Prop :=
  exists names, names <> "" /\ line = fmt ["Packages left: "; names].

(** An event that is not a line on stderr, or is the line of the packages
    left. *)
Definition hushed (e : event) : Prop :=
  match e with
  | Stderr line => left_line line
  | _ => True
  end.

Definition is_stdout (e : event) : Prop :=
  match e with
  | Stdout _ => True
  | _ => False
  end.

(** An event of the run before its report: neither output nor the line of
    the packages left. *)
Definition working (e : event) : Prop :=
  match e with
  | Stdout _ => False
  | Stderr line => ~ left_line line
  | _ => True
  end.

Lemma status_quiet {A B} args src (q : Dict.t A) (new : Dict.t B) n :
  enabled args "quiet" -> hoare (fun _ => False) any (status args src q new n).
Proof.
  intros [v [Hv Ht]]. unfold status.
  eapply hoare_bind; [apply option_of_hoare |].
  intros v' Hv'. assert (v' = v) by congruence. subst v'.
  rewrite Ht. apply hoare_ret. exact I.
Qed.

Lemma status_working {A B} args src (q : Dict.t A) (new : Dict.t B) n :
  hoare working any (status args src q new n).
Proof.
  assert (Hline : forall rest names,
             fmt ["Asking "; rest] <> fmt ["Packages left: "; names]).
  { intros rest names. unfold fmt. cbn. discriminate. }
  unfold status, eprint.
  eapply (hoare_bind _ any); [apply option_of_quiet |]. intros quiet _.
  destruct (Py.truthy_opt quiet); [apply hoare_ret; exact I |].
  eapply (hoare_bind _ any); [apply option_of_quiet |]. intros names _.
  cbv zeta. destruct (Py.truthy_opt names).
  - eapply (hoare_bind _ any).
    + apply hoare_emit; [| exact I]. intros [x [_ Hx]]. revert Hx.
      unfold fmt. cbn. discriminate.
    + intros _ _. destruct new; (apply hoare_emit; [| exact I]);
        intros [x [_ Hx]]; revert Hx; unfold fmt; cbn; discriminate.
  - apply hoare_emit; [| exact I]. intros [x [_ Hx]]. revert Hx.
    unfold fmt. cbn. discriminate.
Qed.

Section Run.
Variables (w : World) (args : options) (c : catalog).

Lemma resolve_working : hoare working any (resolve w args c).
Proof.
  eapply hoare_conseq; [| intros e He; exact He | intros; exact I].
  apply (resolve_gen w args c working (fun _ => True) (fun _ _ => True));
    try (intros; exact I).
  - intros s pkgs. eapply hoare_conseq; [apply call_hoare | | intros; exact I].
    intros e [url [h ->]]. exact I.
  - intros A B src q new n. apply status_working.
Qed.

(** The trace of a run that returns: the events of [resolve], then the line
    of the packages left if there are any. *)
Lemma get_vers_inr vers left :
  outcome (get_vers w args c) = inr (vers, left) ->
  trace (get_vers w args c)
  = trace (resolve w args c)
    ++ (if String.eqb left "" then []
        else [Stderr (fmt ["Packages left: "; left])]).
Proof.
  rewrite get_vers_resolve. intros H.
  destruct (bind_inr _ _ _ H) as [[vers' left'] [_ [Hrep ->]]]. f_equal.
  unfold report, eprint in *.
  destruct (String.eqb (Py.join_str ", " (Dict.keys left')) "") eqn:El;
    simpl in Hrep |- *; injection Hrep as <- <-; rewrite El; reflexivity.
Qed.

Lemma get_vers_inl e :
  outcome (get_vers w args c) = inl e ->
  trace (get_vers w args c) = trace (resolve w args c).
Proof.
  rewrite get_vers_resolve.
  destruct (resolve w args c) as [[e' | [vers' left']] log]; simpl; [reflexivity |].
  unfold eprint. destruct (String.eqb _ ""); simpl; discriminate.
Qed.

End Run.

(** X7.  With [quiet] set, the only line a run can write to stderr is the
    final [Packages left: ...]; the option does not silence it: a run that
    returns with packages left ends with that line. *)
Theorem quiet_keeps_the_packages_left_line :
  forall (w : World) (args : options) (c : catalog),
    enabled args "quiet" ->
    Forall hushed (trace (get_vers w args c))
    /\ forall vers left,
         outcome (get_vers w args c) = inr (vers, left) -> left <> "" ->
         exists log,
           trace (get_vers w args c)
           = log ++ [Stderr (fmt ["Packages left: "; left])].
Proof.
  intros w args c Hq. split.
  - apply run_events.
    + intros s pkgs. eapply hoare_conseq; [apply call_hoare | | intros; exact I].
      intros e [url [h ->]]. exact I.
    + intros A B src q new n.
      eapply hoare_conseq; [apply status_quiet; exact Hq | intros e [] | intros; exact I].
    + intros v. exact I.
    + intros ph src pkgs. exact I.
    + intros names Hne. exists names. auto.
  - intros vers left Hout Hne. rewrite (get_vers_inr _ _ _ _ _ Hout).
    apply String.eqb_neq in Hne. rewrite Hne. eauto.
Qed.

(** The defaults, with [quiet] on and both phases off. *)
Definition quiet_args : options :=
  [("github_token", None); ("gitlab_token", None);
   ("primary", Some (TBool false)); ("secondary", Some (TBool false));
   ("trust_primary", Some (TBool true)); ("trust_secondary", Some (TBool true));
   ("print_names", Some (TBool false)); ("quiet", Some (TBool true))].

Lemma quiet_keeps_the_packages_left_line_witness :
  exists log,
    trace (get_vers aur_world quiet_args aur_pkgs)
    = log ++ [Stderr (fmt ["Packages left: "; "x, y"])].
Proof.
  assert (Hq : enabled quiet_args "quiet").
  { exists (Some (TBool true)). split; reflexivity. }
  refine (proj2 (quiet_keeps_the_packages_left_line aur_world quiet_args aur_pkgs Hq)
            [] "x, y" _ _).
  - reflexivity.
  - discriminate.
Defined.

(** *** The command *)

(** The options table of the document, and the document without it. *)
Definition options_table (c : Dict.t pkgspec) : Dict.t tomlval :=
  match Dict.get c "johnny_config" with
  | Some t => t
  | None => []
  end.

Definition packages (c : Dict.t pkgspec) : catalog :=
  match options_table c with
  | _ :: _ => Dict.del c "johnny_config"
  | [] => c
  end.

Lemma read_config_trace args config : trace (read_config args config) = [].
Proof.
  apply silent_trace. unfold read_config.
  eapply (hoare_bind _ (fun _ => True)).
  - apply (hoare_for_each _ (fun _ => True)); [exact I |].
    intros [] k _ _. destruct (Dict.mem args k); [apply hoare_ret; exact I | apply hoare_raise].
  - intros _ _. apply hoare_ret. exact I.
Qed.

(** [cli] reads the options, runs [get_vers] on the packages, prints. *)
Lemma cli_unfold w c kwargs :
  cli w c kwargs =
  (kwargs <- read_config kwargs (options_table c) ;;
   '(vers, left_) <- get_vers w kwargs (packages c) ;;
   emit (Stdout (make_serializable vers)) ;;;
   ret (if String.eqb left_ "" then 0 else 1)).
Proof. reflexivity. Qed.

Lemma working_app_left log left :
  Forall working log -> left <> "" ->
  exists log' line, log ++ [Stderr (fmt ["Packages left: "; left])] = log' ++ [Stderr line]
                    /\ left_line line /\ Forall working log'.
Proof. intros H Hne. exists log, (fmt ["Packages left: "; left]). repeat split; trivial. exists left. auto. Qed.

(** X8.  A run of the command that fails writes nothing to stdout.  A run
    that returns writes the resolved map once, as its last action; its exit
    status is 1 exactly when the line [Packages left: ...] came just before,
    and 0 otherwise, in which case no such line was written at all. *)
Theorem cli_output_and_status :
  forall (w : World) (c : Dict.t pkgspec) (kwargs : options),
    (forall e, outcome (cli w c kwargs) = inl e ->
               Forall working (trace (cli w c kwargs)))
    /\ (forall n, outcome (cli w c kwargs) = inr n ->
          exists log vers,
            trace (cli w c kwargs) = log ++ [Stdout (make_serializable vers)]
            /\ ((n = 0 /\ Forall working log)
                \/ (n = 1 /\ exists log' line,
                               log = log' ++ [Stderr line]
                               /\ left_line line /\ Forall working log'))).
Proof.
  intros w c kwargs. rewrite cli_unfold.
  pose proof (read_config_trace kwargs (options_table c)) as Hrc.
  destruct (read_config kwargs (options_table c)) as [[e0 | args] log0].
  { cbn [trace snd] in Hrc. subst log0. split.
    - intros e _. constructor.
    - intros n Hn. discriminate Hn. }
  cbn [trace snd] in Hrc. subst log0.
  change (@inr exn options args, @nil event) with (ret args). rewrite bind_ret_l.
  pose proof (proj1 (resolve_working w args (packages c))) as Hwork.
  pose proof (get_vers_inr w args (packages c)) as Hinr.
  pose proof (get_vers_inl w args (packages c)) as Hinl.
  destruct (get_vers w args (packages c)) as [[e1 | [vers names]] log1].
  { split.
    - intros e _. cbn [bind trace snd]. specialize (Hinl e1 eq_refl).
      cbn [trace snd] in Hinl. rewrite Hinl. exact Hwork.
    - intros n Hn. discriminate Hn. }
  split; [intros e He; discriminate He |].
  intros n Hn. cbn in Hn. injection Hn as <-.
  pose proof (Hinr _ _ eq_refl) as Hlog. cbn [trace snd] in Hlog.
  exists log1, vers. split; [reflexivity |].
  rewrite Hlog. destruct (String.eqb_spec names "") as [-> | Hne].
  - left. rewrite app_nil_r. auto.
  - right. split; [reflexivity |]. apply working_app_left.
    + exact Hwork.
    + exact Hne.
Qed.

End ReportFacts.

(* ------------------------------------------------------------------ *)
(** ** The packages a run asks about, and the packages it leaves *)

Module CatalogFacts.
Import Hoare DictFacts AdapterFacts MergeFacts RunFacts TraceFacts OutputFacts.
Import ReportFacts Examples.

(** An invocation hands a source a non-empty part of the catalog; in the
    primary phase, packages that name the source as their primary; in the
    secondary phase, the source is one of [sources_list]. *)
Definition well_invoked (c : catalog) (e : event) : Prop :=
  match e with
  | Invoke ph src pkgs =>
      pkgs <> [] /\ incl pkgs c
      /\ match ph with
         | Primary =>
             Dict.mem sources src = true
             /\ forall name pkg, In (name, pkg) pkgs ->
                                 Dict.get pkg "primary" = Some (TStr src)
         | Secondary => In src (map source_name sources_list)
         end
  | _ => True
  end.

Lemma not_in_incl (vers : versions) (c : catalog) : incl (not_in vers c) c.
Proof. intros x Hx. apply filter_In in Hx. apply Hx. Qed.

Lemma start_incl (vers : versions) (c : catalog) (tp : option tomlval) :
  incl (if Py.truthy_opt tp then not_in vers c else c) c.
Proof. destruct (Py.truthy_opt tp); [apply not_in_incl | apply incl_refl]. Qed.

Lemma resolve_well_invoked w args c :
  hoare (well_invoked c) (fun st => incl (snd st) c) (resolve w args c).
Proof.
  eapply hoare_conseq; [| intros e He; exact He | intros st Hst; exact Hst].
  apply (resolve_gen w args c (well_invoked c) (fun _ => True)
           (fun _ left => incl left c)); try (intros; exact I).
  - intros s pkgs. eapply hoare_conseq; [apply call_hoare | | intros; exact I].
    intros e [url [h ->]]. exact I.
  - intros A B src q new n.
    eapply hoare_conseq; [apply status_hoare | | intros; exact I].
    intros e [line ->]. exact I.
  - intros k x s [Hne Hx] Hs. split; [exact Hne |]. split.
    + intros [name pkg] Hin. apply (Hx name pkg Hin).
    + split; [unfold Dict.mem; rewrite Hs; reflexivity |].
      intros name pkg Hin. apply (Hx name pkg Hin).
  - intros s vers left Hs Hleft Hne. split; [exact Hne |]. split; [exact Hleft |].
    apply in_map. exact Hs.
  - intros vers asked tp _ _ _. apply start_incl.
  - intros s vers left st Hleft _ [new [ts [_ [_ [_ ->]]]]].
    destruct (Py.truthy_opt ts); [apply not_in_incl | exact Hleft].
Qed.

Lemma run_well_invoked w args c :
  Forall (well_invoked c) (trace (get_vers w args c)).
Proof.
  rewrite get_vers_resolve.
  refine (proj1 (hoare_bind (well_invoked c) (fun _ => True) any _ _ _ _)).
  - eapply hoare_conseq; [apply resolve_well_invoked | auto | trivial].
  - intros st _.
    eapply hoare_conseq; [apply report_hoare | intros e He; exact He | intros; exact I].
    intros names _. exact I.
Qed.

(** X9.  Every invocation of a source in a run hands it a non-empty mapping
    whose entries are entries of the catalog.  A source invoked in the
    primary phase is a key of [sources] and gets only packages that name it
    as their [primary]; a source invoked in the secondary phase is one of
    github, gitlab, aur and arch, so the tag variants and git are asked only
    as primary sources. *)
Theorem sources_are_asked_about_catalog_packages :
  forall (w : World) (args : options) (c : catalog),
    Forall (well_invoked c) (trace (get_vers w args c)).
Proof.
  intros w args c. rewrite get_vers_resolve.
  refine (proj1 (hoare_bind (well_invoked c) (fun st => incl (snd st) c) any _ _ _ _)).
  - apply resolve_well_invoked.
  - intros st _.
    eapply hoare_conseq; [apply report_hoare | intros e He; exact He | intros; exact I].
    intros names _. exact I.
Qed.

(** *** The options table is not a package *)

Lemma cli_events w c kwargs (E : event -> Prop) :
  (forall args, Forall E (trace (get_vers w args (packages c)))) ->
  (forall out, E (Stdout out)) ->
  Forall E (trace (cli w c kwargs)).
Proof.
  intros Hrun Hout. rewrite cli_unfold.
  pose proof (read_config_trace kwargs (options_table c)) as Hrc.
  destruct (read_config kwargs (options_table c)) as [[e0 | args] log0];
    cbn [trace snd] in Hrc; subst log0; [constructor |].
  change (@inr exn options args, @nil event) with (ret args). rewrite bind_ret_l.
  specialize (Hrun args).
  destruct (get_vers w args (packages c)) as [[e1 | [vers names]] log1];
    cbn [trace snd bind] in *; [exact Hrun |].
  apply Forall_app. split; [exact Hrun |]. repeat constructor. apply Hout.
Qed.

Lemma del_keys {V} (d : Dict.t V) k :
  Dict.wf d -> ~ In k (Dict.keys (Dict.del d k)).
Proof.
  induction d as [| [k' v'] d IH]; intros Hwf; simpl; [tauto |].
  destruct (wf_head _ _ _ Hwf) as [Hk' Hd].
  destruct (String.eqb_spec k' k) as [-> | Hne]; [exact Hk' |].
  simpl. intros [H | H]; [congruence | apply (IH Hd H)].
Qed.

(** X10.  When the document has a non-empty [johnny_config] table, no source
    is ever asked about a package of that name: the table is taken out of
    the catalog before the run. *)
Theorem options_table_is_not_a_package :
  forall (w : World) (c : Dict.t pkgspec) (kwargs : options),
    Dict.wf c ->
    options_table c <> [] ->
    Forall (fun e => forall ph src pkgs,
                e = Invoke ph src pkgs -> Dict.mem pkgs "johnny_config" = false)
           (trace (cli w c kwargs)).
Proof.
  intros w c kwargs Hwf Hjc. apply cli_events.
  - intros args.
    eapply Forall_impl; [| apply run_well_invoked].
    intros e He ph src pkgs ->. destruct He as [_ [Hincl _]].
    destruct (Dict.mem pkgs "johnny_config") eqn:Em; [| reflexivity].
    apply mem_in_keys in Em. exfalso. apply (del_keys c "johnny_config" Hwf).
    unfold Dict.keys in *. apply in_map_iff in Em. destruct Em as [[k v] [Hk Hin]].
    apply in_map_iff. exists (k, v). split; [exact Hk |].
    apply Hincl in Hin. unfold packages in Hin.
    destruct (options_table c); [congruence | exact Hin].
  - intros out ph src pkgs H. discriminate H.
Qed.

(** A document with an options table and one package. *)
Definition quiet_doc : Dict.t pkgspec :=
  [("johnny_config", [("quiet", TBool true)]);
   ("foo", [("github", TStr "a/b")])].

Lemma options_table_is_not_a_package_witness :
  Forall (fun e => forall ph src pkgs,
              e = Invoke ph src pkgs -> Dict.mem pkgs "johnny_config" = false)
         (trace (cli forge_world quiet_doc (kwargs_of no_flags))).
Proof.
  apply options_table_is_not_a_package.
  - repeat constructor; simpl; intuition discriminate.
  - discriminate.
Defined.

End CatalogFacts.

(* ------------------------------------------------------------------ *)
(** ** The packages left *)

Module LeftFacts.
Import Hoare DictFacts AdapterFacts MergeFacts RunFacts TraceFacts OutputFacts.
Import ReportFacts CatalogFacts Examples.

Lemma of_chars_nil l : PyStr.of_chars l = "" -> l = [].
Proof. destruct l; [reflexivity | discriminate]. Qed.

Lemma chars_nil s : PyStr.chars s = [] -> s = "".
Proof. destruct s; [reflexivity | discriminate]. Qed.

(** [", ".join(names)] is empty only for no name, or for the empty name
    alone. *)
Lemma join_str_empty names :
  Py.join_str ", " names = "" -> names = [] \/ names = [""].
Proof.
  unfold Py.join_str. intros H. apply of_chars_nil in H.
  destruct names as [| a [| b names]]; [left; reflexivity | |].
  - right. simpl in H. apply chars_nil in H. subst a. reflexivity.
  - exfalso. cbn [map PyStr.join] in H. apply app_eq_nil in H.
    destruct H as [_ H]. discriminate H.
Qed.

Lemma in_not_in (vers : versions) (c : catalog) k :
  In k (Dict.keys c) -> ~ In k (Dict.keys vers) -> In k (Dict.keys (not_in vers c)).
Proof.
  intros Hc Hv. unfold Dict.keys in *. apply in_map_iff in Hc.
  destruct Hc as [[k' pkg] [<- Hin]]. apply in_map_iff. exists (k', pkg).
  split; [reflexivity |]. apply filter_In. split; [exact Hin |]. cbn [fst] in *.
  destruct (Dict.mem vers k') eqn:Em; [| reflexivity].
  apply mem_in_keys in Em. contradiction.
Qed.

Section Run.
Variables (w : World) (args : options) (c : catalog).

Lemma step_keys s vers (left : catalog) st :
  incl (Dict.keys vers) (Dict.keys c) -> incl left c ->
  step_result w args c s vers left st ->
  incl (Dict.keys (fst st)) (Dict.keys c).
Proof.
  intros Hv Hl [new [ts [Hnew [_ [-> _]]]]] k Hk.
  destruct (update_keys_inv _ _ _ Hk) as [H | H]; [apply Hv; exact H |].
  apply (proj2 (call_hoare w s args left) new Hnew) in H.
  unfold Dict.keys in *. apply in_map_iff in H. destruct H as [x [<- Hx]].
  apply in_map. apply Hl. exact Hx.
Qed.

Lemma primary_keys_incl s vers k x new :
  incl (Dict.keys vers) (Dict.keys c) -> primary_group c k x ->
  outcome (call w s args x) = inr new ->
  incl (Dict.keys (update vers new)) (Dict.keys c).
Proof.
  intros Hv [_ Hx] Hnew name Hname.
  destruct (update_keys_inv _ _ _ Hname) as [H | H]; [apply Hv; exact H |].
  apply (proj2 (call_hoare w s args x) new Hnew) in H.
  unfold Dict.keys in *. apply in_map_iff in H. destruct H as [[n pkg] [<- Hin]].
  apply in_map. apply (Hx n pkg Hin).
Qed.

(** With both trust options on, the packages left are at every moment the
    packages of the catalog without a version. *)
Lemma resolve_trusting :
  enabled args "trust_primary" -> enabled args "trust_secondary" ->
  hoare (fun _ => True)
    (fun st => incl (Dict.keys (fst st)) (Dict.keys c)
               /\ snd st = not_in (fst st) c)
    (resolve w args c).
Proof.
  intros [tp [Htp Tp]] [ts [Hts Ts]].
  eapply hoare_conseq; [| intros e He; exact He | intros st Hst; exact Hst].
  apply (resolve_gen w args c (fun _ => True)
           (fun vers => incl (Dict.keys vers) (Dict.keys c))
           (fun vers left => incl (Dict.keys vers) (Dict.keys c)
                             /\ left = not_in vers c));
    try (intros; exact I).
  - intros s pkgs. eapply hoare_conseq; [apply call_hoare | auto | intros; exact I].
  - intros A B src q new n.
    eapply hoare_conseq; [apply status_hoare | auto | intros; exact I].
  - intros k [].
  - intros s vers k x new Hv Hg _ Hnew. eapply primary_keys_incl; eauto.
  - intros vers asked tp' _ Hv Htp'. assert (tp' = tp) by congruence. subst tp'.
    rewrite Tp. auto.
  - intros s vers left st [Hv ->] _ Hst. split.
    + eapply step_keys; [exact Hv | apply not_in_incl | exact Hst].
    + destruct Hst as [new [ts' [_ [Hts' [-> ->]]]]].
      assert (ts' = ts) by congruence. subst ts'. rewrite Ts. reflexivity.
Qed.

(** With [trust_secondary] off, the packages left stay what they are when
    the primary phase ends. *)
Lemma resolve_untrusting :
  disabled args "trust_secondary" ->
  hoare (fun _ => True)
    (fun st => exists vers1 asked tp,
                 outcome (primary_phase w args c) = inr (vers1, asked)
                 /\ Dict.get args "trust_primary" = Some tp
                 /\ snd st = if Py.truthy_opt tp then not_in vers1 c else c)
    (resolve w args c).
Proof.
  intros [ts [Hts Ts]].
  eapply hoare_conseq; [| intros e He; exact He | intros st Hst; exact Hst].
  apply (resolve_gen w args c (fun _ => True) (fun _ => True)
           (fun _ left => exists vers1 asked tp,
                 outcome (primary_phase w args c) = inr (vers1, asked)
                 /\ Dict.get args "trust_primary" = Some tp
                 /\ left = if Py.truthy_opt tp then not_in vers1 c else c));
    try (intros; exact I).
  - intros s pkgs. eapply hoare_conseq; [apply call_hoare | auto | intros; exact I].
  - intros A B src q new n.
    eapply hoare_conseq; [apply status_hoare | auto | intros; exact I].
  - intros vers asked tp Hprim _ Htp. exists vers, asked, tp. auto.
  - intros s vers left st HJ _ [new [ts' [_ [Hts' [_ ->]]]]].
    assert (ts' = ts) by congruence. subst ts'. rewrite Ts. exact HJ.
Qed.

Lemma get_vers_state vers names :
  outcome (get_vers w args c) = inr (vers, names) ->
  exists left, outcome (resolve w args c) = inr (vers, left)
               /\ names = Py.join_str ", " (Dict.keys left).
Proof.
  rewrite get_vers_resolve. intros H.
  destruct (bind_inr _ _ _ H) as [[vers' left'] [Hres [Hrep _]]].
  pose proof (proj2 (report_hoare (fun _ => True) (vers', left') (fun _ _ => I))
                _ Hrep) as E.
  cbn [fst snd] in E. injection E as -> ->. exists left'. auto.
Qed.

End Run.

(** X11.  With [trust_primary] and [trust_secondary] on, a run that returns
    has resolved only packages of the catalog, and what it reports as left
    is exactly the names of the catalog, in catalog order, that have no
    version.  So the report is empty, and the exit status 0, only if every
    package with a non-empty name has a version. *)
Theorem trusting_run_accounts_for_every_package :
  forall (w : World) (args : options) (c : catalog) (vers : versions)
         (names : string),
    enabled args "trust_primary" ->
    enabled args "trust_secondary" ->
    outcome (get_vers w args c) = inr (vers, names) ->
    incl (Dict.keys vers) (Dict.keys c)
    /\ names = Py.join_str ", " (Dict.keys (not_in vers c))
    /\ (names = "" ->
        forall k, In k (Dict.keys c) -> k <> "" -> In k (Dict.keys vers)).
Proof.
  intros w args c vers names Htp Hts Hout.
  destruct (get_vers_state _ _ _ _ _ Hout) as [left [Hres ->]].
  destruct (proj2 (resolve_trusting w args c Htp Hts) _ Hres) as [Hkeys Hleft].
  cbn [fst snd] in Hkeys, Hleft. subst left. repeat split; trivial.
  intros Hempty k Hk Hne.
  destruct (Dict.mem vers k) eqn:Em; [apply mem_in_keys; exact Em |].
  exfalso. assert (Hnot : ~ In k (Dict.keys vers)).
  { intros H. apply mem_in_keys in H. congruence. }
  pose proof (in_not_in vers c k Hk Hnot) as Hin.
  destruct (join_str_empty _ Hempty) as [E | E]; rewrite E in Hin.
  - destruct Hin.
  - destruct Hin as [<- | []]. congruence.
Qed.

(** [foo] is resolved by its primary source; no source knows [bar]. *)
Definition left_cat : catalog :=
  [("foo", [("primary", TStr "github"); ("github", TStr "a/b")]);
   ("bar", [("github", TStr "x/y"); ("gitlab", TStr "bar")])].

Definition left_world : World :=
  world
    [("https://api.github.com/repos/a/b/releases",
      json_body (JArr [JObj [("tag_name", JStr "v1.0.0")]]));
     ("https://api.github.com/repos/x/y/releases", json_body (JArr []));
     ("https://gitlab.com/api/v4/projects/bar/releases", json_body (JArr []));
     ("https://aur.archlinux.org/rpc/?v=5&type=info&arg[]=bar",
      json_body (JObj [("results", JArr [])]));
     ("https://www.archlinux.org/packages/search/json/?name=bar",
      json_body (JObj [("results", JArr [])]))]
    false.

Lemma trusting_defaults :
  enabled default_args "trust_primary" /\ enabled default_args "trust_secondary".
Proof. split; exists (Some (TBool true)); split; reflexivity. Defined.

Lemma trusting_run_accounts_for_every_package_witness :
  incl ["foo"] (Dict.keys left_cat)
  /\ "bar" = Py.join_str ", "
               (Dict.keys (not_in [("foo", ParserClaims.rel [1; 0; 0]%N)] left_cat)).
Proof.
  refine ((fun H => conj (proj1 H) (proj1 (proj2 H)))
            (trusting_run_accounts_for_every_package left_world default_args left_cat
               [("foo", ParserClaims.rel [1; 0; 0]%N)] "bar"
               (proj1 trusting_defaults) (proj2 trusting_defaults) _)).
  vm_compute. reflexivity.
Defined.

(** X12.  With [trust_secondary] off, what a run reports as left is settled
    when the primary phase ends: the names without a version at that moment
    if [trust_primary] is on, every name of the catalog otherwise.  What the
    secondary sources find does not shorten the report. *)
Theorem untrusting_report_ignores_secondary :
  forall (w : World) (args : options) (c : catalog) (vers : versions)
         (names : string),
    disabled args "trust_secondary" ->
    outcome (get_vers w args c) = inr (vers, names) ->
    exists vers1 asked tp,
      outcome (primary_phase w args c) = inr (vers1, asked)
      /\ Dict.get args "trust_primary" = Some tp
      /\ names = Py.join_str ", "
                   (Dict.keys (if Py.truthy_opt tp then not_in vers1 c else c)).
Proof.
  intros w args c vers names Hts Hout.
  destruct (get_vers_state _ _ _ _ _ Hout) as [left [Hres ->]].
  destruct (proj2 (resolve_untrusting w args c Hts) _ Hres)
    as [vers1 [asked [tp [Hprim [Htp Hleft]]]]].
  cbn [snd] in Hleft. subst left. exists vers1, asked, tp. auto.
Qed.

Lemma untrusting_report_ignores_secondary_witness :
  exists vers1 asked tp,
    outcome (primary_phase forge_world untrusting_args multi_cat) = inr (vers1, asked)
    /\ Dict.get untrusting_args "trust_primary" = Some tp
    /\ "foo" = Py.join_str ", "
                 (Dict.keys (if Py.truthy_opt tp then not_in vers1 multi_cat
                             else multi_cat)).
Proof.
  assert (Hoff : disabled untrusting_args "trust_secondary").
  { exists (Some (TBool false)). split; reflexivity. }
  refine (untrusting_report_ignores_secondary forge_world untrusting_args multi_cat
            [("foo", ParserClaims.rel [1; 2; 0]%N)] "foo" Hoff _).
  vm_compute. reflexivity.
Defined.

End LeftFacts.

(* ------------------------------------------------------------------ *)
(** ** The order of the sources *)

Module OrderOfSources.
Import Hoare DictFacts AdapterFacts MergeFacts RunFacts TraceFacts OutputFacts.
Import ReportFacts CatalogFacts LeftFacts Examples.

(** The sources invoked in the secondary phase, in order. *)
Definition secondary_calls (log : list event) : list string :=
  flat_map
    (fun e => match e with
              | Invoke Secondary src _ => [src]
              | _ => []
              end)
    log.

(** The order in which [get_secondary] goes through the sources: those the
    primary phase did not ask, then those it asked. *)
Definition secondary_order (asked : list string) : list source :=
  filter (fun x => negb (name_in (source_name x) asked)) sources_list
  ++ filter (fun x => name_in (source_name x) asked) sources_list.

Lemma secondary_calls_app l1 l2 :
  secondary_calls (l1 ++ l2) = secondary_calls l1 ++ secondary_calls l2.
Proof. apply flat_map_app. Qed.

Lemma secondary_calls_plain log : Forall plain log -> secondary_calls log = [].
Proof.
  induction 1 as [| e log He _ IH]; [reflexivity |].
  cbn [secondary_calls flat_map]. fold (secondary_calls log). rewrite IH.
  destruct e; try reflexivity. destruct He.
Qed.

Section Order.
Variables (w : World) (args : options) (c : catalog).

(** One step invokes its source once. *)
Lemma secondary_step_calls s vers left :
  secondary_calls (trace (get_secondary_source w args c s vers left))
  = [source_name s].
Proof.
  unfold get_secondary_source. rewrite bind_emit. cbn [trace snd].
  change (secondary_calls (Invoke Secondary (source_name s) left :: ?t))
    with (source_name s :: secondary_calls t).
  f_equal. apply secondary_calls_plain.
  match goal with |- Forall plain (trace ?m) => assert (H : hoare plain any m) end.
  { eapply (hoare_bind _ any).
    { eapply hoare_conseq; [apply call_hoare | apply request_plain | intros; exact I]. }
    intros new _. eapply (hoare_bind _ any).
    { apply hoare_emit; exact I. }
    intros _ _. eapply (hoare_bind _ any).
    { eapply hoare_conseq; [apply status_hoare | apply stderr_plain | intros; exact I]. }
    intros _ _. eapply (hoare_bind _ any); [apply option_of_quiet |].
    intros ts _. destruct (Py.truthy_opt ts); apply hoare_ret; exact I. }
  apply H.
Qed.

(** The loop invokes the sources of a prefix of its list, all of them if it
    returns with packages left. *)
Lemma secondary_loop_calls ss :
  forall vers left,
  exists done rest,
    ss = done ++ rest
    /\ secondary_calls (trace (secondary_loop w args c ss vers left))
       = map source_name done
    /\ forall vers' left',
         outcome (secondary_loop w args c ss vers left) = inr (vers', left') ->
         left' <> [] -> rest = [].
Proof.
  induction ss as [| s ss IH]; intros vers left.
  - exists [], []. repeat split.
  - cbn [secondary_loop].
    pose proof (secondary_step_calls s vers left) as Hstep.
    destruct (get_secondary_source w args c s vers left)
      as [[e | [vers1 left1]] log1] eqn:Es.
    + exists [s], ss. repeat split; [exact Hstep | discriminate].
    + cbn [trace snd] in Hstep. destruct left1 as [| p left1].
      * exists [s], ss. repeat split.
        -- cbn [bind ret trace snd]. rewrite app_nil_r. exact Hstep.
        -- intros vers' left' H. cbn in H. injection H as _ <-. congruence.
      * destruct (IH vers1 (p :: left1)) as [done [rest [-> [Hcalls Hrest]]]].
        exists (s :: done), rest. split; [reflexivity |].
        cbn [bind]. destruct (secondary_loop w args c (done ++ rest) vers1 (p :: left1))
          as [r log2] eqn:El.
        cbn [trace snd outcome fst] in *. split.
        -- rewrite secondary_calls_app, Hstep, Hcalls. reflexivity.
        -- exact Hrest.
Qed.

Lemma run_secondary_calls vers asked left l :
  exists done rest,
    filter (fun x => l (source_name x) asked) sources_list = done ++ rest
    /\ secondary_calls (trace (run_secondary w args c vers asked left l))
       = map source_name done
    /\ forall vers' left',
         outcome (run_secondary w args c vers asked left l) = inr (vers', left') ->
         left' <> [] -> rest = [].
Proof.
  unfold run_secondary. destruct left as [| p left].
  - exists [], (filter (fun x => l (source_name x) asked) sources_list).
    repeat split. intros vers' left' H. cbn in H. injection H as _ <-. congruence.
  - apply secondary_loop_calls.
Qed.

Lemma get_secondary_calls vers asked left :
  exists done rest,
    secondary_order asked = done ++ rest
    /\ secondary_calls (trace (get_secondary w args c vers asked left))
       = map source_name done
    /\ forall vers' left',
         outcome (get_secondary w args c vers asked left) = inr (vers', left') ->
         left' <> [] -> rest = [].
Proof.
  unfold get_secondary, secondary_order.
  destruct (run_secondary_calls vers asked left
              (fun name asked => negb (name_in name asked)))
    as [done1 [rest1 [E1 [Hcalls1 Hrest1]]]].
  rewrite E1.
  destruct (run_secondary w args c vers asked left
              (fun name asked => negb (name_in name asked)))
    as [[e | [vers1 left1]] log1] eqn:Erun.
  - exists done1, (rest1 ++ filter (fun x => name_in (source_name x) asked) sources_list).
    rewrite <- app_assoc. repeat split; [exact Hcalls1 | discriminate].
  - cbn [bind trace snd outcome fst] in *.
    destruct (run_secondary_calls vers1 asked left1
                (fun name asked => name_in name asked))
      as [done2 [rest2 [E2 [Hcalls2 Hrest2]]]].
    rewrite E2.
    destruct (run_secondary w args c vers1 asked left1
                (fun name asked => name_in name asked)) as [r log2] eqn:Erun2.
    cbn [trace snd outcome fst] in *.
    destruct left1 as [| p left1].
    + unfold run_secondary in Erun2. injection Erun2 as <- <-.
      exists done1, (rest1 ++ done2 ++ rest2). rewrite <- app_assoc. split; [reflexivity |].
      split; [rewrite app_nil_r; exact Hcalls1 |].
      intros vers' left' H. injection H as _ <-. congruence.
    + assert (rest1 = []) as -> by (apply (Hrest1 vers1 (p :: left1) eq_refl); discriminate).
      rewrite app_nil_r. exists (done1 ++ done2), rest2. rewrite app_assoc.
      split; [reflexivity |]. split.
      * rewrite secondary_calls_app, Hcalls1, Hcalls2, map_app. reflexivity.
      * exact Hrest2.
Qed.

End Order.

Lemma filter_split {A} (p : A -> bool) (l : list A) :
  Permutation (filter (fun x => negb (p x)) l ++ filter p l) l.
Proof.
  induction l as [| a l IH]; [constructor |]. simpl.
  destruct (p a); simpl.
  - apply Permutation_sym. apply Permutation_cons_app. apply Permutation_sym. exact IH.
  - constructor. exact IH.
Qed.

(** X13.  The secondary phase goes through github, gitlab, aur and arch, each
    at most once: first those the primary phase did not ask, then those it
    asked, both in the order of [sources_list].  It invokes the sources of a
    prefix of that sequence, and a run of the phase that returns with
    packages left has invoked all four. *)
Theorem secondary_phase_asks_each_source_once :
  forall (w : World) (args : options) (c : catalog) (vers : versions)
         (asked : list string) (left : catalog),
    Permutation (secondary_order asked) sources_list
    /\ exists done rest,
         secondary_order asked = done ++ rest
         /\ secondary_calls (trace (get_secondary w args c vers asked left))
            = map source_name done
         /\ forall vers' left',
              outcome (get_secondary w args c vers asked left) = inr (vers', left') ->
              left' <> [] -> rest = [].
Proof.
  intros w args c vers asked left. split.
  - apply (filter_split (fun x => name_in (source_name x) asked)).
  - apply get_secondary_calls.
Qed.

End OrderOfSources.

(* ------------------------------------------------------------------ *)
(** ** Runs that cannot return *)

Module FailureFacts.
Import Hoare DictFacts AdapterFacts MergeFacts RunFacts TraceFacts OutputFacts.
Import ReportFacts CatalogFacts LeftFacts Examples.

(** The computation raises. *)
Definition fails {A} (m : M A) : Prop := exists e, outcome m = inl e.

Lemma fails_bind {A B} (m : M A) (f : A -> M B) :
  fails m -> fails (bind m f).
Proof. intros [e He]. exists e. rewrite outcome_bind, He. reflexivity. Qed.

Lemma fails_bind_r {A B} (m : M A) (f : A -> M B) :
  (forall a, fails (f a)) -> fails (bind m f).
Proof.
  intros H. unfold fails. rewrite outcome_bind.
  destruct (outcome m) as [e | a]; [eauto | apply H].
Qed.

(** A loop one of whose iterations raises in every state raises. *)
Lemma for_each_fails {A S} (l : list A) (body : S -> A -> M S) a :
  In a l -> (forall s, fails (body s a)) -> forall s, fails (for_each l s body).
Proof.
  induction l as [| b l IH]; intros Hin Hbody s; [destruct Hin |].
  cbn [for_each]. destruct Hin as [-> | Hin].
  - apply fails_bind. apply Hbody.
  - apply fails_bind_r. intros s'. apply IH; assumption.
Qed.

Lemma groupby_complete {A} (l : list (string * A)) k a :
  In (k, a) l -> exists g, In (k, g) (groupby l).
Proof.
  induction l as [| [k0 a0] t IH]; intros H; [destruct H |].
  simpl. destruct (groupby t) as [| [k1 g1] gs] eqn:Eg.
  - destruct H as [H | H].
    + injection H as -> _. eexists. left. reflexivity.
    + destruct (IH H) as [g []].
  - destruct (String.eqb_spec k0 k1) as [<- | Hne].
    + destruct H as [H | H].
      * injection H as -> _. eexists. left. reflexivity.
      * destruct (IH H) as [g [Hg | Hg]].
        -- injection Hg as <- _. eexists. left. reflexivity.
        -- exists g. right. exact Hg.
    + destruct H as [H | H].
      * injection H as -> _. eexists. left. reflexivity.
      * destruct (IH H) as [g Hg]. exists g. right. exact Hg.
Qed.

(** X14.  A package whose [primary] is not the name of a source, or is not a
    string, makes the primary phase raise, whatever the other packages and
    the answers are; with [primary] on, the run raises. *)
Theorem unknown_primary_source_is_fatal :
  forall (w : World) (args : options) (c : catalog) (name : string)
         (pkg : pkgspec) (p : tomlval),
    In (name, pkg) c ->
    Dict.get pkg "primary" = Some p ->
    (forall k, p = TStr k -> Dict.get sources k = None) ->
    (forall vers, fails (get_primary w args c vers))
    /\ (enabled args "primary" -> fails (get_vers w args c)).
Proof.
  intros w args c name pkg p Hin Hp Hunknown.
  assert (Hprim : forall vers, fails (get_primary w args c vers)).
  { intros vers. unfold get_primary.
    set (primary := filter (fun '(k, v) => Dict.mem v "primary") c).
    assert (Hmem : In (name, pkg) primary).
    { apply filter_In. split; [exact Hin |]. unfold Dict.mem. rewrite Hp. reflexivity. }
    unfold primary_keys. destruct (forallb primary_is_str primary) eqn:Eall.
    - rewrite bind_ret_l.
      rewrite forallb_forall in Eall. pose proof (Eall _ Hmem) as Hstr.
      unfold primary_is_str in Hstr. cbn [snd] in Hstr. rewrite Hp in Hstr.
      destruct p as [k | |]; try discriminate.
      match goal with |- fails (for_each (groupby (PyOrder.sorted _ ?keyed)) _ _) =>
        assert (Hk : In (k, (name, pkg)) keyed)
      end.
      { apply in_flat_map. exists (name, pkg). split; [exact Hmem |].
        cbn [snd]. rewrite Hp. left. reflexivity. }
      apply (Permutation_in _ (Permutation_sym (SortFacts.sorted_perm
               (fun a b => str_ltb (fst a) (fst b)) _))) in Hk.
      destruct (groupby_complete _ _ _ Hk) as [g Hg].
      apply (for_each_fails _ _ (k, g) Hg).
      intros [vers' asked]. rewrite (Hunknown k eq_refl). exists KeyError. reflexivity.
    - destruct (existsb primary_is_str primary); eexists; reflexivity. }
  split; [exact Hprim |].
  intros [v [Hv Ht]]. unfold get_vers, option_of. rewrite Hv, bind_ret_l.
  apply fails_bind_r. intros asec. apply fails_bind_r. intros tp.
  rewrite Ht. apply fails_bind. apply Hprim.
Qed.

Lemma unknown_primary_source_is_fatal_witness :
  fails (get_vers forge_world default_args
           [("foo", [("primary", TStr "github"); ("github", TStr "a/b")]);
            ("baz", [("primary", TStr "sourcehut")])]).
Proof.
  refine (proj2 (unknown_primary_source_is_fatal forge_world default_args
                   [("foo", [("primary", TStr "github"); ("github", TStr "a/b")]);
                    ("baz", [("primary", TStr "sourcehut")])]
                   "baz" [("primary", TStr "sourcehut")] (TStr "sourcehut") _ _ _) _).
  - right. left. reflexivity.
  - reflexivity.
  - intros k E. injection E as <-. reflexivity.
  - exists (Some (TBool true)). split; reflexivity.
Defined.

(** *** Secondary sources that need an identifier *)

Lemma agithub_no_identifier w args (pkgs : catalog) type field :
  Dict.mem args "github_token" = true ->
  (forall name pkg, In (name, pkg) pkgs ->
                    Py.truthy_opt (Dict.get pkg "github") = false) ->
  agithub w args pkgs type field = (inl ValueError, []).
Proof.
  intros Htok Hnone. unfold agithub, option_of.
  unfold Dict.mem in Htok. destruct (Dict.get args "github_token") as [tok |];
    [| discriminate]. rewrite bind_ret_l.
  match goal with |- context [wait w ?aws] => assert (E : aws = []) end.
  { induction pkgs as [| [name pkg] t IH]; [reflexivity |]. cbn [flat_map].
    rewrite IH by (intros n p Hin; apply (Hnone n p); right; exact Hin).
    pose proof (Hnone name pkg (or_introl eq_refl)) as H.
    destruct (Dict.get pkg "github") as [id_ |]; [| reflexivity].
    simpl in H. rewrite H. reflexivity. }
  rewrite E. reflexivity.
Qed.

Lemma agitlab_no_identifier w args (pkgs : catalog) type field :
  Dict.mem args "gitlab_token" = true ->
  (forall name pkg, In (name, pkg) pkgs ->
                    Py.truthy_opt (Dict.get pkg "gitlab") = false) ->
  agitlab w args pkgs type field = (inl ValueError, []).
Proof.
  intros Htok Hnone. unfold agitlab, option_of.
  unfold Dict.mem in Htok. destruct (Dict.get args "gitlab_token") as [tok |];
    [| discriminate]. rewrite bind_ret_l.
  match goal with |- context [for_each pkgs [] ?body] =>
    assert (E : forall aws, for_each pkgs aws body = ret aws)
  end.
  { induction pkgs as [| [name pkg] t IH]; intros aws; [reflexivity |].
    cbn [for_each].
    pose proof (Hnone name pkg (or_introl eq_refl)) as H.
    destruct (Dict.get pkg "gitlab") as [id_ |].
    - simpl in H. rewrite H, bind_ret_l.
      apply IH. intros n p Hin. apply (Hnone n p). right. exact Hin.
    - rewrite bind_ret_l.
      apply IH. intros n p Hin. apply (Hnone n p). right. exact Hin. }
  rewrite E, bind_ret_l. reflexivity.
Qed.

Lemma step_raises w args c s vers left :
  call w s args left = (inl ValueError, []) ->
  get_secondary_source w args c s vers left
  = (inl ValueError, [Invoke Secondary (source_name s) left]).
Proof.
  intros H. unfold get_secondary_source. rewrite bind_emit, H. reflexivity.
Qed.

(** X15.  The secondary phase starts with github, unless the primary phase
    asked it, and the github adapter raises when no package it is given has
    an identifier for it.  So when none of the packages left has a [github]
    identifier the phase ends at once with [ValueError], having sent no
    request; gitlab, aur and arch are not reached.  The same holds of gitlab
    when the primary phase asked github and not gitlab. *)
Theorem secondary_phase_needs_a_forge_identifier :
  forall (w : World) (args : options) (c : catalog) (vers : versions)
         (asked : list string) (left : catalog),
    left <> [] ->
    (name_in "github" asked = false ->
     Dict.mem args "github_token" = true ->
     (forall name pkg, In (name, pkg) left ->
                       Py.truthy_opt (Dict.get pkg "github") = false) ->
     get_secondary w args c vers asked left
     = (inl ValueError, [Invoke Secondary "github" left]))
    /\ (name_in "github" asked = true ->
        name_in "gitlab" asked = false ->
        Dict.mem args "gitlab_token" = true ->
        (forall name pkg, In (name, pkg) left ->
                          Py.truthy_opt (Dict.get pkg "gitlab") = false) ->
        get_secondary w args c vers asked left
        = (inl ValueError, [Invoke Secondary "gitlab" left])).
Proof.
  intros w args c vers asked left Hne.
  destruct left as [| p left]; [congruence |]. split.
  - intros Hgh Htok Hnone. unfold get_secondary, run_secondary, sources_list.
    cbn [filter source_name]. rewrite Hgh. cbn [negb secondary_loop].
    rewrite (step_raises w args c Github); [reflexivity |].
    apply agithub_no_identifier; assumption.
  - intros Hgh Hgl Htok Hnone. unfold get_secondary, run_secondary, sources_list.
    cbn [filter source_name]. rewrite Hgh, Hgl. cbn [negb secondary_loop].
    rewrite (step_raises w args c Gitlab); [reflexivity |].
    apply agitlab_no_identifier; assumption.
Qed.

Lemma secondary_phase_needs_a_forge_identifier_witness :
  get_secondary aur_world default_args aur_pkgs [] [] aur_pkgs
  = (inl ValueError, [Invoke Secondary "github" aur_pkgs]).
Proof.
  refine (proj1 (secondary_phase_needs_a_forge_identifier aur_world default_args
                   aur_pkgs [] [] aur_pkgs _) _ _ _).
  - discriminate.
  - reflexivity.
  - reflexivity.
  - intros name pkg [H | [H | []]]; injection H as _ <-; reflexivity.
Defined.

(** C4, on the code.  With [trust_secondary] off the packages github
    resolves stay in [left], and gitlab is invoked on them next.  When none
    of them has a [gitlab] identifier the gitlab adapter raises (it awaits an
    empty list of requests) and the phase ends there with [ValueError]: aur
    and arch are never invoked, so a package resolved by github is not
    passed to every later source, and the phase yields no final value.  The
    claim asks that it be passed to all of them. *)
Theorem untrusted_secondary_stops_at_gitlab :
  forall (w : World) (args : options) (c : catalog) (vers : versions)
         (asked : list string) (left : catalog) (st : versions * catalog),
    disabled args "trust_secondary" ->
    left <> [] ->
    name_in "github" asked = false ->
    name_in "gitlab" asked = false ->
    Dict.mem args "gitlab_token" = true ->
    (forall name pkg, In (name, pkg) left ->
                      Py.truthy_opt (Dict.get pkg "gitlab") = false) ->
    outcome (get_secondary_source w args c Github vers left) = inr st ->
    snd st = left
    /\ get_secondary w args c vers asked left
       = (inl ValueError,
          trace (get_secondary_source w args c Github vers left)
          ++ [Invoke Secondary "gitlab" left])
    /\ (forall src pkgs,
          In (Invoke Secondary src pkgs)
             (trace (get_secondary w args c vers asked left)) ->
          src = "github" \/ src = "gitlab").
Proof.
  intros w args c vers asked left st [ts [Hts Hoff]] Hne Hgh Hgl Htok Hnone Hstep.
  destruct (get_secondary_source_hoare w args c Github vers left) as [Hev Hpost].
  destruct (Hpost _ Hstep) as [new [ts' [_ [Hts' [_ Hleft]]]]].
  assert (ts' = ts) by congruence. subst ts'. rewrite Hoff in Hleft.
  assert (Hrun : get_secondary w args c vers asked left
                 = (inl ValueError,
                    trace (get_secondary_source w args c Github vers left)
                    ++ [Invoke Secondary "gitlab" left])).
  { destruct st as [vers1 left1]. cbn [snd] in Hleft. subst left1.
    destruct left as [| p left0]; [congruence |].
    unfold get_secondary, run_secondary, sources_list.
    cbn [filter source_name]. rewrite Hgh, Hgl. cbn [negb secondary_loop].
    destruct (get_secondary_source w args c Github vers (p :: left0))
      as [[e | st1] log] eqn:Egh; cbn [outcome fst] in Hstep; [discriminate |].
    injection Hstep as ->. cbn [trace snd bind].
    rewrite (step_raises w args c Gitlab);
      [reflexivity | apply agitlab_no_identifier; assumption]. }
  split; [exact Hleft |]. split; [exact Hrun |].
  intros src pkgs Hin. rewrite Hrun in Hin. cbn [trace snd] in Hin.
  apply in_app_or in Hin. destruct Hin as [Hin | [Hin | []]].
  - rewrite Forall_forall in Hev. destruct (Hev _ Hin) as [[] | Heq].
    injection Heq as -> _. left. reflexivity.
  - injection Hin as <- _. right. reflexivity.
Qed.

Lemma untrusted_secondary_stops_at_gitlab_witness :
  get_secondary forge_world untrusting_args github_cat [] [] github_cat
  = (inl ValueError,
     [Invoke Secondary "github" github_cat;
      Request "https://api.github.com/repos/a/b/releases" [];
      Resolved [("foo", ParserClaims.rel [1; 0; 0]%N)];
      Stderr "Asking github for 1 packages, found 1, total: 1";
      Invoke Secondary "gitlab" github_cat]).
Proof.
  refine (proj1 (proj2 (untrusted_secondary_stops_at_gitlab forge_world
                          untrusting_args github_cat [] [] github_cat
                          ([("foo", ParserClaims.rel [1; 0; 0]%N)], github_cat)
                          _ _ _ _ _ _ _))).
  - exists (Some (TBool false)). split; reflexivity.
  - discriminate.
  - reflexivity.
  - reflexivity.
  - reflexivity.
  - intros name pkg [H | []]. injection H as _ <-. reflexivity.
  - vm_compute. reflexivity.
Defined.

End FailureFacts.

(* ------------------------------------------------------------------ *)
(** ** Options: command line, document, defaults *)

Module OptionFacts.
Import Hoare DictFacts AdapterFacts RunFacts ReportFacts Examples.

(** The value [read_config] gives an option left unset on the command line. *)
Definition fallback (config : Dict.t tomlval) (k : string) : option tomlval :=
  match Dict.get config k with
  | Some x => Some x
  | None => Dict.get defaults k
  end.

(** The step of the second loop of [read_config]. *)
Definition fill (config : Dict.t tomlval) (acc : options)
  (kv : string * option tomlval) : options :=
  let '(k, v) := kv in
  match v with
  | None => Dict.set acc k (fallback config k)
  | Some _ => acc
  end.

Definition filled (config : Dict.t tomlval) (kv : string * option tomlval)
  : string * option tomlval :=
  (fst kv, match snd kv with
           | None => fallback config (fst kv)
           | Some x => Some x
           end).

Lemma set_middle {V} (a b : Dict.t V) k v x :
  ~ In k (Dict.keys a) -> Dict.set (a ++ (k, v) :: b) k x = a ++ (k, x) :: b.
Proof.
  induction a as [| [k' v'] a IH]; intros Hk; simpl.
  - rewrite String.eqb_refl. reflexivity.
  - destruct (String.eqb_spec k' k) as [-> | Hne].
    + exfalso. apply Hk. left. reflexivity.
    + f_equal. apply IH. intros H. apply Hk. right. exact H.
Qed.

Lemma keys_filled config l : Dict.keys (map (filled config) l) = Dict.keys l.
Proof. unfold Dict.keys. rewrite map_map. apply map_ext. intros [k v]. reflexivity. Qed.

Lemma fill_all config (todo : options) :
  forall done,
    Dict.wf (done ++ todo) ->
    fold_left (fill config) todo (map (filled config) done ++ todo)
    = map (filled config) (done ++ todo).
Proof.
  induction todo as [| [k v] todo IH]; intros done Hwf; cbn [fold_left].
  - rewrite map_app. reflexivity.
  - assert (Hk : ~ In k (Dict.keys (map (filled config) done))).
    { rewrite keys_filled. unfold Dict.wf, Dict.keys in Hwf. rewrite map_app in Hwf.
      apply NoDup_remove_2 in Hwf. intros H. apply Hwf. apply in_or_app. left. exact H. }
    assert (Hstep : fill config (map (filled config) done ++ (k, v) :: todo) (k, v)
                    = map (filled config) (done ++ [(k, v)]) ++ todo).
    { rewrite map_app, <- app_assoc. cbn [map app fill]. destruct v as [x |].
      - reflexivity.
      - apply set_middle. exact Hk. }
    rewrite Hstep, IH; rewrite <- app_assoc; [reflexivity | exact Hwf].
Qed.

Lemma get_filled config (args : options) k :
  Dict.get (map (filled config) args) k
  = match Dict.get args k with
    | Some None => Some (fallback config k)
    | other => other
    end.
Proof.
  induction args as [| [k' v'] args IH]; [reflexivity |].
  cbn [map filled fst snd Dict.get].
  destruct (String.eqb_spec k' k) as [-> | Hne]; [| exact IH].
  destruct v'; reflexivity.
Qed.

Lemma known_keys_pass (args : options) (keys : list string) :
  (forall k, In k keys -> Dict.mem args k = true) ->
  for_each keys tt (fun _ k => if Dict.mem args k then ret tt else raise KeyError)
  = ret tt.
Proof.
  induction keys as [| k keys IH]; intros H; [reflexivity |].
  cbn [for_each]. rewrite (H k (or_introl eq_refl)), bind_ret_l.
  apply IH. intros k' Hk'. apply H. right. exact Hk'.
Qed.

(** X16.  When every option of the document is a known option, [read_config]
    returns, silently, the options in the same order: an option given on the
    command line keeps its value, whatever the document says; an option that
    is not given takes the value of the document; an option given in
    neither takes its default, and a token stays [None]. *)
Theorem read_config_precedence :
  forall (args : options) (config : Dict.t tomlval),
    Dict.wf args ->
    (forall k, In k (Dict.keys config) -> Dict.mem args k = true) ->
    exists args',
      read_config args config = (inr args', [])
      /\ Dict.keys args' = Dict.keys args
      /\ forall k,
           Dict.get args' k
           = match Dict.get args k with
             | Some (Some v) => Some (Some v)
             | Some None =>
                 Some (match Dict.get config k with
                       | Some x => Some x
                       | None => Dict.get defaults k
                       end)
             | None => None
             end.
Proof.
  intros args config Hwf Hknown. exists (map (filled config) args).
  split; [| split].
  - unfold read_config. rewrite (known_keys_pass args _ Hknown), bind_ret_l.
    unfold ret. do 2 f_equal.
    change (fold_left (fill config) args (map (filled config) [] ++ args)
            = map (filled config) ([] ++ args)).
    apply fill_all. exact Hwf.
  - apply keys_filled.
  - intros k. rewrite get_filled. destruct (Dict.get args k) as [[v |] |]; reflexivity.
Qed.

Lemma read_config_precedence_witness :
  exists args',
    read_config (kwargs_of (mkFlags None None None (Some true) None None None None))
      [("secondary", TBool false); ("quiet", TBool true)]
    = (inr args', [])
    /\ Dict.get args' "secondary" = Some (Some (TBool true))
    /\ Dict.get args' "quiet" = Some (Some (TBool true))
    /\ Dict.get args' "primary" = Some (Some (TBool true))
    /\ Dict.get args' "github_token" = Some None.
Proof.
  destruct (read_config_precedence
              (kwargs_of (mkFlags None None None (Some true) None None None None))
              [("secondary", TBool false); ("quiet", TBool true)])
    as [args' [Hrun [_ Hget]]].
  - repeat constructor; simpl; intuition discriminate.
  - intros k [<- | [<- | []]]; reflexivity.
  - exists args'. split; [exact Hrun |]. rewrite !Hget. repeat split.
Defined.

End OptionFacts.

(* ------------------------------------------------------------------ *)
(** ** The order of the resolved map *)

Module MergeOrder.
Import DictFacts MergeFacts.

Lemma keys_set_present {V} (d : Dict.t V) k v :
  In k (Dict.keys d) -> Dict.keys (Dict.set d k v) = Dict.keys d.
Proof.
  induction d as [| [k' v'] d IH]; intros H; [destruct H |]. simpl.
  destruct (String.eqb_spec k' k) as [-> | Hne]; [reflexivity |].
  simpl. f_equal. apply IH. simpl in H. destruct H as [H | H]; [congruence | exact H].
Qed.

Lemma keys_set_absent {V} (d : Dict.t V) k v :
  ~ In k (Dict.keys d) -> Dict.keys (Dict.set d k v) = Dict.keys d ++ [k].
Proof.
  induction d as [| [k' v'] d IH]; intros H; [reflexivity |]. simpl.
  destruct (String.eqb_spec k' k) as [-> | Hne].
  - exfalso. apply H. left. reflexivity.
  - simpl. f_equal. apply IH. intros Hin. apply H. right. exact Hin.
Qed.

Lemma keys_merge1 (res : versions) k v :
  Dict.keys (merge1 res (k, v))
  = if Dict.mem res k then Dict.keys res else Dict.keys res ++ [k].
Proof.
  unfold merge1, Dict.mem. destruct (Dict.get res k) as [ov |] eqn:Eg.
  - destruct (VersionOrder.gtb v ov); [| reflexivity].
    apply keys_set_present. eapply get_in_keys. exact Eg.
  - apply keys_set_absent. intros H. apply in_keys_get in H.
    destruct H as [x Hx]. congruence.
Qed.

Lemma mem_keys {V W} (a : Dict.t V) (b : Dict.t W) k :
  Dict.keys a = Dict.keys b -> Dict.mem a k = Dict.mem b k.
Proof.
  intros E. destruct (Dict.mem a k) eqn:Ea, (Dict.mem b k) eqn:Eb; trivial.
  - apply mem_in_keys in Ea. rewrite E in Ea. apply mem_in_keys in Ea. congruence.
  - apply mem_in_keys in Eb. rewrite <- E in Eb. apply mem_in_keys in Eb. congruence.
Qed.

Lemma mem_app_one {V} (a : Dict.t V) (b : Dict.t V) k k' :
  Dict.keys b = Dict.keys a ++ [k] -> k' <> k -> Dict.mem b k' = Dict.mem a k'.
Proof.
  intros E Hne. destruct (Dict.mem a k') eqn:Ea, (Dict.mem b k') eqn:Eb; trivial.
  - apply mem_in_keys in Ea.
    assert (H : In k' (Dict.keys b)) by (rewrite E; apply in_or_app; left; exact Ea).
    apply mem_in_keys in H. congruence.
  - apply mem_in_keys in Eb. rewrite E in Eb. apply in_app_or in Eb.
    destruct Eb as [H | [H | []]]; [| congruence].
    apply mem_in_keys in H. congruence.
Qed.

Lemma update_keys_order (new : versions) :
  Dict.wf new ->
  forall old,
    Dict.keys (update old new)
    = Dict.keys old ++ filter (fun k => negb (Dict.mem old k)) (Dict.keys new).
Proof.
  induction new as [| [k v] new IH]; intros Hwf old.
  - simpl. symmetry. apply app_nil_r.
  - destruct (wf_head _ _ _ Hwf) as [Hk Hwf']. rewrite update_cons, (IH Hwf').
    pose proof (keys_merge1 old k v) as Hm. cbn [Dict.keys map fst filter].
    fold (Dict.keys new). destruct (Dict.mem old k) eqn:Em; cbn [negb].
    + rewrite Hm. f_equal. apply filter_ext. intros k'.
      rewrite (mem_keys _ old k' Hm). reflexivity.
    + rewrite Hm, <- app_assoc. cbn [app]. do 2 f_equal.
      apply filter_ext_in. intros k' Hk'. f_equal.
      apply (mem_app_one old _ k k' Hm). intros ->. contradiction.
Qed.

Lemma update_wf (old new : versions) :
  Dict.wf new -> Dict.wf old -> Dict.wf (update old new).
Proof.
  intros Hwf Hold. unfold Dict.wf. rewrite (update_keys_order new Hwf old).
  apply NoDup_app; [exact Hold | | ].
  - apply NoDup_filter. exact Hwf.
  - intros k Hk Hf. apply filter_In in Hf. destruct Hf as [_ Hf].
    apply mem_in_keys in Hk. rewrite Hk in Hf. discriminate Hf.
Qed.

(** X17.  The merge keeps the keys of the old mapping in place and appends
    the keys it did not have, in the order of the new mapping; no key is ever
    removed, moved or duplicated.  The resolved map, and so the printed
    document, lists the packages in the order in which they first got a
    version. *)
Theorem update_keeps_key_order :
  forall old new : versions,
    Dict.wf new ->
    Dict.keys (update old new)
    = Dict.keys old ++ filter (fun k => negb (Dict.mem old k)) (Dict.keys new)
    /\ (Dict.wf old -> Dict.wf (update old new)).
Proof.
  intros old new Hwf. split; [apply update_keys_order; exact Hwf |].
  apply update_wf. exact Hwf.
Qed.

Lemma update_keeps_key_order_witness :
  Dict.keys (update [("b", ParserClaims.rel [1]%N); ("a", ParserClaims.rel [1]%N)]
               [("c", ParserClaims.rel [3]%N); ("a", ParserClaims.rel [2]%N)])
  = ["b"; "a"; "c"].
Proof.
  refine (proj1 (update_keeps_key_order
                   [("b", ParserClaims.rel [1]%N); ("a", ParserClaims.rel [1]%N)]
                   [("c", ParserClaims.rel [3]%N); ("a", ParserClaims.rel [2]%N)] _)).
  repeat constructor; simpl; intuition discriminate.
Defined.

End MergeOrder.

(* ------------------------------------------------------------------ *)
(** ** The printed document *)

Module DocumentFacts.
Import Hoare DictFacts AdapterFacts MergeFacts RunFacts TraceFacts OutputFacts.
Import ReportFacts CatalogFacts LeftFacts PrintFacts ParserClaims Examples.

(** A resolved map whose values are records [try_parse_versions] produces. *)
Definition canonical (vers : versions) : Prop :=
  forall k v, In (k, v) vers -> normalized v.

Lemma canonical_nil : canonical [].
Proof. intros k v []. Qed.

Lemma canonical_set res k v :
  canonical res -> normalized v -> canonical (Dict.set res k v).
Proof.
  intros Hres Hv k' v' Hin. destruct (set_incl _ _ _ _ Hin) as [E | H].
  - injection E as _ ->. exact Hv.
  - apply (Hres k' v' H).
Qed.

Lemma canonical_update new :
  canonical new -> forall old, canonical old -> canonical (update old new).
Proof.
  induction new as [| [k v] new IH]; intros Hnew old Hold; [exact Hold |].
  rewrite update_cons. apply IH.
  - intros k' v' H. apply (Hnew k' v'). right. exact H.
  - assert (Hv : normalized v) by (apply (Hnew k v); left; reflexivity).
    unfold merge1. destruct (Dict.get old k) as [ov |].
    + destruct (VersionOrder.gtb v ov); [apply canonical_set; assumption | exact Hold].
    + apply canonical_set; assumption.
Qed.

Lemma latest_in vers v : latest vers = Some v -> In v vers.
Proof.
  unfold latest. destruct vers as [| a t]; [discriminate |].
  intros H. injection H as <-. apply last_in.
Qed.

Definition all_normalized (vers : list Version) : Prop :=
  forall v, In v vers -> normalized v.

Lemma parse_values_normalized E vals :
  hoare E all_normalized (parse_values vals).
Proof.
  unfold parse_values. eapply (hoare_bind _ any); [apply hoare_lift; intros; exact I |].
  intros strs _. apply hoare_ret. intros v. apply in_try_parse_versions.
Qed.

Lemma field_versions_normalized E field j :
  hoare E all_normalized (field_versions field j).
Proof.
  unfold field_versions. eapply (hoare_bind _ any); [apply hoare_lift; intros; exact I |].
  intros xs _. eapply (hoare_bind _ any); [quiet |].
  intros vals _. apply parse_values_normalized.
Qed.

Section Sources.
Variable w : World.

Lemma forge_results_canonical E field done :
  hoare E canonical (forge_results field done).
Proof.
  unfold forge_results. apply hoare_for_each; [apply canonical_nil |].
  intros res t _ Hres. eapply (hoare_bind _ any); [apply result_quiet |].
  intros [name r] _. eapply (hoare_bind _ any); [apply json_of_quiet |].
  intros j _. destruct (Py.truthy_json j); [| apply hoare_ret; exact Hres].
  eapply hoare_bind; [apply field_versions_normalized |].
  intros vers Hvers. destruct (latest vers) as [v |] eqn:El; apply hoare_ret; trivial.
  apply canonical_set; [exact Hres |]. apply Hvers. apply latest_in. exact El.
Qed.

Lemma agithub_canonical args pkgs type field :
  hoare (fun _ => True) canonical (agithub w args pkgs type field).
Proof.
  unfold agithub. eapply (hoare_bind _ any); [apply option_of_quiet |].
  intros tok _. eapply (hoare_bind _ any).
  - eapply hoare_conseq; [apply wait_hoare | auto | intros; exact I].
  - intros done _. apply forge_results_canonical.
Qed.

Lemma agitlab_canonical args pkgs type field :
  hoare (fun _ => True) canonical (agitlab w args pkgs type field).
Proof.
  unfold agitlab. eapply (hoare_bind _ any); [apply option_of_quiet |].
  intros tok _. eapply (hoare_bind _ any); [quiet |].
  intros aws _. eapply (hoare_bind _ any).
  - eapply hoare_conseq; [apply wait_hoare | auto | intros; exact I].
  - intros done _. apply forge_results_canonical.
Qed.

Lemma aarch_canonical args pkgs :
  hoare (fun _ => True) canonical (aarch w args pkgs).
Proof.
  unfold aarch. eapply (hoare_bind _ any).
  - eapply hoare_conseq; [apply wait_hoare | auto | intros; exact I].
  - intros done _. apply hoare_for_each; [apply canonical_nil |].
    intros res t _ Hres. eapply (hoare_bind _ any); [apply result_quiet |].
    intros [name r] _. eapply (hoare_bind _ any); [apply json_of_quiet |].
    intros j _. eapply (hoare_bind _ any); [quiet |].
    intros j' _. destruct (Py.truthy_json j'); [| apply hoare_ret; exact Hres].
    eapply (hoare_bind _ any); [quiet |]. intros first _.
    eapply (hoare_bind _ any); [quiet |]. intros pkgver _.
    eapply hoare_bind; [apply parse_values_normalized |].
    intros vers Hvers. destruct vers as [| v vers]; apply hoare_ret; trivial.
    apply canonical_set; [exact Hres |]. apply Hvers. left. reflexivity.
Qed.

Lemma aaur_canonical args pkgs :
  hoare (fun _ => True) canonical (aaur w args pkgs).
Proof.
  unfold aaur. eapply (hoare_bind _ any); [apply hoare_emit; exact I |].
  intros _ _. eapply (hoare_bind _ any); [apply result_quiet |].
  intros [n r] _. eapply (hoare_bind _ any); [apply json_of_quiet |].
  intros j _. eapply (hoare_bind _ any); [quiet |].
  intros j' _. eapply (hoare_bind _ any); [quiet |].
  intros entries _. apply hoare_for_each; [apply canonical_nil |].
  intros res [i v] _ Hres.
  destruct (Py.truthy_json v); [| apply hoare_ret; exact Hres].
  eapply (hoare_bind _ any); [quiet |]. intros version _.
  eapply hoare_bind; [apply parse_values_normalized |].
  intros vers Hvers. destruct vers as [| ver vers]; [apply hoare_ret; exact Hres |].
  destruct (nth_error pkgs i) as [[name pkg] |]; [| apply hoare_raise].
  apply hoare_ret. apply canonical_set; [exact Hres |]. apply Hvers. left. reflexivity.
Qed.

Lemma agit_canonical args pkgs :
  hoare (fun _ => True) canonical (agit w args pkgs).
Proof.
  unfold agit. eapply (hoare_bind _ any).
  { eapply hoare_conseq; [| intros e _; exact I | intros; exact I].
    apply (hoare_for_each (fun _ => True) any); [exact I |].
    intros [[aws vers] name0] [name pkg] _ _. unfold GitRefs.urlparse_scheme. quiet. }
  intros [[aws vers] name0] _. eapply (hoare_bind _ any).
  { eapply hoare_conseq; [apply wait_hoare | auto | intros; exact I]. }
  intros done _. eapply (hoare_bind _ any).
  { apply (hoare_for_each _ any); [exact I |].
    intros st t _ _. unfold scan_refs. destruct st as [vers1 name1].
    eapply (hoare_bind _ any); [apply result_quiet |]. intros [name r] _.
    unfold text_splitlines. quiet. }
  intros [vers1 name1] _. destruct vers1 as [s |]; [| apply hoare_raise].
  destruct (latest _) as [v |] eqn:El; [| apply hoare_ret; apply canonical_nil].
  destruct name1 as [name |]; [| apply hoare_raise].
  apply hoare_ret. apply canonical_set; [apply canonical_nil |].
  apply latest_in in El. apply in_try_parse_versions in El. exact El.
Qed.

Lemma call_canonical s args pkgs :
  hoare (fun _ => True) canonical (call w s args pkgs).
Proof.
  destruct s; simpl;
    first [ apply agithub_canonical | apply agitlab_canonical | apply aaur_canonical
          | apply aarch_canonical | apply agit_canonical ].
Qed.

(** Throughout a run the resolved map holds names of the catalog and
    normalized versions. *)
Lemma resolve_canonical args c :
  hoare (fun _ => True)
    (fun st => incl (Dict.keys (fst st)) (Dict.keys c) /\ canonical (fst st))
    (resolve w args c).
Proof.
  eapply hoare_conseq; [| intros e He; exact He |].
  - apply (resolve_gen w args c (fun _ => True)
             (fun vers => incl (Dict.keys vers) (Dict.keys c) /\ canonical vers)
             (fun vers left => incl left c
                               /\ incl (Dict.keys vers) (Dict.keys c)
                               /\ canonical vers));
      try (intros; exact I).
    + intros s pkgs. eapply hoare_conseq; [apply call_hoare | auto | intros; exact I].
    + intros A B src q new n.
      eapply hoare_conseq; [apply status_hoare | auto | intros; exact I].
    + split; [intros k [] | apply canonical_nil].
    + intros s vers k x new [Hk Hc] Hg _ Hnew. split.
      * eapply primary_keys_incl; eauto.
      * apply canonical_update; [| exact Hc].
        apply (proj2 (call_canonical s args x) new Hnew).
    + intros vers asked tp _ [Hk Hc] _. split; [apply start_incl | auto].
    + intros s vers left st [Hl [Hk Hc]] _ Hst. split; [| split].
      * destruct Hst as [new [ts [_ [_ [_ ->]]]]].
        destruct (Py.truthy_opt ts); [apply not_in_incl | exact Hl].
      * eapply step_keys; eauto.
      * destruct Hst as [new [ts [Hnew [_ [-> _]]]]].
        apply canonical_update; [| exact Hc].
        apply (proj2 (call_canonical s args left) new Hnew).
  - intros st [_ H]. exact H.
Qed.

End Sources.

(** An entry of the printed document: the name of a package of the document
    and a version string that is the epoch and release of a version, reads
    back as that version and prints again as itself. *)
Definition well_printed (c : Dict.t pkgspec) (e : event) : Prop :=
  match e with
  | Stdout out =>
      forall k s, In (k, s) out ->
        In k (Dict.keys (packages c))
        /\ exists v, s = PkgVersion.base_version v
                     /\ parse_one s = Some v
                     /\ PkgVersion.to_string v = s
  | _ => True
  end.

(** X18.  Whatever the document, the options and the answers, every entry of
    the document a run prints maps the name of a package of the input
    document to a version string made of the epoch and the release only,
    which [try_parse_versions] reads back as the version it was printed
    from. *)
Theorem printed_document_is_canonical :
  forall (w : World) (c : Dict.t pkgspec) (kwargs : options),
    Forall (well_printed c) (trace (cli w c kwargs)).
Proof.
  intros w c kwargs. rewrite cli_unfold.
  pose proof (read_config_trace kwargs (options_table c)) as Hrc.
  destruct (read_config kwargs (options_table c)) as [[e0 | args] log0];
    cbn [trace snd] in Hrc; subst log0; [constructor |].
  change (@inr exn options args, @nil event) with (ret args). rewrite bind_ret_l.
  assert (Hrun : Forall (well_printed c) (trace (get_vers w args (packages c)))).
  { apply run_events; try (intros; exact I).
    - intros s pkgs. eapply hoare_conseq; [apply call_hoare | | intros; exact I].
      intros e [url [h ->]]. exact I.
    - intros A B src q new n.
      eapply hoare_conseq; [apply status_hoare | | intros; exact I].
      intros e [line ->]. exact I. }
  pose proof (get_vers_state w args (packages c)) as Hstate.
  destruct (get_vers w args (packages c)) as [[e1 | [vers names]] log1];
    cbn [trace snd bind] in *; [exact Hrun |].
  apply Forall_app. split; [exact Hrun |]. constructor; [| constructor].
  destruct (Hstate vers names eq_refl) as [left [Hres _]].
  destruct (proj2 (resolve_canonical w args (packages c)) _ Hres) as [Hkeys Hcan].
  cbn [fst] in Hkeys, Hcan.
  intros k s Hin. unfold make_serializable in Hin. apply in_map_iff in Hin.
  destruct Hin as [[k' v] [E Hin]]. injection E as Ek Es. subst k s. split.
  - apply Hkeys. apply (in_map fst _ _ Hin).
  - pose proof (Hcan _ _ Hin) as Hv. exists v.
    rewrite (to_string_base v (proj1 (normalized_base v Hv))).
    repeat split.
    rewrite <- (to_string_base v (proj1 (normalized_base v Hv))).
    apply reparse_normalized. exact Hv.
Qed.

End DocumentFacts.

(* ------------------------------------------------------------------ *)
(** ** What the forge and the package-search adapters return *)

Module AdapterResults.
Import Hoare DictFacts AdapterFacts Examples.

(** A loop over finished tasks that stores at most one version per task,
    under the name of the task. *)
Section Keyed.
Context {T : Type}.
Variable key : T -> string.
Variable cand : T -> option Version.
Variable body : versions -> T -> M versions.
Hypothesis body_spec :
  forall res t res',
    outcome (body res t) = inr res' ->
    res' = match cand t with
           | Some v => Dict.set res (key t) v
           | None => res
           end.

Lemma keyed_loop l :
  NoDup (map key l) ->
  forall res0 res,
    outcome (for_each l res0 body) = inr res ->
    (forall t, In t l ->
       Dict.get res (key t)
       = match cand t with
         | Some v => Some v
         | None => Dict.get res0 (key t)
         end)
    /\ (forall k, ~ In k (map key l) -> Dict.get res k = Dict.get res0 k).
Proof.
  induction l as [| t l IH]; intros Hnd res0 res Hout.
  - simpl in Hout. injection Hout as <-. split; [intros t [] | reflexivity].
  - cbn [for_each] in Hout. apply bind_inr in Hout.
    destruct Hout as [res1 [Hbody [Hrest _]]].
    apply body_spec in Hbody. cbn [map] in Hnd.
    apply NoDup_cons_iff in Hnd. destruct Hnd as [Hnot Hnd'].
    destruct (IH Hnd' _ _ Hrest) as [Hin Hout].
    assert (Hother : forall k, k <> key t -> Dict.get res1 k = Dict.get res0 k).
    { intros k Hk. rewrite Hbody. destruct (cand t); [| reflexivity].
      apply get_set_neq. congruence. }
    split.
    + intros t' [<- | Ht'].
      * rewrite (Hout _ Hnot), Hbody. destruct (cand t); [| reflexivity].
        apply get_set_eq.
      * rewrite (Hin t' Ht'). destruct (cand t'); [reflexivity |].
        apply Hother. intros E. apply Hnot. rewrite <- E. apply in_map. exact Ht'.
    + intros k Hk. rewrite (Hout k); [apply Hother |]; intros H; apply Hk.
      * left. symmetry. exact H.
      * right. exact H.
Qed.

End Keyed.

Lemma wf_unique {V} (d : Dict.t V) k v v' :
  Dict.wf d -> In (k, v) d -> In (k, v') d -> v = v'.
Proof.
  induction d as [| [k0 v0] d IH]; intros Hwf H H'; [destruct H |].
  destruct (MergeFacts.wf_head _ _ _ Hwf) as [Hk Hd].
  destruct H as [H | H], H' as [H' | H'].
  - congruence.
  - injection H as -> _. exfalso. apply Hk. apply (in_map fst _ _ H').
  - injection H' as -> _. exfalso. apply Hk. apply (in_map fst _ _ H).
  - apply IH; assumption.
Qed.

(** The version the second loop of [agithub] and [agitlab] stores for a
    finished task: the latest of the parsed values of [field]. *)
Definition forge_candidate (field : string) (r : option response) : option Version :=
  match r with
  | Some r =>
      match resp_json r with
      | Some j =>
          if Py.truthy_json j then
            match outcome (field_versions field j) with
            | inr vers => latest vers
            | inl _ => None
            end
          else None
      | None => None
      end
  | None => None
  end.

(** The version the second loop of [aarch] stores: that of the first result. *)
Definition arch_candidate (r : option response) : option Version :=
  match r with
  | Some r =>
      match resp_json r with
      | Some j =>
          match Py.getitem j "results" with
          | inr results =>
              if Py.truthy_json results then
                match Py.getitem0 results with
                | inr first =>
                    match Py.getitem first "pkgver" with
                    | inr pkgver =>
                        match outcome (parse_values [pkgver]) with
                        | inr (v :: _) => Some v
                        | _ => None
                        end
                    | inl _ => None
                    end
                | inl _ => None
                end
              else None
          | inl _ => None
          end
      | None => None
      end
  | None => None
  end.

(** [headers] of [agithub]. *)
Definition github_headers (args : options) : list (string * string) :=
  match Dict.get args "github_token" with
  | Some (Some tok) =>
      if Py.truthy tok then [("Authorization", fmt ["token "; Py.str tok])] else []
  | _ => []
  end.

Section Results.
Variable w : World.

Definition answer (p : pending) : string * option response :=
  let '(name, url, headers) := p in (name, http_get w url headers).

Lemma wait_inr aws done :
  outcome (wait w aws) = inr done -> done = set_order w _ (map answer aws).
Proof.
  unfold wait. destruct aws as [| p aws]; [discriminate |].
  rewrite outcome_bind. rewrite for_each_unit.
  - simpl. intros H. injection H as <-. reflexivity.
  - intros [[name url] headers]. reflexivity.
Qed.

Lemma done_names aws :
  NoDup (map pending_name aws) ->
  NoDup (map fst (set_order w _ (map answer aws))).
Proof.
  intros H. eapply Permutation_NoDup.
  - apply Permutation_map. apply Permutation_sym. apply set_order_perm.
  - rewrite map_map. erewrite map_ext; [exact H |].
    intros [[name url] headers]. reflexivity.
Qed.

Lemma forge_body_spec field res t res' :
  outcome
    ('(name, r) <- result t ;;
     j <- json_of r ;;
     if Py.truthy_json j then
       vers <- field_versions field j ;;
       match latest vers with
       | Some v => ret (Dict.set res name v)
       | None => ret res
       end
     else ret res) = inr res' ->
  res' = match forge_candidate field (snd t) with
         | Some v => Dict.set res (fst t) v
         | None => res
         end.
Proof.
  destruct t as [name [r |]]; [| discriminate]. cbn [result fst snd forge_candidate].
  rewrite bind_ret_l. unfold json_of. destruct (resp_json r) as [j |]; [| discriminate].
  rewrite bind_ret_l. destruct (Py.truthy_json j).
  - rewrite outcome_bind. destruct (outcome (field_versions field j)) as [e | vers];
      [discriminate |].
    destruct (latest vers); simpl; intros H; injection H as <-; reflexivity.
  - simpl. intros H. injection H as <-. reflexivity.
Qed.

(** The tasks of a forge adapter, one per package with an identifier. *)
Lemma forge_results_spec field aws res :
  NoDup (map pending_name aws) ->
  outcome (done <- wait w aws ;; forge_results field done) = inr res ->
  (forall name url headers,
      In (name, url, headers) aws ->
      Dict.get res name = forge_candidate field (http_get w url headers))
  /\ (forall name, ~ In name (map pending_name aws) -> Dict.get res name = None).
Proof.
  intros Hnd Hout. apply bind_inr in Hout. destruct Hout as [done [Hwait [Hloop _]]].
  apply wait_inr in Hwait. subst done. unfold forge_results in Hloop.
  destruct (keyed_loop fst (fun t => forge_candidate field (snd t)) _
              (forge_body_spec field) _ (done_names aws Hnd) _ _ Hloop)
    as [Hin Hnot].
  split.
  - intros name url headers Hp.
    assert (Ht : In (name, http_get w url headers) (set_order w _ (map answer aws))).
    { apply in_set_order. apply (in_map answer _ _ Hp). }
    pose proof (Hin _ Ht) as Hres. cbn [fst snd] in Hres. rewrite Hres.
    destruct (forge_candidate _ _); reflexivity.
  - intros name Hname. rewrite Hnot; [reflexivity |].
    intros H. apply Hname. apply in_map_iff in H. destruct H as [t [<- Ht]].
    apply set_order_in in Ht. apply in_map_iff in Ht.
    destruct Ht as [[[n url] headers] [<- Hp]]. apply (in_map pending_name _ _ Hp).
Qed.

Definition github_tasks (args : options) (type : string) (pkgs : catalog)
  : list pending :=
  flat_map
    (fun '(name, pkg) =>
       match Dict.get pkg "github" with
       | Some id_ =>
           if Py.truthy id_
           then [(name, fmt [github_base; "/"; Py.str id_; "/"; type],
                  github_headers args)]
           else []
       | None => []
       end)
    pkgs.

Lemma github_tasks_names args type (pkgs : catalog) :
  Dict.wf pkgs -> NoDup (map pending_name (github_tasks args type pkgs)).
Proof.
  induction pkgs as [| [name pkg] pkgs IH]; intros Hwf; [constructor |].
  destruct (MergeFacts.wf_head _ _ _ Hwf) as [Hk Hwf'].
  cbn [github_tasks flat_map]. fold (github_tasks args type pkgs).
  destruct (Dict.get pkg "github") as [id_ |]; [| apply IH; exact Hwf'].
  destruct (Py.truthy id_); [| apply IH; exact Hwf'].
  cbn [app map]. constructor; [| apply IH; exact Hwf'].
  intros H. apply Hk. apply in_map_iff in H. destruct H as [[[n url] h] [E Hin]].
  unfold pending_name in E. cbn [fst] in E. subst n.
  apply in_flat_map in Hin. destruct Hin as [[name' pkg'] [Hin Hp]].
  destruct (Dict.get pkg' "github") as [id' |]; [| destruct Hp].
  destruct (Py.truthy id'); [| destruct Hp].
  destruct Hp as [E | []]. injection E as -> _ _. apply (in_map fst _ _ Hin).
Qed.

Lemma agithub_tasks args pkgs type field :
  agithub w args pkgs type field
  = (option_of args "github_token" ;;;
     done <- wait w (github_tasks args type pkgs) ;;
     forge_results field done).
Proof.
  unfold agithub, option_of, github_tasks, github_headers.
  destruct (Dict.get args "github_token") as [tok |]; [| reflexivity].
  rewrite !bind_ret_l. reflexivity.
Qed.

End Results.

(** X19.  When the github adapter returns, each package of the mapping it was
    given has the entry its own response yields and nothing else bears on
    it: a package without a true [github] identifier has no entry; a package
    with one has the latest of the versions parsed from the [field] values
    of the answer to [<github_base>/<id>/<type>], and no entry when that
    answer is empty or holds no parsable value. *)
Theorem agithub_returns_latest_of_own_response :
  forall (w : World) (args : options) (pkgs : catalog) (type field : string)
         (res : versions),
    Dict.wf pkgs ->
    outcome (agithub w args pkgs type field) = inr res ->
    forall name pkg,
      In (name, pkg) pkgs ->
      Dict.get res name
      = match Dict.get pkg "github" with
        | Some id_ =>
            if Py.truthy id_
            then forge_candidate field
                   (http_get w (fmt [github_base; "/"; Py.str id_; "/"; type])
                      (github_headers args))
            else None
        | None => None
        end.
Proof.
  intros w args pkgs type field res Hwf Hout name pkg Hin.
  rewrite agithub_tasks in Hout. apply bind_inr in Hout.
  destruct Hout as [tok [_ [Hout _]]].
  destruct (forge_results_spec w field _ res (github_tasks_names args type pkgs Hwf) Hout)
    as [Hsome Hnone].
  assert (Hno : Py.truthy_opt (Dict.get pkg "github") = false ->
                Dict.get res name = None).
  { intros Hid. apply Hnone. intros H. apply in_map_iff in H.
    destruct H as [[[n url] h] [E Hp]]. unfold pending_name in E. cbn [fst] in E. subst n.
    apply in_flat_map in Hp. destruct Hp as [[name' pkg'] [Hin' Hp]].
    destruct (Dict.get pkg' "github") as [id' |] eqn:Eid'; [| destruct Hp].
    destruct (Py.truthy id') eqn:Et; [| destruct Hp].
    destruct Hp as [E | []]. injection E as -> _ _.
    rewrite (wf_unique pkgs name pkg pkg' Hwf Hin Hin'), Eid' in Hid.
    simpl in Hid. congruence. }
  destruct (Dict.get pkg "github") as [id_ |] eqn:Eid; [| apply Hno; reflexivity].
  destruct (Py.truthy id_) eqn:Et; [| apply Hno; exact Et].
  apply Hsome. apply in_flat_map. exists (name, pkg). split; [exact Hin |].
  rewrite Eid, Et. left. reflexivity.
Qed.

Lemma agithub_returns_latest_of_own_response_witness :
  Dict.get [("foo", ParserClaims.rel [1; 0; 0]%N)] "foo"
  = Some (ParserClaims.rel [1; 0; 0]%N).
Proof.
  refine (eq_trans
            (agithub_returns_latest_of_own_response forge_world default_args
               multi_cat "releases" "tag_name"
               [("foo", ParserClaims.rel [1; 0; 0]%N)] _ _
               "foo" [("github", TStr "a/b"); ("gitlab", TStr "c/d")] _) _).
  - repeat constructor; simpl; intuition discriminate.
  - vm_compute. reflexivity.
  - left. reflexivity.
  - vm_compute. reflexivity.
Defined.

Section ArchResults.
Variable w : World.

Lemma arch_body_spec res t res' :
  outcome
    ('(name, r) <- result t ;;
     j <- json_of r ;;
     j <- lift (Py.getitem j "results") ;;
     if Py.truthy_json j then
       first <- lift (Py.getitem0 j) ;;
       pkgver <- lift (Py.getitem first "pkgver") ;;
       vers <- parse_values [pkgver] ;;
       match vers with
       | v :: _ => ret (Dict.set res name v)
       | [] => ret res
       end
     else ret res) = inr res' ->
  res' = match arch_candidate (snd t) with
         | Some v => Dict.set res (fst t) v
         | None => res
         end.
Proof.
  destruct t as [name [r |]]; [| discriminate]. cbn [result fst snd arch_candidate].
  rewrite bind_ret_l. unfold json_of. destruct (resp_json r) as [j |]; [| discriminate].
  rewrite bind_ret_l. unfold lift at 1.
  destruct (Py.getitem j "results") as [e | results]; [discriminate |].
  change (@inr exn json results, @nil event) with (ret results). rewrite bind_ret_l.
  destruct (Py.truthy_json results).
  - unfold lift at 1. destruct (Py.getitem0 results) as [e | first]; [discriminate |].
    change (@inr exn json first, @nil event) with (ret first). rewrite bind_ret_l.
    unfold lift at 1. destruct (Py.getitem first "pkgver") as [e | pkgver]; [discriminate |].
    change (@inr exn json pkgver, @nil event) with (ret pkgver). rewrite bind_ret_l.
    rewrite outcome_bind. destruct (outcome (parse_values [pkgver])) as [e | vers];
      [discriminate |].
    destruct vers; simpl; intros H; injection H as <-; reflexivity.
  - simpl. intros H. injection H as <-. reflexivity.
Qed.

End ArchResults.

(** X20.  When the arch adapter returns, every package of the mapping it was
    given has the entry its own search yields: the version of the first
    result of the answer to [<arch_base>/?name=<id>], where [id] is the
    [arch] entry of the package or else its name; no entry when there is no
    result or the version of the first one does not parse.  Later results
    are not looked at. *)
Theorem aarch_returns_first_result_of_own_search :
  forall (w : World) (args : options) (pkgs : catalog) (res : versions),
    Dict.wf pkgs ->
    outcome (aarch w args pkgs) = inr res ->
    forall name pkg,
      In (name, pkg) pkgs ->
      Dict.get res name
      = arch_candidate
          (http_get w
             (fmt [arch_base; "/?name=";
                   Py.str (match Dict.get pkg "arch" with
                           | Some v => v
                           | None => TStr name
                           end)])
             []).
Proof.
  intros w args pkgs res Hwf Hout name pkg Hin. unfold aarch in Hout.
  apply bind_inr in Hout. destruct Hout as [done [Hwait [Hloop _]]].
  apply wait_inr in Hwait. subst done.
  match type of Hloop with context [map (answer w) ?l] => set (aws := l) in * end.
  assert (Hnd : NoDup (map pending_name aws)).
  { unfold aws. rewrite map_map. erewrite map_ext; [exact Hwf |].
    intros [n p]. reflexivity. }
  destruct (keyed_loop fst (fun t => arch_candidate (snd t)) _
              (arch_body_spec) _ (done_names w aws Hnd) _ _ Hloop) as [Hres _].
  match goal with |- _ = arch_candidate ?r => assert (Ht : In (name, r) (set_order w _ (map (answer w) aws))) end.
  { apply in_set_order. apply in_map_iff.
    eexists (name, _, []). split; [reflexivity |].
    unfold aws. apply in_map_iff. exists (name, pkg). split; [reflexivity | exact Hin]. }
  pose proof (Hres _ Ht) as H. cbn [fst snd] in H. rewrite H.
  destruct (arch_candidate _); reflexivity.
Qed.

Lemma aarch_returns_first_result_of_own_search_witness :
  Dict.get [("foo", ParserClaims.rel [0; 9]%N)] "foo"
  = Some (ParserClaims.rel [0; 9]%N).
Proof.
  refine (eq_trans
            (aarch_returns_first_result_of_own_search forge_world default_args
               multi_cat [("foo", ParserClaims.rel [0; 9]%N)] _ _
               "foo" [("github", TStr "a/b"); ("gitlab", TStr "c/d")] _) _).
  - repeat constructor; simpl; intuition discriminate.
  - vm_compute. reflexivity.
  - left. reflexivity.
  - vm_compute. reflexivity.
Defined.

End AdapterResults.

(* ------------------------------------------------------------------ *)
(** ** Merging in two steps *)

Module MergeAlgebra.
Import DictFacts VersionFacts MergeFacts MergeOrder.

(** The value [update] leaves under a key that both mappings have. *)
Definition pick (ov v : Version) : Version :=
  if VersionOrder.gtb v ov then v else ov.

(** The value of a key after the merge, from its values before. *)
Definition merged (ov v : option Version) : option Version :=
  match ov, v with
  | Some a, Some b => Some (pick a b)
  | Some a, None => Some a
  | None, v => v
  end.

Lemma get_merge1 res k v :
  Dict.get (merge1 res (k, v)) k = merged (Dict.get res k) (Some v).
Proof.
  unfold merge1, merged, pick. destruct (Dict.get res k) as [ov |] eqn:Eg.
  - destruct (VersionOrder.gtb v ov); [apply get_set_eq | exact Eg].
  - apply get_set_eq.
Qed.

Lemma get_update new :
  Dict.wf new ->
  forall old k,
    Dict.get (update old new) k = merged (Dict.get old k) (Dict.get new k).
Proof.
  induction new as [| [k' v'] new IH]; intros Hwf old k.
  - simpl. destruct (Dict.get old k); reflexivity.
  - destruct (wf_head _ _ _ Hwf) as [Hk' Hwf']. rewrite update_cons.
    cbn [Dict.get]. destruct (String.eqb_spec k' k) as [-> | Hne].
    + rewrite update_frame by exact Hk'. apply get_merge1.
    + rewrite (IH Hwf'), merge1_other by exact Hne. reflexivity.
Qed.

Lemma gtb_trans a b c :
  VersionOrder.gtb a b = true -> VersionOrder.gtb b c = true ->
  VersionOrder.gtb a c = true.
Proof.
  unfold VersionOrder.gtb. intros H1 H2.
  destruct (VersionOrder.compare a b) eqn:E1; try discriminate.
  destruct (VersionOrder.compare b c) eqn:E2; try discriminate.
  rewrite (OrderFacts.cmp_gt_trans VersionOrder.compare _ _ _ E1 E2).
  reflexivity.
Qed.

Lemma pick_assoc x y z : pick (pick x y) z = pick x (pick y z).
Proof.
  unfold pick.
  destruct (VersionOrder.gtb y x) eqn:Eyx, (VersionOrder.gtb z y) eqn:Ezy.
  - rewrite (gtb_trans _ _ _ Ezy Eyx). reflexivity.
  - rewrite Eyx. reflexivity.
  - reflexivity.
  - rewrite Eyx. destruct (VersionOrder.gtb z x) eqn:Ezx; [| reflexivity].
    pose proof (le_trans _ _ _ (not_gtb_le _ _ Ezy) (not_gtb_le _ _ Eyx)) as Hle.
    rewrite (le_not_gtb _ _ Hle) in Ezx. discriminate Ezx.
Qed.

Lemma merged_assoc x y z : merged (merged x y) z = merged x (merged y z).
Proof.
  destruct x as [x |], y as [y |], z as [z |]; simpl; trivial.
  rewrite pick_assoc. reflexivity.
Qed.

(** Two dicts with the same keys in the same order and the same value under
    each key are the same. *)
Lemma dict_ext {V} (d1 d2 : Dict.t V) :
  Dict.wf d1 -> Dict.keys d1 = Dict.keys d2 ->
  (forall k, Dict.get d1 k = Dict.get d2 k) -> d1 = d2.
Proof.
  revert d2. induction d1 as [| [k v] d1 IH]; intros d2 Hwf Hkeys Hget.
  - destruct d2; [reflexivity | discriminate].
  - destruct d2 as [| [k2 v2] d2]; [discriminate |].
    simpl in Hkeys. injection Hkeys as <- Hkeys.
    destruct (wf_head _ _ _ Hwf) as [Hk Hwf'].
    pose proof (Hget k) as Hv. simpl in Hv. rewrite String.eqb_refl in Hv.
    injection Hv as <-. f_equal. apply IH; trivial.
    intros k'. destruct (String.eqb_spec k k') as [<- | Hne].
    + rewrite (get_none d1 k Hk). symmetry. apply get_none.
      fold (Dict.keys d2). rewrite <- Hkeys. exact Hk.
    + specialize (Hget k'). simpl in Hget.
      apply String.eqb_neq in Hne. rewrite Hne in Hget. exact Hget.
Qed.

Lemma mem_update (old new : versions) k :
  Dict.wf new ->
  Dict.mem (update old new) k = Dict.mem old k || Dict.mem new k.
Proof.
  intros Hwf. unfold Dict.mem. rewrite (get_update new Hwf).
  destruct (Dict.get old k), (Dict.get new k); reflexivity.
Qed.

Lemma filter_twice {A} (f g : A -> bool) l :
  filter f (filter g l) = filter (fun x => f x && g x) l.
Proof.
  induction l as [| x l IH]; [reflexivity |]. simpl.
  destruct (g x); simpl; [destruct (f x); simpl; rewrite IH; reflexivity |].
  rewrite andb_false_r. exact IH.
Qed.

(** X21.  Merging is associative: merging [b] and then [c] into [a] gives the
    same mapping, keys in the same order, as merging into [a] the merge of
    [c] into [b].  A run that merges the answers of its sources one after
    the other ends with the map it would get from merging them all at
    once. *)
Theorem update_is_associative :
  forall a b c : versions,
    Dict.wf a -> Dict.wf b -> Dict.wf c ->
    update (update a b) c = update a (update b c).
Proof.
  intros a b c Ha Hb Hc.
  pose proof (update_wf b c Hc Hb) as Hbc.
  pose proof (update_wf a b Hb Ha) as Hab.
  apply dict_ext.
  - apply update_wf; assumption.
  - rewrite (update_keys_order c Hc), (update_keys_order b Hb),
      (update_keys_order _ Hbc), (update_keys_order c Hc).
    rewrite <- app_assoc, filter_app. do 2 f_equal.
    rewrite filter_twice. apply filter_ext. intros k.
    rewrite (mem_update a b k Hb), negb_orb. reflexivity.
  - intros k. rewrite (get_update c Hc), (get_update b Hb), (get_update _ Hbc),
      (get_update c Hc). apply merged_assoc.
Qed.

Lemma update_is_associative_witness :
  update (update [("a", ParserClaims.rel [1]%N)] [("b", ParserClaims.rel [2]%N)])
    [("a", ParserClaims.rel [3]%N)]
  = update [("a", ParserClaims.rel [1]%N)]
      (update [("b", ParserClaims.rel [2]%N)] [("a", ParserClaims.rel [3]%N)]).
Proof.
  apply update_is_associative; repeat constructor; simpl; intuition discriminate.
Defined.

End MergeAlgebra.

(* ------------------------------------------------------------------ *)
(** ** The groups of the primary phase *)

Module PrimaryGroups.
Import Hoare DictFacts AdapterFacts MergeFacts RunFacts TraceFacts OrderFacts.

(** *** The order of [str] *)

Definition slt (a b : string) : Prop := str_ltb a b = true.

Lemma cmp_list_eq l1 : forall l2, PyOrder.cmp_list N.compare l1 l2 = Eq -> l1 = l2.
Proof.
  induction l1 as [| a l1 IH]; intros [| b l2] H; simpl in H; try discriminate; trivial.
  destruct (N.compare a b) eqn:E; try discriminate.
  apply N.compare_eq in E. subst b. f_equal. apply IH. exact H.
Qed.

Lemma codes_inj a : forall b, map PyStr.code a = map PyStr.code b -> a = b.
Proof.
  induction a as [| x a IH]; intros [| y b] H; simpl in H; try discriminate; trivial.
  injection H as Hx H. f_equal; [| apply IH; exact H].
  unfold PyStr.code in Hx. rewrite <- (ascii_N_embedding x), <- (ascii_N_embedding y).
  rewrite Hx. reflexivity.
Qed.

Lemma cmp_str_eq a b : PyOrder.cmp_str a b = Eq -> a = b.
Proof.
  unfold PyOrder.cmp_str, PyOrder.cmp_chars. intros H.
  apply cmp_list_eq, codes_inj in H.
  rewrite <- (ParserFacts.of_chars_chars a), <- (ParserFacts.of_chars_chars b), H.
  reflexivity.
Qed.

Lemma slt_irrefl a : str_ltb a a = false.
Proof. unfold str_ltb. rewrite (cmp_refl (c := PyOrder.cmp_str)). reflexivity. Qed.

Lemma slt_trans a b c : slt a b -> slt b c -> slt a c.
Proof.
  unfold slt, str_ltb. intros H1 H2.
  destruct (PyOrder.cmp_str a b) eqn:E1; try discriminate.
  destruct (PyOrder.cmp_str b c) eqn:E2; try discriminate.
  rewrite (cmp_lt_trans PyOrder.cmp_str _ _ _ E1 E2). reflexivity.
Qed.

Lemma slt_asym a b : str_ltb a b = true -> str_ltb b a = false.
Proof.
  unfold str_ltb. intros H. destruct (PyOrder.cmp_str a b) eqn:E; try discriminate.
  rewrite (cmp_flip_lt PyOrder.cmp_str _ _ E). reflexivity.
Qed.

(** Not above and not equal is below. *)
Lemma sle_neq a b : str_ltb b a = false -> a <> b -> slt a b.
Proof.
  unfold slt, str_ltb. intros H Hne.
  destruct (PyOrder.cmp_str a b) eqn:E; trivial.
  - apply cmp_str_eq in E. contradiction.
  - rewrite (cmp_flip_gt PyOrder.cmp_str _ _ E) in H. discriminate H.
Qed.

Lemma sle_slt a b c : str_ltb b a = false -> slt b c -> slt a c.
Proof.
  intros H1 H2. destruct (String.eqb_spec a b) as [-> | Hne]; [exact H2 |].
  eapply slt_trans; [apply sle_neq; eassumption | exact H2].
Qed.

Lemma sle_trans a b c :
  str_ltb b a = false -> str_ltb c b = false -> str_ltb c a = false.
Proof.
  intros H1 H2. destruct (str_ltb c a) eqn:E; trivial.
  pose proof (sle_slt _ _ _ H2 E) as H. unfold slt in H. congruence.
Qed.

(** *** Sorting by key and grouping *)

Section Keyed.
Context {A : Type}.

(** The order [sorted(..., key=...)] sorts the pairs by. *)
Definition by_key (a b : string * A) : bool := str_ltb (fst a) (fst b).

Definition sle_key (a b : string * A) : Prop := SortFacts.le_of by_key a b.

Definition has_key (k : string) (kv : string * A) : bool := String.eqb (fst kv) k.

Lemma sorted_by_key l : StronglySorted sle_key (PyOrder.sorted by_key l).
Proof.
  apply SortFacts.sorted_sorted.
  - intros a b. apply slt_asym.
  - intros a b c. unfold SortFacts.le_of, by_key. intros H1 H2.
    eapply sle_trans; eassumption.
Qed.

Lemma insert_sorted_by_key x l :
  StronglySorted sle_key l -> StronglySorted sle_key (PyOrder.insert by_key x l).
Proof.
  apply SortFacts.insert_sorted.
  - intros a b. apply slt_asym.
  - intros a b c. unfold SortFacts.le_of, by_key. intros H1 H2.
    eapply sle_trans; eassumption.
Qed.

(** Nothing with the key of [x] stands after the place where [x] goes. *)
Lemma filter_above k x l :
  has_key k x = true -> Forall (fun y => by_key x y = true) l ->
  filter (has_key k) l = [].
Proof.
  unfold has_key, by_key. intros Hx. apply String.eqb_eq in Hx.
  induction 1 as [| y l Hy _ IH]; [reflexivity |]. simpl.
  destruct (String.eqb_spec (fst y) k) as [E | _]; [| exact IH].
  rewrite Hx, E, slt_irrefl in Hy. discriminate Hy.
Qed.

Lemma above_all x y l :
  by_key x y = true -> StronglySorted sle_key (y :: l) ->
  Forall (fun z => by_key x z = true) (y :: l).
Proof.
  intros Hxy Hs. inversion Hs as [| ? ? _ Hall]; subst. constructor; [exact Hxy |].
  eapply Forall_impl; [| exact Hall]. intros z Hz.
  unfold sle_key, SortFacts.le_of, by_key in *.
  destruct (String.eqb_spec (fst y) (fst z)) as [<- | Hne]; [exact Hxy |].
  eapply slt_trans; [exact Hxy | apply sle_neq; assumption].
Qed.

(** The sort is stable: the pairs of one key keep their order. *)
Lemma filter_insert k x l :
  StronglySorted sle_key l ->
  filter (has_key k) (PyOrder.insert by_key x l)
  = filter (has_key k) l ++ (if has_key k x then [x] else []).
Proof.
  induction l as [| y l IH]; intros Hs; simpl.
  - destruct (has_key k x); reflexivity.
  - destruct (by_key x y) eqn:Exy.
    + cbn [filter]. destruct (has_key k x) eqn:Ex.
      * pose proof (filter_above k x _ Ex (above_all x y l Exy Hs)) as E.
        cbn [filter] in E. rewrite E. reflexivity.
      * rewrite app_nil_r. reflexivity.
    + inversion Hs as [| ? ? Hs' _]; subst. cbn [filter]. rewrite (IH Hs').
      destruct (has_key k y); reflexivity.
Qed.

Lemma filter_fold_insert k l :
  forall acc,
    StronglySorted sle_key acc ->
    filter (has_key k) (fold_left (fun acc x => PyOrder.insert by_key x acc) l acc)
    = filter (has_key k) acc ++ filter (has_key k) l.
Proof.
  induction l as [| x l IH]; intros acc Hs; simpl.
  - symmetry. apply app_nil_r.
  - rewrite (IH _ (insert_sorted_by_key x acc Hs)), (filter_insert k x acc Hs).
    rewrite <- app_assoc. destruct (has_key k x); reflexivity.
Qed.

Lemma filter_sorted k l :
  filter (has_key k) (PyOrder.sorted by_key l) = filter (has_key k) l.
Proof. apply (filter_fold_insert k l []). constructor. Qed.

Lemma groupby_head (l : list (string * A)) k g gs :
  groupby l = (k, g) :: gs -> exists a t, l = (k, a) :: t.
Proof.
  destruct l as [| [k0 a0] t]; [discriminate |]. simpl.
  destruct (groupby t) as [| [k1 g1] gs'].
  - intros H. injection H as <- _ _. eauto.
  - destruct (String.eqb k0 k1); intros H; injection H as <- _ _; eauto.
Qed.

(** The keys of the groups of a sorted list go strictly up. *)
Lemma groupby_keys_sorted (l : list (string * A)) :
  StronglySorted sle_key l -> StronglySorted slt (map fst (groupby l)).
Proof.
  induction 1 as [| [k0 a0] t Hs IH Hall]; [constructor |].
  simpl. destruct (groupby t) as [| [k1 g1] gs] eqn:Eg; [repeat constructor |].
  destruct (String.eqb_spec k0 k1) as [<- | Hne]; [exact IH |].
  cbn [map fst]. constructor; [exact IH |].
  destruct (groupby_head _ _ _ _ Eg) as [a [t' ->]].
  assert (H01 : slt k0 k1).
  { apply sle_neq; [| exact Hne]. inversion Hall as [| ? ? H _]; subst. exact H. }
  cbn [map fst] in IH. inversion IH as [| ? ? _ Hlater]; subst.
  constructor; [exact H01 |].
  eapply Forall_impl; [| exact Hlater]. intros k Hk. eapply slt_trans; eassumption.
Qed.

(** A group holds the values of its key, in the order of the list. *)
Lemma groupby_filter (l : list (string * A)) :
  StronglySorted sle_key l ->
  forall k g, In (k, g) (groupby l) -> g = map snd (filter (has_key k) l).
Proof.
  induction 1 as [| [k0 a0] t Hs IH Hall]; intros k g Hin; [destruct Hin |].
  pose proof (groupby_keys_sorted t Hs) as Hkeys.
  simpl in Hin. destruct (groupby t) as [| [k1 g1] gs] eqn:Eg.
  - destruct t as [| [k' a'] t'].
    + destruct Hin as [E | []]. injection E as <- <-.
      unfold has_key. simpl. rewrite String.eqb_refl. reflexivity.
    + simpl in Eg. destruct (groupby t') as [| [? ?] ?];
        [discriminate | destruct (String.eqb k' s); discriminate].
  - destruct (groupby_head _ _ _ _ Eg) as [a [t' Et]].
    cbn [map fst] in Hkeys. pose proof (proj2 (StronglySorted_inv Hkeys)) as Hlater.
    assert (Hothers : forall k' g', In (k', g') gs -> k' <> k1).
    { intros k' g' H' ->. rewrite Forall_forall in Hlater.
      pose proof (Hlater k1 (in_map fst _ _ H')) as Hlt.
      unfold slt in Hlt. rewrite slt_irrefl in Hlt. discriminate Hlt. }
    destruct (String.eqb_spec k0 k1) as [<- | Hne].
    + destruct Hin as [E | Hin].
      * injection E as <- <-. cbn [filter]. unfold has_key at 1. cbn [fst].
        rewrite String.eqb_refl. cbn [map snd]. f_equal.
        apply IH. left. reflexivity.
      * cbn [filter]. unfold has_key at 1. cbn [fst].
        destruct (String.eqb_spec k0 k) as [<- | _].
        -- exfalso. apply (Hothers k0 g Hin). reflexivity.
        -- apply IH. right. exact Hin.
    + assert (H01 : slt k0 k1).
      { apply sle_neq; [| exact Hne]. rewrite Et in Hall. apply Forall_inv in Hall.
        exact Hall. }
      assert (Hfirst : forall k' g', In (k', g') ((k1, g1) :: gs) -> k' <> k0).
      { intros k' g' [E | H'] ->.
        - injection E as <- _. unfold slt in H01. rewrite slt_irrefl in H01. discriminate.
        - rewrite Forall_forall in Hlater.
          pose proof (slt_trans _ _ _ H01 (Hlater _ (in_map fst _ _ H'))) as Hlt.
          unfold slt in Hlt. rewrite slt_irrefl in Hlt. discriminate Hlt. }
      destruct Hin as [E | Hin].
      * injection E as <- <-. cbn [filter]. unfold has_key at 1. cbn [fst].
        rewrite String.eqb_refl. cbn [map snd]. f_equal.
        rewrite (filter_above k0 (k0, a0)); [reflexivity | apply String.eqb_refl |].
        rewrite Et. apply (above_all (k0, a0) (k1, a) t'); [exact H01 |].
        rewrite <- Et. exact Hs.
      * cbn [filter]. unfold has_key at 1. cbn [fst].
        destruct (String.eqb_spec k0 k) as [<- | _].
        -- exfalso. apply (Hfirst k0 g Hin). reflexivity.
        -- apply IH. exact Hin.
Qed.

End Keyed.

End PrimaryGroups.

(* ------------------------------------------------------------------ *)
(** ** The order of the primary phase *)

Module PrimaryOrder.
Import Hoare DictFacts AdapterFacts MergeFacts RunFacts TraceFacts OrderFacts.
Import FailureFacts PrimaryGroups Examples.

(** The sources invoked in the primary phase with what they were handed, in
    order. *)
Definition primary_calls (log : list event) : list (string * catalog) :=
  flat_map
    (fun e => match e with
              | Invoke Primary k x => [(k, x)]
              | _ => []
              end)
    log.

(** The package names [k] as its primary source. *)
Definition declares (k : string) (item : string * pkgspec) : bool :=
  match Dict.get (snd item) "primary" with
  | Some (TStr s) => String.eqb s k
  | _ => false
  end.

(** The packages of the catalog that name [k] as primary, in catalog order. *)
Definition declaring (c : catalog) (k : string) : catalog := filter (declares k) c.

Definition keyed_items (primary : list (string * pkgspec))
  : list (string * (string * pkgspec)) :=
  flat_map
    (fun item =>
       match Dict.get (snd item) "primary" with
       | Some (TStr k) => [(k, item)]
       | _ => []
       end)
    primary.

Lemma keyed_declaring (c : catalog) k :
  map snd (filter (has_key k)
             (keyed_items (filter (fun '(k, v) => Dict.mem v "primary") c)))
  = declaring c k.
Proof.
  unfold declaring. induction c as [| [name pkg] c IH]; [reflexivity |].
  cbn [filter]. unfold Dict.mem at 1, declares at 1. cbn [snd].
  destruct (Dict.get pkg "primary") as [p |] eqn:Ep; [| exact IH].
  cbn [keyed_items flat_map snd]. rewrite Ep. fold (keyed_items (filter (fun '(k, v) => Dict.mem v "primary") c)).
  destruct p as [s | |]; try exact IH.
  cbn [app filter]. unfold has_key at 1. cbn [fst].
  destruct (String.eqb s k); [cbn [map snd]; f_equal |]; exact IH.
Qed.

Lemma set_absent {V} (d : Dict.t V) k v :
  ~ In k (Dict.keys d) -> Dict.set d k v = d ++ [(k, v)].
Proof.
  induction d as [| [k' v'] d IH]; intros H; [reflexivity |]. simpl.
  destruct (String.eqb_spec k' k) as [-> | Hne].
  - exfalso. apply H. left. reflexivity.
  - f_equal. apply IH. intros Hin. apply H. right. exact Hin.
Qed.

(** [dict(items)] of items with distinct names is the items. *)
Lemma of_items_nodup {V} (items : list (string * V)) :
  NoDup (map fst items) -> Dict.of_items items = items.
Proof.
  unfold Dict.of_items.
  assert (H : forall d, NoDup (map fst (d ++ items)) ->
              fold_left (fun d kv => Dict.set d (fst kv) (snd kv)) items d = d ++ items).
  { induction items as [| [k v] items IH]; intros d Hnd; simpl.
    - symmetry. apply app_nil_r.
    - rewrite set_absent.
      + rewrite IH; rewrite <- app_assoc; [reflexivity | exact Hnd].
      + rewrite map_app in Hnd. apply NoDup_remove_2 in Hnd.
        intros Hin. apply Hnd. apply in_or_app. left. exact Hin. }
  intros Hnd. apply (H []). exact Hnd.
Qed.

Lemma nodup_filter_keys {V} (f : string * V -> bool) (d : Dict.t V) :
  Dict.wf d -> NoDup (map fst (filter f d)).
Proof.
  induction d as [| [k v] d IH]; intros Hwf; [constructor |].
  destruct (wf_head _ _ _ Hwf) as [Hk Hd]. simpl.
  destruct (f (k, v)); [| apply IH; exact Hd].
  simpl. constructor; [| apply IH; exact Hd].
  intros Hin. apply Hk. apply in_map_iff in Hin. destruct Hin as [x [<- Hx]].
  apply filter_In in Hx. apply (in_map fst _ _ (proj1 Hx)).
Qed.

Lemma primary_calls_app l1 l2 :
  primary_calls (l1 ++ l2) = primary_calls l1 ++ primary_calls l2.
Proof. apply flat_map_app. Qed.

Lemma primary_calls_plain log : Forall plain log -> primary_calls log = [].
Proof.
  induction 1 as [| e log He _ IH]; [reflexivity |].
  cbn [primary_calls flat_map]. fold (primary_calls log). rewrite IH.
  destruct e; try reflexivity. destruct He.
Qed.

Lemma sorted_prefix {A} (R : A -> A -> Prop) l1 l2 :
  StronglySorted R (l1 ++ l2) -> StronglySorted R l1.
Proof.
  induction l1 as [| a l1 IH]; intros H; [constructor |].
  simpl in H. apply StronglySorted_inv in H. destruct H as [Hs Hall].
  constructor; [apply IH; exact Hs |].
  apply Forall_app in Hall. apply Hall.
Qed.

Lemma sorted_nodup l : StronglySorted slt l -> NoDup l.
Proof.
  induction 1 as [| a l _ IH Hall]; constructor; [| exact IH].
  intros Hin. rewrite Forall_forall in Hall. pose proof (Hall a Hin) as H.
  unfold slt in H. rewrite slt_irrefl in H. discriminate H.
Qed.

Lemma set_add_new k asked : ~ In k asked -> set_add k asked = asked ++ [k].
Proof.
  intros H. unfold set_add. destruct (existsb (String.eqb k) asked) eqn:E; [| reflexivity].
  apply existsb_exists in E. destruct E as [x [Hx E]]. apply String.eqb_eq in E.
  subst x. contradiction.
Qed.

Lemma fold_set_add {A} (gs : list (string * A)) :
  forall asked,
    NoDup (asked ++ map fst gs) ->
    fold_left (fun a kg => set_add (fst kg) a) gs asked = asked ++ map fst gs.
Proof.
  induction gs as [| [k g] gs IH]; intros asked Hnd; simpl.
  - symmetry. apply app_nil_r.
  - rewrite set_add_new.
    + rewrite IH; rewrite <- app_assoc; [reflexivity | exact Hnd].
    + cbn [map fst] in Hnd. apply NoDup_remove_2 in Hnd.
      intros Hin. apply Hnd. apply in_or_app. left. exact Hin.
Qed.

Section Phase.
Variables (w : World) (args : options).

(** The body of the loop of [get_primary]. *)
Definition group_step (st : versions * list string)
  (kg : string * list (string * pkgspec)) : M (versions * list string) :=
  let '(vers, asked) := st in
  let '(k, g) := kg in
  let x := Dict.of_items g in
  let asked := set_add k asked in
  match Dict.get sources k with
  | None => raise KeyError
  | Some s =>
      emit (Invoke Primary k x) ;;;
      new <- call w s args x ;;
      let vers := update vers new in
      emit (Resolved vers) ;;;
      status args k x new (List.length vers) ;;;
      ret (vers, asked)
  end.

Definition call_of (kg : string * list (string * pkgspec)) : string * catalog :=
  (fst kg, Dict.of_items (snd kg)).

Lemma group_step_calls st kg :
  (primary_calls (trace (group_step st kg)) = []
   /\ forall st', outcome (group_step st kg) <> inr st')
  \/ (primary_calls (trace (group_step st kg)) = [call_of kg]
      /\ forall st', outcome (group_step st kg) = inr st' ->
                     snd st' = set_add (fst kg) (snd st)).
Proof.
  destruct st as [vers asked], kg as [k g]. unfold group_step.
  destruct (Dict.get sources k) as [s |]; [right | left; split; [reflexivity | discriminate]].
  rewrite bind_emit. cbn [trace snd outcome fst].
  match goal with |- context [trace ?m] => assert (H : hoare plain (fun st' => snd st' = set_add k asked) m) end.
  { eapply (hoare_bind _ any).
    { eapply hoare_conseq; [apply call_hoare | apply request_plain | intros; exact I]. }
    intros new _. eapply (hoare_bind _ any).
    { apply hoare_emit; exact I. }
    intros _ _. eapply (hoare_bind _ any).
    { eapply hoare_conseq; [apply status_hoare | apply stderr_plain | intros; exact I]. }
    intros _ _. apply hoare_ret. reflexivity. }
  split.
  - change (primary_calls (Invoke Primary k (Dict.of_items g) :: ?t))
      with ((k, Dict.of_items g) :: primary_calls t).
    rewrite (primary_calls_plain _ (proj1 H)). reflexivity.
  - intros st' Hst'. apply (proj2 H). exact Hst'.
Qed.

Lemma group_loop_calls gs :
  forall st,
  exists done rest,
    gs = done ++ rest
    /\ primary_calls (trace (for_each gs st group_step)) = map call_of done
    /\ forall st',
         outcome (for_each gs st group_step) = inr st' ->
         rest = []
         /\ snd st' = fold_left (fun a kg => set_add (fst kg) a) gs (snd st).
Proof.
  induction gs as [| kg gs IH]; intros st.
  - exists [], []. repeat split. simpl in H. injection H as <-. reflexivity.
  - cbn [for_each].
    destruct (group_step_calls st kg) as [[Hcalls Hout] | [Hcalls Hout]].
    + exists [], (kg :: gs). split; [reflexivity |].
      destruct (group_step st kg) as [[e | st1] log1].
      * split; [exact Hcalls | discriminate].
      * exfalso. apply (Hout st1). reflexivity.
    + destruct (group_step st kg) as [[e | st1] log1].
      * exists [kg], gs. split; [reflexivity |]. split; [exact Hcalls | discriminate].
      * destruct (IH st1) as [done [rest [-> [Hrest Hret]]]].
        exists (kg :: done), rest. split; [reflexivity |].
        cbn [bind]. destruct (for_each (done ++ rest) st1 group_step) as [r log2].
        cbn [trace snd outcome fst] in *. split.
        -- rewrite primary_calls_app, Hcalls, Hrest. reflexivity.
        -- intros st' Hst'. destruct (Hret st' Hst') as [-> ->]. split; [reflexivity |].
           cbn [fold_left]. rewrite (Hout st1 eq_refl). reflexivity.
Qed.

Lemma for_each_ext {A S} (l : list A) (body1 body2 : S -> A -> M S) :
  (forall s a, body1 s a = body2 s a) ->
  forall s, for_each l s body1 = for_each l s body2.
Proof.
  intros H. induction l as [| a l IH]; intros s; [reflexivity |].
  cbn [for_each]. rewrite H. apply bind_ext. exact IH.
Qed.

Lemma get_primary_loop c vers :
  get_primary w args c vers
  = (keyed <- primary_keys (filter (fun '(k, v) => Dict.mem v "primary") c) ;;
     for_each (groupby (PyOrder.sorted by_key keyed)) (vers, []) group_step).
Proof.
  unfold get_primary. apply bind_ext. intros keyed.
  apply for_each_ext. intros [vers' asked] [k g]. reflexivity.
Qed.

End Phase.

(** X22.  The primary phase invokes the sources that packages name as
    primary in ascending order of their names, each at most once, and hands
    each one exactly the packages of the catalog that name it, in catalog
    order.  When the phase returns, every source that some package names
    has been invoked, and [asked] lists the invoked sources. *)
Theorem primary_phase_asks_each_source_once :
  forall (w : World) (args : options) (c : catalog) (vers : versions),
    Dict.wf c ->
    StronglySorted slt
      (map fst (primary_calls (trace (get_primary w args c vers))))
    /\ (forall k x,
          In (k, x) (primary_calls (trace (get_primary w args c vers))) ->
          x = declaring c k /\ x <> [])
    /\ (forall vers' asked,
          outcome (get_primary w args c vers) = inr (vers', asked) ->
          asked = map fst (primary_calls (trace (get_primary w args c vers)))
          /\ forall name pkg k,
               In (name, pkg) c -> Dict.get pkg "primary" = Some (TStr k) ->
               In k asked).
Proof.
  intros w args c vers Hwf. rewrite get_primary_loop.
  set (primary := filter (fun '(k, v) => Dict.mem v "primary") c).
  unfold primary_keys. destruct (forallb primary_is_str primary) eqn:Eall.
  2:{ assert (E : forall e, bind (@raise (list (string * (string * pkgspec))) e)
                    (fun keyed => for_each (groupby (PyOrder.sorted by_key keyed))
                                    (vers, []) (group_step w args))
                  = (inl e, [])) by reflexivity.
      destruct (existsb primary_is_str primary); rewrite E;
        (split; [constructor | split; [intros k x [] | discriminate]]). }
  rewrite bind_ret_l. fold (keyed_items primary).
  set (groups := groupby (PyOrder.sorted by_key (keyed_items primary))).
  pose proof (groupby_keys_sorted _ (sorted_by_key (keyed_items primary))) as Hsorted.
  fold groups in Hsorted.
  assert (Hgroup : forall k g, In (k, g) groups ->
                     Dict.of_items g = declaring c k /\ g <> []).
  { intros k g Hin. split.
    - pose proof (groupby_filter _ (sorted_by_key (keyed_items primary)) k g Hin) as Eg.
      rewrite filter_sorted in Eg. unfold primary in Eg. rewrite keyed_declaring in Eg.
      subst g. apply of_items_nodup. apply nodup_filter_keys. exact Hwf.
    - apply (groupby_keyed _ _ _ Hin). }
  destruct (group_loop_calls w args groups (vers, [])) as [done [rest [Egroups [Hcalls Hret]]]].
  rewrite Hcalls. split; [| split].
  - rewrite map_map. cbn [call_of fst]. rewrite Egroups, map_app in Hsorted.
    apply sorted_prefix in Hsorted. exact Hsorted.
  - intros k x Hin. apply in_map_iff in Hin. destruct Hin as [[k' g] [E Hin]].
    unfold call_of in E. cbn [fst snd] in E. injection E as -> <-.
    assert (Hg : In (k, g) groups) by (rewrite Egroups; apply in_or_app; left; exact Hin).
    destruct (Hgroup k g Hg) as [E Hne]. split; [exact E |].
    rewrite E. rewrite <- E. apply of_items_nonempty. exact Hne.
  - intros vers' asked Hout. destruct (Hret _ Hout) as [-> Hasked].
    cbn [snd] in Hasked. rewrite app_nil_r in Egroups. subst done.
    rewrite (fold_set_add groups []) in Hasked
      by (cbn [app]; apply sorted_nodup; exact Hsorted).
    cbn [app] in Hasked. subst asked. rewrite map_map. cbn [call_of fst].
    split; [reflexivity |].
    intros name pkg k Hin Hp.
    assert (Hk : In (k, (name, pkg)) (keyed_items primary)).
    { apply in_flat_map. exists (name, pkg). split.
      - apply filter_In. split; [exact Hin |]. unfold Dict.mem. rewrite Hp. reflexivity.
      - cbn [snd]. rewrite Hp. left. reflexivity. }
    apply (Permutation_in _ (Permutation_sym (SortFacts.sorted_perm by_key _))) in Hk.
    destruct (groupby_complete _ _ _ Hk) as [g Hg].
    apply (in_map fst _ _ Hg).
Qed.

(** Three packages, two of which name the gitlab adapter and one github. *)
Definition grouped_cat : catalog :=
  [("a", [("primary", TStr "gitlab"); ("gitlab", TStr "a/a")]);
   ("b", [("primary", TStr "github"); ("github", TStr "b/b")]);
   ("c", [("primary", TStr "gitlab"); ("gitlab", TStr "c/c")])].

Definition grouped_world : World :=
  world
    [("https://api.github.com/repos/b/b/releases",
      json_body (JArr [JObj [("tag_name", JStr "2.0")]]));
     ("https://gitlab.com/api/v4/projects/a%2Fa/releases",
      json_body (JArr [JObj [("tag_name", JStr "1.0")]]));
     ("https://gitlab.com/api/v4/projects/c%2Fc/releases",
      json_body (JArr [JObj [("tag_name", JStr "3.0")]]))]
    false.

Lemma primary_phase_asks_each_source_once_witness :
  map fst (primary_calls (trace (get_primary grouped_world default_args grouped_cat [])))
  = ["github"; "gitlab"]
  /\ StronglySorted slt
       (map fst (primary_calls
                   (trace (get_primary grouped_world default_args grouped_cat [])))).
Proof.
  split; [vm_compute; reflexivity |].
  apply (primary_phase_asks_each_source_once grouped_world default_args grouped_cat []).
  repeat constructor; simpl; intuition discriminate.
Defined.

End PrimaryOrder.
